(** * Brand identity analyzer: a shallow embedding of [api/index.js]

    The extraction pipeline of the analyzer (URL normalisation, logo,
    metadata, tagline, font and colour extraction, and the error mapping of
    the [/api/analyze] route) is translated function by function.  The
    platform pieces the source relies on are modelled explicitly:

    - JavaScript strings are sequences of UTF-16 code units; this development
      covers code units below 256, one [ascii] per code unit;
    - regular expressions are interpreted by a backtracking matcher that
      follows the ECMAScript matching order (leftmost, greedy, ordered
      alternation);
    - numbers are IEEE-754 binary64 values ([PrimFloat]);
    - the markup library is a tree of elements queried by the selector forms
      the source uses;
    - the [URL] class and the HTTP client are interfaces (type classes), so
      every general statement holds for any implementation of them. *)

From Stdlib Require Import List String Ascii Bool Arith NArith ZArith Lia.
From Stdlib Require Import Sorting.Permutation Sorting.Sorted.
From Stdlib Require Import Floats.PrimFloat Floats.FloatOps Floats.SpecFloat.
From Stdlib Require Import DecimalString HexadecimalString.
Import ListNotations.

#[local] Set Warnings "-inexact-float".

Local Open Scope list_scope.
Local Open Scope string_scope.

(** ** JavaScript strings *)

Module JS.

Definition code (c : ascii) : N := N_of_ascii c.

Definition between (lo hi : N) (c : ascii) : bool :=
  ((lo <=? code c) && (code c <=? hi))%N.

Definition is_digit : ascii -> bool := between 48 57.
Definition is_upper : ascii -> bool := between 65 90.
Definition is_lower : ascii -> bool := between 97 122.
Definition is_alpha (c : ascii) : bool := is_upper c || is_lower c.

(** [\w] is [[A-Za-z0-9_]]. *)
Definition is_word (c : ascii) : bool :=
  is_alpha c || is_digit c || (code c =? 95)%N.

(** WhiteSpace and LineTerminator code units below 256: TAB, LF, VT, FF, CR,
    SP and NBSP.  This is the set [trim] strips and [\s] matches. *)
Definition is_space (c : ascii) : bool :=
  between 9 13 c || (code c =? 32)%N || (code c =? 160)%N.

Definition is_line_terminator (c : ascii) : bool :=
  (code c =? 10)%N || (code c =? 13)%N.

Definition is_hex_digit (c : ascii) : bool :=
  is_digit c || between 65 70 c || between 97 102 c.

Definition shift_code (d : Z) (c : ascii) : ascii :=
  ascii_of_N (Z.to_N (Z.of_N (code c) + d)).

(** Case mapping of a code unit.  Besides ASCII, the Latin-1 letters whose
    image is again below 256 are mapped; the three code units whose upper
    case leaves that range (181, 223, 255) are left alone. *)
Definition upper_char (c : ascii) : ascii :=
  if is_lower c then shift_code (-32) c
  else if between 224 254 c && negb (code c =? 247)%N then shift_code (-32) c
  else c.

Definition lower_char (c : ascii) : ascii :=
  if is_upper c then shift_code 32 c
  else if between 192 222 c && negb (code c =? 215)%N then shift_code 32 c
  else c.

Fixpoint map_string (f : ascii -> ascii) (s : string) : string :=
  match s with
  | EmptyString => EmptyString
  | String c r => String (f c) (map_string f r)
  end.

Definition toUpperCase : string -> string := map_string upper_char.
Definition toLowerCase : string -> string := map_string lower_char.

Fixpoint all_chars (p : ascii -> bool) (s : string) : bool :=
  match s with
  | EmptyString => true
  | String c r => p c && all_chars p r
  end.

Fixpoint rev_string (acc s : string) : string :=
  match s with
  | EmptyString => acc
  | String c r => rev_string (String c acc) r
  end.

Fixpoint trimStart (s : string) : string :=
  match s with
  | String c r => if is_space c then trimStart r else s
  | EmptyString => EmptyString
  end.

Definition trimEnd (s : string) : string :=
  rev_string "" (trimStart (rev_string "" s)).

Definition trim (s : string) : string := trimEnd (trimStart s).

(** A string is truthy when it is not empty. *)
Definition truthy (s : string) : bool :=
  match s with EmptyString => false | _ => true end.

(** [s || d] on strings. *)
Definition or_else (s d : string) : string := if truthy s then s else d.

(** [o || d] where [o] is a string or [undefined]. *)
Definition opt_or (o : option string) (d : string) : string :=
  match o with Some s => or_else s d | None => d end.

Fixpoint startsWith (p s : string) : bool :=
  match p, s with
  | EmptyString, _ => true
  | String a p', String b s' => Ascii.eqb a b && startsWith p' s'
  | String _ _, EmptyString => false
  end.

Fixpoint includes (p s : string) : bool :=
  startsWith p s ||
  match s with
  | EmptyString => false
  | String _ r => includes p r
  end.

Fixpoint drop (n : nat) (s : string) : string :=
  match n, s with
  | O, _ => s
  | S n', String _ r => drop n' r
  | S _, EmptyString => EmptyString
  end.

Fixpoint take (n : nat) (s : string) : string :=
  match n, s with
  | S n', String c r => String c (take n' r)
  | _, _ => EmptyString
  end.

(** [s.slice(from, to)] for non-negative indices. *)
Definition slice (from to : nat) (s : string) : string :=
  take (to - from) (drop from s).

(** [s.split(sep)] for a separator of one code unit. *)
Fixpoint split_aux (sep : ascii) (cur : string) (s : string) : list string :=
  match s with
  | EmptyString => [rev_string "" cur]
  | String c r =>
      if Ascii.eqb c sep then rev_string "" cur :: split_aux sep "" r
      else split_aux sep (String c cur) r
  end.

Definition split (sep : ascii) (s : string) : list string := split_aux sep "" s.

Fixpoint repeat_char (c : ascii) (n : nat) : string :=
  match n with O => "" | S n' => String c (repeat_char c n') end.

Definition padStart (n : nat) (c : ascii) (s : string) : string :=
  repeat_char c (n - String.length s) ++ s.

(** [Set] of strings: insertion order is kept, a present value is not added
    again. *)
Definition set_add (x : string) (l : list string) : list string :=
  if existsb (String.eqb x) l then l else (l ++ [x])%list.

Definition set_add_all (xs : list string) (l : list string) : list string :=
  fold_left (fun acc x => set_add x acc) xs l.

(** [Map] from strings: insertion order is kept, [set] on a present key
    updates the value in place. *)
Fixpoint map_get {V : Type} (k : string) (m : list (string * V)) : option V :=
  match m with
  | [] => None
  | (k', v) :: r => if String.eqb k k' then Some v else map_get k r
  end.

Fixpoint map_set {V : Type} (k : string) (v : V) (m : list (string * V))
  : list (string * V) :=
  match m with
  | [] => [(k, v)]
  | (k', v') :: r =>
      if String.eqb k k' then (k', v) :: r else (k', v') :: map_set k v r
  end.

(** [Array.prototype.sort] with a comparator: the sort is stable, so with a
    consistent comparator its result is the stable insertion sort's. *)
Fixpoint sort_insert {A : Type} (cmp : A -> A -> Z) (x : A) (l : list A)
  : list A :=
  match l with
  | [] => [x]
  | y :: r => if (cmp x y <=? 0)%Z then x :: y :: r
              else y :: sort_insert cmp x r
  end.

Definition sort {A : Type} (cmp : A -> A -> Z) (l : list A) : list A :=
  fold_right (sort_insert cmp) [] l.

End JS.

(** ** JavaScript numbers *)

Module Num.

Local Open Scope Z_scope.

(** Number values that are [NaN], infinite or integral: what [parseInt] and
    [Math.round] return. *)
Inductive jsint :=
| NaN
| Inf (negative : bool)
| Int (z : Z).

(** The Number nearest to a mathematical integer (round to nearest, ties to
    even), as an integer again, or an infinity. *)
Definition of_integer (z : Z) : jsint :=
  match binary_normalize prec emax z 0 false with
  | S754_zero _ => Int 0
  | S754_finite s m e =>
      Int (if 0 <=? e then cond_Zopp s (Zpos m) * 2 ^ e
           else cond_Zopp s (Zpos m) / 2 ^ (- e))
  | S754_infinity s => Inf s
  | S754_nan => NaN
  end.

Definition digit_value (c : ascii) : option Z :=
  if JS.is_digit c then Some (Z.of_N (JS.code c) - 48)
  else if JS.is_upper c then Some (Z.of_N (JS.code c) - 55)
  else if JS.is_lower c then Some (Z.of_N (JS.code c) - 87)
  else None.

(** The longest prefix of digits of the radix, read as an integer; [None]
    when the prefix is empty. *)
Fixpoint digits_prefix (radix : Z) (acc : option Z) (s : string) : option Z :=
  match s with
  | EmptyString => acc
  | String c r =>
      match digit_value c with
      | Some d =>
          if d <? radix
          then digits_prefix radix
                 (Some (match acc with Some a => a * radix + d | None => d end)) r
          else acc
      | None => acc
      end
  end.

Definition strip_sign (s : string) : bool * string :=
  match s with
  | String "-" r => (true, r)
  | String "+" r => (false, r)
  | _ => (false, s)
  end.

Definition strip_0x (s : string) : option string :=
  match s with
  | String "0" (String c r) =>
      if (JS.code c =? 120)%N || (JS.code c =? 88)%N then Some r else None
  | _ => None
  end.

(** [parseInt(s, radix)]; [radix = None] is the call without a radix.  The
    result is the Number nearest to the integer read. *)
Definition parseInt (s : string) (radix : option Z) : jsint :=
  let (neg, body) := strip_sign (JS.trimStart s) in
  let '(r, body) :=
    match radix, strip_0x body with
    | None, Some rest => (16, rest)
    | None, None => (10, body)
    | Some 16, Some rest => (16, rest)
    | Some r, _ => (r, body)
    end in
  match digits_prefix r None body with
  | None => NaN
  | Some v => of_integer (if neg then - v else v)
  end.

Definition digits_of (base : Z) (n : N) : string :=
  if (base =? 16)%Z
  then HexadecimalString.NilEmpty.string_of_uint (N.to_hex_uint n)
  else DecimalString.NilEmpty.string_of_uint (N.to_uint n).

(** [n.toString(16)] and [String(n)] for such a number: the digits of the
    exact value.  This is what every engine prints for an integer of
    magnitude below 2^53 in base 16 and below 10^21 in base 10, the only
    integers the source can reach on well-formed colours. *)
Definition toStringRadix (base : Z) (n : jsint) : string :=
  match n with
  | NaN => "NaN"
  | Inf false => "Infinity"
  | Inf true => "-Infinity"
  | Int z =>
      if z <? 0 then "-" ++ digits_of base (Z.to_N (- z))
      else digits_of base (Z.to_N z)
  end.

(** *** binary64 arithmetic *)

Definition of_spec (x : spec_float) : float := SF2Prim x.

Definition of_Z (z : Z) : float := of_spec (binary_normalize prec emax z 0 false).

Definition to_float (n : jsint) : float :=
  match n with
  | NaN => nan
  | Inf s => if s then neg_infinity else infinity
  | Int z => of_Z z
  end.

(** The binary64 value nearest to [sign * n / d], for [0 <= n] and [0 < d]:
    the quotient is computed with at least two guard bits and a sticky
    location, then rounded to nearest even. *)
Definition of_ratio (neg : bool) (n d : Z) : float :=
  if n =? 0 then (if neg then neg_zero else zero)
  else
    let s := Z.max 0 (56 + Z.log2 d - Z.log2 n) in
    let q := (n * 2 ^ s) / d in
    let r := (n * 2 ^ s) mod d in
    let loc := if r =? 0 then loc_Exact else loc_Inexact (Z.compare (2 * r) d) in
    of_spec (binary_round_aux prec emax neg q (- s) loc).

(** [Math.round]: the integer nearest to [x], ties towards positive infinity. *)
Definition round (x : float) : jsint :=
  match Prim2SF x with
  | S754_nan => NaN
  | S754_infinity s => Inf s
  | S754_zero _ => Int 0
  | S754_finite s m e =>
      let v := cond_Zopp s (Zpos m) in
      if 0 <=? e then Int (v * 2 ^ e)
      else Int ((2 * v + 2 ^ (- e)) / 2 ^ (1 - e))
  end.

(** The [%] operator: the remainder has the sign of the dividend and is
    exact. *)
Definition rem (x y : float) : float :=
  match Prim2SF x, Prim2SF y with
  | S754_nan, _ | _, S754_nan => nan
  | S754_infinity _, _ => nan
  | _, S754_zero _ => nan
  | _, S754_infinity _ => x
  | S754_zero _, _ => x
  | S754_finite sx mx ex, S754_finite _ my ey =>
      let e := Z.min ex ey in
      let r := Z.rem (Zpos mx * 2 ^ (ex - e)) (Zpos my * 2 ^ (ey - e)) in
      of_spec (binary_normalize prec emax (cond_Zopp sx r) e sx)
  end.

Definition min2 (a b : float) : float :=
  if is_nan a || is_nan b then nan
  else if PrimFloat.ltb a b then a
  else if PrimFloat.ltb b a then b
  else if get_sign a then a else b.

Definition max2 (a b : float) : float :=
  if is_nan a || is_nan b then nan
  else if PrimFloat.ltb a b then b
  else if PrimFloat.ltb b a then a
  else if get_sign a then b else a.

(** [Math.min] and [Math.max] of one or more arguments. *)
Definition min (x : float) (xs : list float) : float := fold_left min2 xs x.
Definition max (x : float) (xs : list float) : float := fold_left max2 xs x.

(** *** [parseFloat] *)

Fixpoint span_digits (acc : Z) (n : Z) (s : string) : Z * Z * string :=
  match s with
  | String c r =>
      if JS.is_digit c
      then span_digits (acc * 10 + (Z.of_N (JS.code c) - 48)) (n + 1) r
      else (acc, n, s)
  | EmptyString => (acc, n, s)
  end.

(** The exponent part [e[+-]digits], taken only when digits follow. *)
Definition exponent_part (s : string) : Z :=
  match s with
  | String c r =>
      if (JS.code c =? 101)%N || (JS.code c =? 69)%N then
        let (neg, r') := strip_sign r in
        let '(v, n, _) := span_digits 0 0 r' in
        if n =? 0 then 0 else if neg then - v else v
      else 0
  | EmptyString => 0
  end.

(** [parseFloat(s)]: the longest prefix that is a decimal literal, rounded to
    the nearest binary64 value; [NaN] when there is none.  (Past 20
    significant digits the language lets an engine round the literal first.) *)
Definition parseFloat (s : string) : float :=
  let (neg, body) := strip_sign (JS.trimStart s) in
  if JS.startsWith "Infinity" body
  then (if neg then neg_infinity else infinity)
  else
    let '(ip, ni, rest) := span_digits 0 0 body in
    let '(mant, nf, rest') :=
      match rest with
      | String "." r =>
          let '(m, n, r') := span_digits ip 0 r in
          if (ni =? 0) && (n =? 0) then (ip, 0, rest) else (m, n, r')
      | _ => (ip, 0, rest)
      end in
    if (ni =? 0) && (nf =? 0) then nan
    else
      let e := exponent_part rest' - nf in
      if 0 <=? e then of_ratio neg (mant * 10 ^ e) 1
      else of_ratio neg mant (10 ^ (- e)).

End Num.

(** ** Regular expressions *)

Module Regex.

Local Open Scope nat_scope.

Inductive cls_item :=
| One (c : ascii)            (* a single character *)
| Range (lo hi : ascii)      (* [lo-hi] *)
| Digit                      (* \d *)
| Word                       (* \w *)
| Space.                     (* \s *)

Inductive regex :=
| Empty
| Chr (c : ascii)
| Class (negated : bool) (items : list cls_item)
| Seq (r1 r2 : regex)
| Alt (r1 r2 : regex)
| Star (r : regex)                 (* greedy r* *)
| Group (i : nat) (r : regex)      (* capturing group number i *)
| Bol                              (* ^ *)
| Eol                              (* $ *)
| NotAhead (r : regex).            (* (?!r) *)

Record flags := { ignoreCase : bool; multiline : bool }.

Definition no_flags := {| ignoreCase := false; multiline := false |}.
Definition flag_i := {| ignoreCase := true; multiline := false |}.
Definition flag_im := {| ignoreCase := true; multiline := true |}.

(** Derived forms. *)
Definition Plus (r : regex) : regex := Seq r (Star r).
Definition Opt (r : regex) : regex := Alt r Empty.

Fixpoint Lit (s : string) : regex :=
  match s with
  | EmptyString => Empty
  | String c EmptyString => Chr c
  | String c r => Seq (Chr c) (Lit r)
  end.

Fixpoint Seqs (rs : list regex) : regex :=
  match rs with
  | [] => Empty
  | [r] => r
  | r :: rest => Seq r (Seqs rest)
  end.

Fixpoint Alts (rs : list regex) : regex :=
  match rs with
  | [] => Empty
  | [r] => r
  | r :: rest => Alt r (Alts rest)
  end.

Fixpoint Exactly (n : nat) (r : regex) : regex :=
  match n with
  | O => Empty
  | S n' => Seq r (Exactly n' r)
  end.

Fixpoint UpTo (n : nat) (r : regex) : regex :=
  match n with
  | O => Empty
  | S n' => Opt (Seq r (UpTo n' r))
  end.

(** [r{lo,hi}], greedy. *)
Definition Repeat (lo hi : nat) (r : regex) : regex :=
  Seq (Exactly lo r) (UpTo (hi - lo) r).

(** The state of a match attempt: the position reached, the character before
    it, the input that remains, and the spans of the groups captured so far. *)
Record mstate := {
  m_pos : nat;
  m_prev : option ascii;
  m_rest : string;
  m_caps : list (nat * (nat * nat))
}.

Definition advance (c : ascii) (rest : string) (st : mstate) : mstate :=
  {| m_pos := S (m_pos st); m_prev := Some c; m_rest := rest;
     m_caps := m_caps st |}.

Definition set_cap (i from to : nat) (st : mstate) : mstate :=
  {| m_pos := m_pos st; m_prev := m_prev st; m_rest := m_rest st;
     m_caps := (i, (from, to)) :: m_caps st |}.

(** Canonicalisation under the [i] flag.  The patterns of the source contain
    ASCII characters only, and no character above 127 canonicalises to an
    ASCII one, so folding the ASCII letters is exact. *)
Definition canon (c : ascii) : ascii :=
  if JS.is_lower c then JS.shift_code (-32) c else c.

Definition swap_case (c : ascii) : ascii :=
  if JS.is_lower c then JS.shift_code (-32) c
  else if JS.is_upper c then JS.shift_code 32 c
  else c.

Definition char_eq (f : flags) (c d : ascii) : bool :=
  if ignoreCase f then Ascii.eqb (canon c) (canon d) else Ascii.eqb c d.

Definition item_has (it : cls_item) (d : ascii) : bool :=
  match it with
  | One c => Ascii.eqb c d
  | Range lo hi => JS.between (JS.code lo) (JS.code hi) d
  | Digit => JS.is_digit d
  | Word => JS.is_word d
  | Space => JS.is_space d
  end.

Definition class_has (f : flags) (negated : bool) (items : list cls_item)
  (d : ascii) : bool :=
  let hit :=
    existsb (fun it => item_has it d) items ||
    (ignoreCase f && existsb (fun it => item_has it (swap_case d)) items) in
  if negated then negb hit else hit.

Definition at_bol (f : flags) (st : mstate) : bool :=
  match m_prev st with
  | None => true
  | Some c => multiline f && JS.is_line_terminator c
  end.

Definition at_eol (f : flags) (st : mstate) : bool :=
  match m_rest st with
  | EmptyString => true
  | String c _ => multiline f && JS.is_line_terminator c
  end.

(** The iterations of a greedy star whose body is matched by [step]: another
    iteration is tried first, the continuation after it.  An iteration that
    consumes nothing is rejected, so every accepted iteration advances and
    the remaining length bounds their number. *)
Fixpoint star_loop
  (step : (mstate -> option mstate) -> mstate -> option mstate)
  (k : mstate -> option mstate) (fuel : nat) (st : mstate) {struct fuel}
  : option mstate :=
  match fuel with
  | O => k st
  | S fuel' =>
      match step (fun st' => if m_pos st' =? m_pos st then None
                             else star_loop step k fuel' st') st with
      | Some res => Some res
      | None => k st
      end
  end.

(** The backtracking matcher, in continuation-passing style: [run f r k st]
    matches [r] at [st] and hands every way of doing so to [k], in the order
    of preference, until [k] accepts one. *)
Fixpoint run (f : flags) (r : regex) (k : mstate -> option mstate)
  (st : mstate) {struct r} : option mstate :=
  match r with
  | Empty => k st
  | Chr c =>
      match m_rest st with
      | String d rest => if char_eq f c d then k (advance d rest st) else None
      | EmptyString => None
      end
  | Class negated items =>
      match m_rest st with
      | String d rest =>
          if class_has f negated items d then k (advance d rest st) else None
      | EmptyString => None
      end
  | Seq r1 r2 => run f r1 (run f r2 k) st
  | Alt r1 r2 =>
      match run f r1 k st with
      | Some res => Some res
      | None => run f r2 k st
      end
  | Star r1 => star_loop (run f r1) k (S (String.length (m_rest st))) st
  | Group i r1 =>
      run f r1 (fun st' => k (set_cap i (m_pos st) (m_pos st') st')) st
  | Bol => if at_bol f st then k st else None
  | Eol => if at_eol f st then k st else None
  | NotAhead r1 =>
      match run f r1 Some st with
      | Some _ => None
      | None => k st
      end
  end.

(** The leftmost match at or after a position. *)
Fixpoint search (f : flags) (r : regex) (pos : nat) (prev : option ascii)
  (rest : string) : option (nat * mstate) :=
  match run f r Some {| m_pos := pos; m_prev := prev; m_rest := rest;
                        m_caps := [] |} with
  | Some st => Some (pos, st)
  | None =>
      match rest with
      | EmptyString => None
      | String c rest' => search f r (S pos) (Some c) rest'
      end
  end.

(** A match: where it starts and ends, its text, and the text of a group. *)
Record result := {
  index : nat;
  last : nat;
  matched : string;
  spans : list (nat * (nat * nat));
  input : string
}.

Definition group (i : nat) (m : result) : option string :=
  match find (fun c => fst c =? i) (spans m) with
  | Some (_, (from, to)) => Some (JS.slice from to (input m))
  | None => None
  end.

Definition mk_result (s : string) (hit : nat * mstate) : result :=
  {| index := fst hit; last := m_pos (snd hit);
     matched := JS.slice (fst hit) (m_pos (snd hit)) s;
     spans := m_caps (snd hit); input := s |}.

Definition prev_at (pos : nat) (s : string) : option ascii :=
  match pos with
  | O => None
  | S p => String.get p s
  end.

(** [re.exec(s)] with [lastIndex = from] (for a regex without the [g] flag,
    [from = 0]). *)
Definition exec_from (f : flags) (r : regex) (from : nat) (s : string)
  : option result :=
  if String.length s <? from then None
  else option_map (mk_result s)
         (search f r from (prev_at from s) (JS.drop from s)).

(** [re.test(s)] and [s.match(re)] for a regex without the [g] flag. *)
Definition exec (f : flags) (r : regex) (s : string) : option result :=
  exec_from f r 0 s.

Definition test (f : flags) (r : regex) (s : string) : bool :=
  match exec f r s with Some _ => true | None => false end.

(** The successive matches of a [g] regex: the loop
    [while ((m = re.exec(s)) !== null)], and [s.match(re)].  Each match
    restarts at the end of the previous one.  The patterns of the source all
    start with a literal character, so no match is empty; an empty match ends
    the enumeration here. *)
Fixpoint exec_loop (f : flags) (r : regex) (fuel from : nat) (s : string)
  : list result :=
  match fuel with
  | O => []
  | S fuel' =>
      match exec_from f r from s with
      | None => []
      | Some m =>
          if last m <=? from then [m]
          else m :: exec_loop f r fuel' (last m) s
      end
  end.

Definition exec_all (f : flags) (r : regex) (s : string) : list result :=
  exec_loop f r (S (String.length s)) 0 s.

(** [s.replace(re, by)] for a [g] regex and a replacement without [$]. *)
Fixpoint replace_from (by_ : string) (from : nat) (ms : list result)
  (s : string) : string :=
  match ms with
  | [] => JS.drop from s
  | m :: rest =>
      JS.slice from (index m) s ++ by_ ++ replace_from by_ (last m) rest s
  end.

Definition replace_all (f : flags) (r : regex) (by_ : string) (s : string)
  : string :=
  replace_from by_ 0 (exec_all f r s) s.

(** [s.replace(re, by)] for a regex without the [g] flag. *)
Definition replace_first (f : flags) (r : regex) (by_ : string) (s : string)
  : string :=
  match exec f r s with
  | None => s
  | Some m => JS.take (index m) s ++ by_ ++ JS.drop (last m) s
  end.

End Regex.

(** ** The markup model *)

Module Dom.

(** A parsed document is a forest of elements and text nodes.  The parser
    lower-cases tag and attribute names and keeps the first of several
    attributes of one name. *)
#[local] Unset Elimination Schemes.
Inductive node :=
| Element (tag : string) (attrs : list (string * string)) (children : list node)
| Text (data : string).
#[local] Set Elimination Schemes.

Definition document := list node.

(** [$(el).attr(name)]: the value, or [undefined]. *)
Definition attr_of (name : string) (attrs : list (string * string))
  : option string :=
  JS.map_get name attrs.

Definition attr (name : string) (n : node) : option string :=
  match n with
  | Element _ attrs _ => attr_of name attrs
  | Text _ => None
  end.

(** [.text()]: the text of the descendants, in document order. *)
Fixpoint text (n : node) : string :=
  match n with
  | Text d => d
  | Element _ _ cs => String.concat "" (map text cs)
  end.

(** The selector forms of the source. *)
Inductive attr_test :=
| AttrIs (name value : string)       (* [name="value"] *)
| AttrHas (name value : string)      (* [name*="value"] *)
| ClassIs (c : string)               (* .c *)
| IdIs (i : string).                 (* #i *)

Record simple := { s_tag : option string; s_tests : list attr_test }.

(** A chain of simple selectors joined by the descendant combinator,
    outermost first: [[class*="hero"] h1] is a chain of two. *)
Definition selector := list simple.

Definition words (s : string) : list string :=
  filter JS.truthy
    (JS.split " " (JS.map_string (fun c => if JS.is_space c then " "%char else c) s)).

(** The attributes whose values a selector compares without regard to case
    in an HTML document, when the selector carries no case flag of its own. *)
Definition caseInsensitiveAttributes : list string :=
  ["accept"; "accept-charset"; "align"; "alink"; "axis"; "bgcolor"; "charset";
   "checked"; "clear"; "codetype"; "color"; "compact"; "declare"; "defer";
   "dir"; "direction"; "disabled"; "enctype"; "face"; "frame"; "hreflang";
   "http-equiv"; "lang"; "language"; "link"; "media"; "method"; "multiple";
   "nohref"; "noresize"; "noshade"; "nowrap"; "readonly"; "rel"; "rev";
   "rules"; "scope"; "scrolling"; "selected"; "shape"; "target"; "text";
   "type"; "valign"; "valuetype"; "vlink"].

Definition shouldIgnoreCase (name : string) : bool :=
  existsb (String.eqb name) caseInsensitiveAttributes.

(** [[name="value"]] compares the attribute with the value as they are, or,
    for an attribute of the list above, their lower-case forms (and their
    lengths).  [[name*="value"]] never holds of an empty value; it looks for
    the value in the attribute as it is, or, for an attribute of the list,
    with the [i] flag, under which two characters agree when their upper-case
    forms do. *)
Definition test_holds (attrs : list (string * string)) (t : attr_test) : bool :=
  match t with
  | AttrIs n v =>
      match attr_of n attrs with
      | Some x =>
          if shouldIgnoreCase n then
            (String.length x =? String.length v)%nat
            && String.eqb (JS.toLowerCase x) (JS.toLowerCase v)
          else String.eqb x v
      | None => false
      end
  | AttrHas n v =>
      match attr_of n attrs with
      | Some x =>
          JS.truthy v
          && (if shouldIgnoreCase n
              then JS.includes (JS.toUpperCase v) (JS.toUpperCase x)
              else JS.includes v x)
      | None => false
      end
  | ClassIs c =>
      match attr_of "class" attrs with
      | Some x => existsb (String.eqb c) (words x)
      | None => false
      end
  | IdIs i =>
      match attr_of "id" attrs with Some x => String.eqb x i | None => false end
  end.

Definition simple_holds (s : simple) (el : string * list (string * string))
  : bool :=
  match s_tag s with
  | Some t => String.eqb t (fst el)
  | None => true
  end && forallb (test_holds (snd el)) (s_tests s).

(** The outer part of a chain against the ancestors of an element, both
    listed from the nearest outwards. *)
Fixpoint ancestors_hold (chain : list simple)
  (anc : list (string * list (string * string))) : bool :=
  match chain with
  | [] => true
  | s :: chain' =>
      (fix seek (anc : list (string * list (string * string))) : bool :=
         match anc with
         | [] => false
         | a :: anc' =>
             if simple_holds s a then ancestors_hold chain' anc'
             else seek anc'
         end) anc
  end.

Definition matches (sel : selector)
  (anc : list (string * list (string * string)))
  (el : string * list (string * string)) : bool :=
  match rev sel with
  | [] => false
  | target :: outer => simple_holds target el && ancestors_hold outer anc
  end.

Fixpoint select_in (sel : selector)
  (anc : list (string * list (string * string))) (n : node) : list node :=
  match n with
  | Text _ => []
  | Element t a cs =>
      ((if matches sel anc (t, a) then [n] else [])
       ++ flat_map (select_in sel ((t, a) :: anc)) cs)%list
  end.

(** [$(selector)]: the matching elements in document order. *)
Definition select (sel : selector) (doc : document) : list node :=
  flat_map (select_in sel []) doc.

(** [$(selector).attr(name)]: the attribute of the first element of the
    selection. *)
Definition first_attr (name : string) (sel : list node) : option string :=
  match sel with
  | [] => None
  | n :: _ => attr name n
  end.

(** [$(selector).first().text()]. *)
Definition first_text (sel : list node) : string :=
  match sel with
  | [] => ""
  | n :: _ => text n
  end.

Definition tag (t : string) : simple := {| s_tag := Some t; s_tests := [] |}.
Definition tag_with (t : string) (ts : list attr_test) : simple :=
  {| s_tag := Some t; s_tests := ts |}.
Definition any_with (ts : list attr_test) : simple :=
  {| s_tag := None; s_tests := ts |}.

End Dom.

(** ** Platform interfaces *)

(** What a thrown value exposes to the route's handler: [err.response.status],
    [err.code] and [err.message]. *)
Record js_error := {
  err_status : option Z;
  err_code : option string;
  err_message : option string
}.

(** A computation that returns or throws. *)
Inductive outcome (A : Type) :=
| Return (a : A)
| Throw (e : js_error).

Arguments Return {A} a.
Arguments Throw {A} e.

Definition bind {A B : Type} (m : outcome A) (k : A -> outcome B) : outcome B :=
  match m with
  | Return a => k a
  | Throw e => Throw e
  end.

Definition try_catch {A : Type} (m : outcome A) (h : js_error -> outcome A)
  : outcome A :=
  match m with
  | Return a => Return a
  | Throw e => h e
  end.

Notation "x <- m ;; k" := (bind m (fun x => k))
  (at level 61, m at next level, right associativity).

Fixpoint for_each {A S : Type} (body : S -> A -> outcome S) (l : list A) (s : S)
  : outcome S :=
  match l with
  | [] => Return s
  | a :: r => s' <- body s a ;; for_each body r s'
  end.

(** The [URL] class: [url_parse input base] is [new URL(input, base)], and
    [None] when the constructor throws. *)
Record url := { href : string; origin : string; hostname : string }.

Class UrlApi := { url_parse : string -> option string -> option url }.

(** The HTTP client.  A request is identified by the place that issues it,
    since two requests for one address may end differently.  The requests of a
    batch ([Promise.all]) settle in an order the network chooses. *)
Inductive channel :=
| PageRequest
| FontSheet (i : nat)
| ColorSheet (i : nat).

Record axios_config := {
  timeout : Z;
  maxRedirects : option Z;
  headers : list (string * string);
  responseType : string
}.

Class Network := {
  axios_get : channel -> string -> axios_config -> outcome string;
  settle_order : list (channel * string) -> list nat
}.

(** The markup parser, [cheerio.load]. *)
Class Markup := { cheerio_load : string -> Dom.document }.

Definition invalid_url : js_error :=
  {| err_status := None; err_code := Some "ERR_INVALID_URL";
     err_message := Some "Invalid URL" |}.

(** [new URL(s)] as a computation. *)
Definition new_URL `{UrlApi} (s : string) : outcome url :=
  match url_parse s None with
  | Some u => Return u
  | None => Throw invalid_url
  end.

(** ** The analyzer *)

Section Analyzer.

Context {U : UrlApi} {N : Network} {M : Markup}.

Import Regex Dom.

Local Open Scope string_scope.

(** *** Helpers *)

(** [/^https?:\/\//i] *)
Definition scheme_re : regex := Seqs [Bol; Lit "http"; Opt (Chr "s"); Lit "://"].

(** [new Error('Invalid URL')] *)
Definition invalid_url_error : js_error :=
  {| err_status := None; err_code := None; err_message := Some "Invalid URL" |}.

(** [function normalizeUrl(inputUrl)] *)
Definition normalizeUrl (inputUrl : string) : outcome string :=
  let u := JS.trim inputUrl in
  let u := if negb (test flag_i scheme_re u) then "https://" ++ u else u in
  try_catch
    (parsed <- new_URL u ;; Return (href parsed))
    (fun _ => Throw invalid_url_error).

(** [function resolveUrl(base, relative)]; [None] is [null]. *)
Definition resolveUrl (base relative : string) : option string :=
  if negb (JS.truthy relative) then None
  else match url_parse relative (Some base) with
       | Some u => Some (href u)
       | None => None
       end.

(** The options of the page request. *)
Definition page_config : axios_config :=
  {| timeout := 12000;
     maxRedirects := Some 5%Z;
     headers :=
       [("User-Agent",
         "Mozilla/5.0 (compatible; BrandAnalyzerBot/1.0; +https://github.com/brand-analyzer)");
        ("Accept",
         "text/html,application/xhtml+xml,application/xml;q=0.9,*/*;q=0.8");
        ("Accept-Language", "en-US,en;q=0.5");
        ("Accept-Encoding", "gzip, deflate, br")];
     responseType := "text" |}.

(** [async function fetchPage(targetUrl)] *)
Definition fetchPage (targetUrl : string) : outcome string :=
  axios_get PageRequest targetUrl page_config.

(** The options of a style-sheet request. *)
Definition css_config : axios_config :=
  {| timeout := 8000;
     maxRedirects := None;
     headers := [("User-Agent", "BrandAnalyzerBot/1.0")];
     responseType := "text" |}.

(** [async function fetchCSS(cssUrl)]; [ch] identifies the request. *)
Definition fetchCSS (ch : channel) (cssUrl : string) : outcome string :=
  try_catch
    (data <- axios_get ch cssUrl css_config ;; Return (JS.or_else data ""))
    (fun _ => Return "").

(** *** Logo *)

Record candidate := {
  c_url : option string;
  c_source : string;
  c_priority : Z
}.

Definition truthy_opt (o : option string) : bool :=
  match o with Some s => JS.truthy s | None => false end.

(** [a || b] on values that are a string or [undefined]. *)
Definition or_opt (a b : option string) : option string :=
  if truthy_opt a then a else b.

Definition meta_property (p : string) : selector :=
  [tag_with "meta" [AttrIs "property" p]].
Definition meta_name (n : string) : selector :=
  [tag_with "meta" [AttrIs "name" n]].
Definition link_rel (r : string) : selector :=
  [tag_with "link" [AttrIs "rel" r]].

(** [/logo/] *)
Definition logo_re : regex := Lit "logo".

Definition lower_attr (name : string) (el : node) : string :=
  JS.toLowerCase (JS.opt_or (attr name el) "").

(** The candidates pushed before the final fallback, in the order of the
    pushes. *)
Definition og_candidates (doc : document) (baseUrl : string) : list candidate :=
  match first_attr "content" (select (meta_property "og:image") doc) with
  | Some ogImg =>
      if JS.truthy ogImg
      then [{| c_url := resolveUrl baseUrl ogImg; c_source := "og:image";
               c_priority := 1 |}]
      else []
  | None => []
  end.

Definition twitter_candidates (doc : document) (baseUrl : string)
  : list candidate :=
  match first_attr "content" (select (meta_name "twitter:image") doc) with
  | Some twitterImg =>
      if JS.truthy twitterImg
      then [{| c_url := resolveUrl baseUrl twitterImg;
               c_source := "twitter:image"; c_priority := 2 |}]
      else []
  | None => []
  end.

Definition touch_icon_candidates (doc : document) (baseUrl : string)
  : list candidate :=
  flat_map
    (fun el =>
       match attr "href" el with
       | Some h =>
           if JS.truthy h
           then [{| c_url := resolveUrl baseUrl h;
                    c_source := "apple-touch-icon"; c_priority := 3 |}]
           else []
       | None => []
       end)
    (select (link_rel "apple-touch-icon") doc).

Definition img_candidates (doc : document) (baseUrl : string) : list candidate :=
  flat_map
    (fun el =>
       let src := JS.opt_or (attr "src" el) "" in
       let alt := lower_attr "alt" el in
       let cls := lower_attr "class" el in
       let id := lower_attr "id" el in
       let isLogo :=
         test flag_i logo_re src || test no_flags logo_re alt
         || test no_flags logo_re cls || test no_flags logo_re id in
       if isLogo && JS.truthy src
       then [{| c_url := resolveUrl baseUrl src; c_source := "img[logo]";
                c_priority := 4 |}]
       else [])
    (select [tag "img"] doc).

Definition svg_candidates (doc : document) : list candidate :=
  flat_map
    (fun el =>
       if test no_flags logo_re (lower_attr "class" el)
       then [{| c_url := None; c_source := "inline-svg"; c_priority := 5 |}]
       else [])
    (select [tag "svg"] doc).

Definition favicon_candidates (doc : document) (baseUrl : string)
  : list candidate :=
  let favicon :=
    or_opt (first_attr "href" (firstn 1 (select (link_rel "icon") doc)))
           (first_attr "href" (firstn 1 (select (link_rel "shortcut icon") doc))) in
  match favicon with
  | Some f =>
      if JS.truthy f
      then [{| c_url := resolveUrl baseUrl f; c_source := "favicon";
               c_priority := 6 |}]
      else []
  | None => []
  end.

Definition signal_candidates (doc : document) (baseUrl : string)
  : list candidate :=
  (og_candidates doc baseUrl ++ twitter_candidates doc baseUrl
   ++ touch_icon_candidates doc baseUrl ++ img_candidates doc baseUrl
   ++ svg_candidates doc ++ favicon_candidates doc baseUrl)%list.

Definition fallback_candidate (parsed : url) : candidate :=
  {| c_url := Some (origin parsed ++ "/favicon.ico");
     c_source := "favicon-fallback"; c_priority := 7 |}.

(** [function extractLogo($, baseUrl)]; the result [None] is [null]. *)
Definition extractLogo (doc : document) (baseUrl : string)
  : outcome (option candidate) :=
  let candidates := signal_candidates doc baseUrl in
  parsed <- new_URL baseUrl ;;
  let candidates := (candidates ++ [fallback_candidate parsed])%list in
  let candidates :=
    JS.sort (fun a b => (c_priority a - c_priority b)%Z) candidates in
  Return (find (fun c => truthy_opt (c_url c)) candidates).

(** *** Metadata *)

Record site_meta := {
  m_title : string;
  m_description : string;
  m_siteName : string
}.

Definition meta_content (sel : selector) (doc : document) : option string :=
  first_attr "content" (select sel doc).

(** [/^www\./] *)
Definition www_re : regex := Seqs [Bol; Lit "www."].

(** [function extractMeta($, targetUrl)] *)
Definition extractMeta (doc : document) (targetUrl : string)
  : outcome site_meta :=
  let title :=
    JS.opt_or (meta_content (meta_property "og:title") doc)
      (JS.or_else (JS.trim (first_text (firstn 1 (select [tag "title"] doc)))) "") in
  let description :=
    JS.opt_or (meta_content (meta_name "description") doc)
      (JS.opt_or (meta_content (meta_property "og:description") doc)
         (JS.opt_or (meta_content (meta_name "twitter:description") doc) "")) in
  siteName <-
    (match meta_content (meta_property "og:site_name") doc with
     | Some s =>
         if JS.truthy s then Return s
         else u <- new_URL targetUrl ;;
              Return (replace_first no_flags www_re "" (hostname u))
     | None =>
         u <- new_URL targetUrl ;;
         Return (replace_first no_flags www_re "" (hostname u))
     end) ;;
  Return {| m_title := title; m_description := description;
            m_siteName := siteName |}.

(** *** Tagline *)

Definition heroSelectors : list selector :=
  [ [any_with [AttrHas "class" "tagline"]];
    [any_with [AttrHas "class" "slogan"]];
    [any_with [AttrHas "class" "hero"]; tag "h1"];
    [any_with [AttrHas "class" "hero"]; tag "h2"];
    [any_with [AttrHas "class" "headline"]];
    [tag "header"; tag "h1"];
    [tag "header"; tag "h2"];
    [any_with [ClassIs "hero"]; tag "h1"];
    [any_with [ClassIs "hero"]; tag "h2"];
    [any_with [IdIs "hero"]; tag "h1"];
    [any_with [IdIs "hero"]; tag "h2"] ].

(** The [for (const sel of heroSelectors)] loop; [None] when it ends without
    returning. *)
Fixpoint hero_loop (doc : document) (sels : list selector) : option string :=
  match sels with
  | [] => None
  | sel :: rest =>
      let text := JS.trim (first_text (firstn 1 (select sel doc))) in
      if JS.truthy text && (4 <? String.length text)%nat
         && (String.length text <? 200)%nat
      then Some text
      else hero_loop doc rest
  end.

(** [function extractTagline($, description)] *)
Definition extractTagline (doc : document) (description : string) : string :=
  let og := JS.opt_or (meta_content (meta_property "og:description") doc) "" in
  let twitter := JS.opt_or (meta_content (meta_name "twitter:description") doc) "" in
  match hero_loop doc heroSelectors with
  | Some text => text
  | None =>
      if JS.truthy og && (String.length og <? 120)%nat then og
      else if JS.truthy twitter && (String.length twitter <? 120)%nat then twitter
      else
        let h1 := JS.trim (first_text (firstn 1 (select [tag "h1"] doc))) in
        if JS.truthy h1 && (String.length h1 <? 150)%nat then h1
        else JS.or_else (hd "" (JS.split "." description)) ""
  end.

(** *** Fonts *)

(** In the patterns quoted below, [\x22] stands for the double quote. *)

Definition dquote : ascii := ascii_of_nat 34.
Definition squote : ascii := ascii_of_nat 39.

Definition quote_cls : regex := Class false [One squote; One dquote].
Definition spaces : regex := Star (Class false [Space]).
Definition word_or_dash : regex := Class false [Word; One "-"].

(** The text of a group that took part in the match. *)
Definition group_text (i : nat) (m : result) : string :=
  match group i m with Some s => s | None => "" end.

(** [/@font-face\s*\{[^}]*font-family\s*:\s*['\x22]?([^;'\x22]+)['\x22]?/gi] *)
Definition fontFaceRegex : regex :=
  Seqs [Lit "@font-face"; spaces; Chr "{"; Star (Class true [One "}"]);
        Lit "font-family"; spaces; Chr ":"; spaces; Opt quote_cls;
        Group 1 (Plus (Class true [One ";"; One squote; One dquote]));
        Opt quote_cls].

(** [/font-family\s*:\s*([^;}{]+)/gi] *)
Definition fontFamilyRegex : regex :=
  Seqs [Lit "font-family"; spaces; Chr ":"; spaces;
        Group 1 (Plus (Class true [One ";"; One "}"; One "{"]))].

(** [/--[\w-]*font[\w-]*\s*:\s*['\x22]?([A-Za-z][^;'\x22]+)['\x22]?/gi] *)
Definition varRegex : regex :=
  Seqs [Lit "--"; Star word_or_dash; Lit "font"; Star word_or_dash; spaces;
        Chr ":"; spaces; Opt quote_cls;
        Group 1 (Seq (Class false [Range "A" "Z"; Range "a" "z"])
                     (Plus (Class true [One ";"; One squote; One dquote])));
        Opt quote_cls].

(** [.replace(/['\x22]/g, '')] *)
Definition strip_quotes (s : string) : string :=
  replace_all no_flags quote_cls "" s.

Definition generic_families : list string :=
  ["serif"; "sans-serif"; "monospace"; "cursive"; "fantasy"; "inherit";
   "initial"; "unset"].

Definition length_in_window (f : string) : bool :=
  ((1 <? String.length f) && (String.length f <? 60))%nat.

(** [function extractFontsFromCSS(cssText)]; the [Set] is returned as the
    array of its values. *)
Definition extractFontsFromCSS (cssText : string) : list string :=
  let fonts := [] in
  let fonts :=
    fold_left
      (fun fonts m => JS.set_add (strip_quotes (JS.trim (group_text 1 m))) fonts)
      (exec_all flag_i fontFaceRegex cssText) fonts in
  let fonts :=
    fold_left
      (fun fonts m =>
         let families :=
           map (fun f => strip_quotes (JS.trim f))
               (JS.split "," (group_text 1 m)) in
         fold_left
           (fun fonts f =>
              if negb (existsb (String.eqb (JS.toLowerCase f)) generic_families)
              then (if length_in_window f then JS.set_add f fonts else fonts)
              else fonts)
           families fonts)
      (exec_all flag_i fontFamilyRegex cssText) fonts in
  let fonts :=
    fold_left
      (fun fonts m =>
         let val := strip_quotes (JS.trim (group_text 1 m)) in
         if length_in_window val then JS.set_add val fonts else fonts)
      (exec_all flag_i varRegex cssText) fonts in
  fonts.

(** [/family=([^&]+)/] and [/family=([^&'\x22]+)/] *)
Definition family_re : regex :=
  Seq (Lit "family=") (Group 1 (Plus (Class true [One "&"]))).
Definition family_quoted_re : regex :=
  Seq (Lit "family=")
      (Group 1 (Plus (Class true [One "&"; One squote; One dquote]))).

(** [/fonts\.googleapis\.com\/css[^'\x22]+/g] *)
Definition import_re : regex :=
  Seq (Lit "fonts.googleapis.com/css") (Plus (Class true [One squote; One dquote])).

(** [/\+/g] *)
Definition plus_re : regex := Chr "+".

(** [entry.split(':')[0].replace(/\+/g, ' ').trim()] *)
Definition family_name (entry : string) : string :=
  JS.trim (replace_all no_flags plus_re " " (hd "" (JS.split ":" entry))).

(** [param.split('|').forEach(entry => { ...; if (name) fonts.add(name) })] *)
Definition add_families (param : string) (fonts : list string) : list string :=
  fold_left
    (fun fonts entry =>
       let name := family_name entry in
       if JS.truthy name then JS.set_add name fonts else fonts)
    (JS.split "|" param) fonts.

(** [href.match(re)?.[1]] *)
Definition first_group (re : regex) (s : string) : option string :=
  match exec no_flags re s with
  | Some m => group 1 m
  | None => None
  end.

Definition google_links : selector :=
  [tag_with "link" [AttrHas "href" "fonts.googleapis.com"]].

(** [function extractGoogleFonts($)] *)
Definition extractGoogleFonts (doc : document) : list string :=
  let fonts := [] in
  let fonts :=
    fold_left
      (fun fonts el =>
         let href := JS.opt_or (attr "href" el) "" in
         match first_group family_re href with
         | Some familyParam =>
             if JS.truthy familyParam then add_families familyParam fonts
             else fonts
         | None => fonts
         end)
      (select google_links doc) fonts in
  let fonts :=
    fold_left
      (fun fonts el =>
         fold_left
           (fun fonts m =>
              match first_group family_quoted_re (matched m) with
              | Some fp =>
                  if JS.truthy fp then add_families fp fonts else fonts
              | None => fonts
              end)
           (exec_all no_flags import_re (text el)) fonts)
      (select [tag "style"] doc) fonts in
  fonts.

Inductive font_category := Serif | SansSerif | Monospace.

Definition category_name (c : font_category) : string :=
  match c with
  | Serif => "Serif"
  | SansSerif => "Sans-Serif"
  | Monospace => "Monospace"
  end.

Record font_entry := {
  f_name : string;
  f_category : font_category;
  f_sample : string
}.

(** [/mono|code|console|courier|fira|jetbrains|hack|source code/i] *)
Definition mono_re : regex :=
  Alts [Lit "mono"; Lit "code"; Lit "console"; Lit "courier"; Lit "fira";
        Lit "jetbrains"; Lit "hack"; Lit "source code"].

(** [/serif(?!less)/i] *)
Definition serif_re : regex := Seq (Lit "serif") (NotAhead (Lit "less")).

(** [/garamond|georgia|times|playfair|merriweather|lora/i] *)
Definition serif_names_re : regex :=
  Alts [Lit "garamond"; Lit "georgia"; Lit "times"; Lit "playfair";
        Lit "merriweather"; Lit "lora"].

Definition categorize (name : string) : font_category :=
  if test flag_i mono_re name then Monospace
  else if test flag_i serif_re name || test flag_i serif_names_re name then Serif
  else SansSerif.

(** The resolved addresses of the [link rel="stylesheet"] elements: the array
    [cssUrls], whose entries may be [null]. *)
Definition cssUrls (doc : document) (baseUrl : string) : list (option string) :=
  flat_map
    (fun el =>
       match attr "href" el with
       | Some h => if JS.truthy h then [resolveUrl baseUrl h] else []
       | None => []
       end)
    (select (link_rel "stylesheet") doc).

(** [cssUrls.filter(Boolean).slice(0, 3)] *)
Definition cssToFetch (doc : document) (baseUrl : string) : list string :=
  firstn 3
    (flat_map (fun o => match o with
                        | Some u => if JS.truthy u then [u] else []
                        | None => []
                        end)
       (cssUrls doc baseUrl)).

(** The requests of a batch, numbered in the order they are issued. *)
Definition requests (mk : nat -> channel) (urls : list string)
  : list (channel * string) :=
  map (fun iu => (mk (fst iu), snd iu)) (combine (seq 0 (List.length urls)) urls).

(** [await Promise.all(urls.map(async (cssUrl) => { const text = await
    fetchCSS(cssUrl); ... }))]: the callbacks resume in the order the requests
    settle, each folding the fetched text into the shared accumulator. *)
Definition fetch_all {S : Type} (mk : nat -> channel) (urls : list string)
  (absorb : string -> S -> S) (acc : S) : outcome S :=
  let reqs := requests mk urls in
  for_each
    (fun acc i =>
       match nth_error reqs i with
       | Some (ch, cssUrl) =>
           text <- fetchCSS ch cssUrl ;; Return (absorb text acc)
       | None => Return acc
       end)
    (settle_order reqs) acc.

Definition inline_styles (doc : document) : list string :=
  map text (select [tag "style"] doc).

(** The [Set] of font names after all three sources. *)
Definition collectFonts (doc : document) (baseUrl : string)
  : outcome (list string) :=
  let fonts := [] in
  let fonts := JS.set_add_all (extractGoogleFonts doc) fonts in
  let fonts :=
    fold_left (fun fonts css => JS.set_add_all (extractFontsFromCSS css) fonts)
      (inline_styles doc) fonts in
  fetch_all FontSheet (cssToFetch doc baseUrl)
    (fun text fonts => JS.set_add_all (extractFontsFromCSS text) fonts) fonts.

(** [async function extractFonts($, baseUrl)] *)
Definition extractFonts (doc : document) (baseUrl : string)
  : outcome (list font_entry) :=
  fonts <- collectFonts doc baseUrl ;;
  let result := firstn 6 fonts in
  Return (map (fun name => {| f_name := name; f_category := categorize name;
                              f_sample := "Aa Bb Cc 123" |}) result).

(** *** Colors *)

Definition hex_cls : regex :=
  Class false [Range "0" "9"; Range "a" "f"; Range "A" "F"].
Definition not_paren : regex := Class true [One ")"].
Definition digits : regex := Plus (Class false [Digit]).
Definition digits_dots : regex := Plus (Class false [Digit; One "."]).

(** [#[0-9a-fA-F]{3,8}|rgba?\([^)]+\)|hsl[a]?\([^)]+\)] *)
Definition color_value : regex :=
  Alts [Seq (Chr "#") (Repeat 3 8 hex_cls);
        Seqs [Lit "rgb"; Opt (Chr "a"); Chr "("; Plus not_paren; Chr ")"];
        Seqs [Lit "hsl"; Opt (Class false [One "a"]); Chr "("; Plus not_paren;
              Chr ")"]].

(** [/--(NAME)\s*:\s*(VALUE)/gi], where [NAME] is
    [[\w-]*(?:color|bg|background|primary|secondary|accent|brand|text|foreground|surface|muted)[\w-]*]
    and [VALUE] is [color_value]. *)
Definition varColorRegex : regex :=
  Seqs [Lit "--";
        Group 1
          (Seqs [Star word_or_dash;
                 Alts [Lit "color"; Lit "bg"; Lit "background"; Lit "primary";
                       Lit "secondary"; Lit "accent"; Lit "brand"; Lit "text";
                       Lit "foreground"; Lit "surface"; Lit "muted"];
                 Star word_or_dash]);
        spaces; Chr ":"; spaces; Group 2 color_value].

(** [/(?:^|[{;])\s*(?:background(?:-color)?|color|border-color|fill|stroke)\s*:\s*(VALUE)/gim] *)
Definition colorPropRegex : regex :=
  Seqs [Alt Bol (Class false [One "{"; One ";"]); spaces;
        Alts [Seq (Lit "background") (Opt (Lit "-color")); Lit "color";
              Lit "border-color"; Lit "fill"; Lit "stroke"];
        spaces; Chr ":"; spaces; Group 1 color_value].

Definition channel_of (hex : string) (from to : nat) : Num.jsint :=
  Num.parseInt (JS.slice from to hex) (Some 16%Z).

(** [function isBlackOrWhite(hex)] *)
Definition isBlackOrWhite (hex : string) : bool :=
  if negb (JS.truthy hex) || (String.length hex <? 6)%nat then false
  else
    let r := Num.to_float (channel_of hex 1 3) in
    let g := Num.to_float (channel_of hex 3 5) in
    let b := Num.to_float (channel_of hex 5 7) in
    let brightness := ((r + g + b) / 3)%float in
    PrimFloat.ltb 230 brightness || PrimFloat.ltb brightness 25.

(** [function hslToHex(h, s, l)] *)
Definition hslToHex (h s l : float) : string :=
  let s := (s / 100)%float in
  let l := (l / 100)%float in
  let a := (s * Num.min l [(1 - l)%float])%float in
  let f := fun n : float =>
    let k := Num.rem (n + h / 30)%float 12 in
    let color :=
      (l - a * Num.max (Num.min (k - 3) [9 - k; 1]) [-1])%float in
    JS.padStart 2 "0" (Num.toStringRadix 16 (Num.round (255 * color)%float)) in
  JS.toUpperCase ("#" ++ f 0%float ++ f 8%float ++ f 4%float).

Definition hex6_re : regex := Seqs [Bol; Chr "#"; Repeat 6 6 hex_cls; Eol].
Definition hex3_re : regex := Seqs [Bol; Chr "#"; Repeat 3 3 hex_cls; Eol].
Definition hex8_re : regex := Seqs [Bol; Chr "#"; Repeat 8 8 hex_cls; Eol].

(** [/^rgba?\(\s*(\d+)\s*,\s*(\d+)\s*,\s*(\d+)/] *)
Definition rgb_re : regex :=
  Seqs [Bol; Lit "rgb"; Opt (Chr "a"); Chr "("; spaces; Group 1 digits; spaces;
        Chr ","; spaces; Group 2 digits; spaces; Chr ","; spaces;
        Group 3 digits].

(** [/^hsla?\(\s*([\d.]+)\s*,\s*([\d.]+)%\s*,\s*([\d.]+)%/] *)
Definition hsl_re : regex :=
  Seqs [Bol; Lit "hsl"; Opt (Chr "a"); Chr "("; spaces; Group 1 digits_dots;
        spaces; Chr ","; spaces; Group 2 digits_dots; Chr "%"; spaces; Chr ",";
        spaces; Group 3 digits_dots; Chr "%"].

Definition char_at (i : nat) (s : string) : string := JS.slice i (S i) s.

Definition hex_channel (digits : string) : string :=
  JS.padStart 2 "0" (Num.toStringRadix 16 (Num.parseInt digits None)).

(** [function normalizeColor(colorStr)]; [None] is [null]. *)
Definition normalizeColor (colorStr : string) : option string :=
  if negb (JS.truthy colorStr) then None
  else
    let colorStr := JS.trim colorStr in
    if test no_flags hex6_re colorStr then Some (JS.toUpperCase colorStr)
    else if test no_flags hex3_re colorStr then
      let r := char_at 1 colorStr in
      let g := char_at 2 colorStr in
      let b := char_at 3 colorStr in
      Some (JS.toUpperCase ("#" ++ r ++ r ++ g ++ g ++ b ++ b))
    else if test no_flags hex8_re colorStr
    then Some (JS.toUpperCase (JS.slice 0 7 colorStr))
    else
      match exec no_flags rgb_re colorStr with
      | Some rgb =>
          let r := hex_channel (group_text 1 rgb) in
          let g := hex_channel (group_text 2 rgb) in
          let b := hex_channel (group_text 3 rgb) in
          Some (JS.toUpperCase ("#" ++ r ++ g ++ b))
      | None =>
          match exec no_flags hsl_re colorStr with
          | Some hsl =>
              Some (hslToHex (Num.parseFloat (group_text 1 hsl))
                             (Num.parseFloat (group_text 2 hsl))
                             (Num.parseFloat (group_text 3 hsl)))
          | None => None
          end
      end.

(** [colorMap.set(hex, (colorMap.get(hex) || 0) + w)]; the weights are small
    integers. *)
Definition bump (hex : string) (w : Z) (colorMap : list (string * Z))
  : list (string * Z) :=
  JS.map_set hex
    (match JS.map_get hex colorMap with
     | Some n => if (n =? 0)%Z then w else (n + w)%Z
     | None => w
     end) colorMap.

Definition count_color (w : Z) (value : string) (colorMap : list (string * Z))
  : list (string * Z) :=
  match normalizeColor value with
  | Some hex =>
      if JS.truthy hex && negb (isBlackOrWhite hex) then bump hex w colorMap
      else colorMap
  | None => colorMap
  end.

(** [function extractColorsFromCSS(cssText)]; the [Map] is the list of its
    entries in insertion order. *)
Definition extractColorsFromCSS (cssText : string) : list (string * Z) :=
  let colorMap := [] in
  let colorMap :=
    fold_left (fun colorMap m => count_color 3 (group_text 2 m) colorMap)
      (exec_all flag_i varColorRegex cssText) colorMap in
  let colorMap :=
    fold_left (fun colorMap m => count_color 1 (group_text 1 m) colorMap)
      (exec_all flag_im colorPropRegex cssText) colorMap in
  colorMap.

(** [function getLuminance(hex)] *)
Definition getLuminance (hex : string) : float :=
  let r := (Num.to_float (channel_of hex 1 3) / 255)%float in
  let g := (Num.to_float (channel_of hex 3 5) / 255)%float in
  let b := (Num.to_float (channel_of hex 5 7) / 255)%float in
  (0.2126 * r + 0.7152 * g + 0.0722 * b)%float.

(** [function hexToRgb(hex)] *)
Definition hexToRgb (hex : string) : string :=
  let r := channel_of hex 1 3 in
  let g := channel_of hex 3 5 in
  let b := channel_of hex 5 7 in
  "rgb(" ++ Num.toStringRadix 10 r ++ ", " ++ Num.toStringRadix 10 g ++ ", "
  ++ Num.toStringRadix 10 b ++ ")".

Inductive color_label := Primary | Secondary | Accent.

Record color_sample := {
  hex : string;
  rgb : string;
  luminance : float;
  frequency : Z;
  label : color_label
}.

(** [map.forEach((count, hex) => colorMap.set(hex, (colorMap.get(hex) || 0) + count))] *)
Definition merge_map (map colorMap : list (string * Z)) : list (string * Z) :=
  fold_left (fun colorMap e => bump (fst e) (snd e) colorMap) map colorMap.

(** The accumulated [Map] of [extractColors], before it is ranked. *)
Definition accumulateColors (doc : document) (baseUrl : string)
  : outcome (list (string * Z)) :=
  let colorMap := [] in
  let colorMap :=
    fold_left (fun colorMap css => merge_map (extractColorsFromCSS css) colorMap)
      (inline_styles doc) colorMap in
  fetch_all ColorSheet (cssToFetch doc baseUrl)
    (fun text colorMap => merge_map (extractColorsFromCSS text) colorMap)
    colorMap.

Definition threshold_label (count : Z) : color_label :=
  if (5 <? count)%Z then Primary
  else if (2 <? count)%Z then Secondary
  else Accent.

Definition to_sample (e : string * Z) : color_sample :=
  {| hex := fst e; rgb := hexToRgb (fst e); luminance := getLuminance (fst e);
     frequency := snd e; label := threshold_label (snd e) |}.

Definition set_label (l : color_label) (c : color_sample) : color_sample :=
  {| hex := hex c; rgb := rgb c; luminance := luminance c;
     frequency := frequency c; label := l |}.

(** [if (sorted[i]) sorted[i].label = l] *)
Fixpoint relabel (i : nat) (l : color_label) (sorted : list color_sample)
  : list color_sample :=
  match sorted, i with
  | [], _ => []
  | c :: r, O => set_label l c :: r
  | c :: r, S i' => c :: relabel i' l r
  end.

(** The ranking part of [extractColors]: sort, cut, label, relabel. *)
Definition rankColors (colorMap : list (string * Z)) : list color_sample :=
  let sorted :=
    map to_sample
      (firstn 8 (JS.sort (fun a b => (snd b - snd a)%Z) colorMap)) in
  let sorted := relabel 0 Primary sorted in
  let sorted := relabel 1 Secondary sorted in
  let sorted := relabel 2 Accent sorted in
  sorted.

(** [async function extractColors($, baseUrl)] *)
Definition extractColors (doc : document) (baseUrl : string)
  : outcome (list color_sample) :=
  colorMap <- accumulateColors doc baseUrl ;;
  Return (rankColors colorMap).

(** *** The [/api/analyze] route *)

Record analysis_result := {
  r_url : string;
  r_siteName : string;
  r_title : string;
  r_description : string;
  r_tagline : string;
  r_logo : option candidate;
  r_fonts : list font_entry;
  r_colors : list color_sample;
  r_scrapedAt : string
}.

Inductive response_body :=
| ErrorBody (error : string)
| ResultBody (result : analysis_result) (cached : bool).

Record response := { status : Z; body : response_body }.

(** The cache keeps each record with the instant it expires (TTL 300 s). *)
Definition cache := list (string * (analysis_result * Z)).

Definition cache_get (now : Z) (key : string) (c : cache)
  : option analysis_result :=
  match JS.map_get key c with
  | Some (r, expires) => if (expires <? now)%Z then None else Some r
  | None => None
  end.

Definition cache_set (now : Z) (key : string) (r : analysis_result) (c : cache)
  : cache :=
  JS.map_set key (r, (now + 300 * 1000)%Z) c.

(** The readings of the clock during one request. *)
Record clock := { at_lookup : Z; at_store : Z; iso_stamp : string }.

Definition code_is (err : js_error) (c : string) : bool :=
  match err_code err with Some x => String.eqb x c | None => false end.

Definition status_is (err : js_error) (n : Z) : bool :=
  match err_status err with Some x => (x =? n)%Z | None => false end.

(** The [catch (err)] block of the route. *)
Definition handle_error (err : js_error) : response :=
  if status_is err 403 || status_is err 401 then
    {| status := 403;
       body := ErrorBody "Site blocked automated access (403/401). Try a different URL." |}
  else if code_is err "ECONNREFUSED" || code_is err "ENOTFOUND" then
    {| status := 404;
       body := ErrorBody "Could not reach the website. Check the URL and try again." |}
  else if code_is err "ETIMEDOUT"
          || match err_message err with
             | Some m => JS.includes "timeout" m
             | None => false
             end then
    {| status := 408;
       body := ErrorBody "Request timed out. The site may be too slow or blocking bots." |}
  else
    {| status := 500;
       body := ErrorBody ("Failed to analyze site. "
                          ++ JS.opt_or (err_message err) "") |}.

Definition system_default : font_entry :=
  {| f_name := "System Default"; f_category := SansSerif;
     f_sample := "Aa Bb Cc 123" |}.

(** The [try] block of the route, up to the assembled record. *)
Definition assemble (clk : clock) (targetUrl : string) : outcome analysis_result :=
  html <- fetchPage targetUrl ;;
  let doc := cheerio_load html in
  fonts <- extractFonts doc targetUrl ;;
  colors <- extractColors doc targetUrl ;;
  meta <- extractMeta doc targetUrl ;;
  logo <- extractLogo doc targetUrl ;;
  let tagline := extractTagline doc (m_description meta) in
  Return
    {| r_url := targetUrl;
       r_siteName := m_siteName meta;
       r_title := m_title meta;
       r_description := JS.or_else (m_description meta) "No description found.";
       r_tagline :=
         JS.or_else tagline
           (JS.or_else (hd "" (JS.split "." (m_description meta))) "");
       r_logo := logo;
       r_fonts := match fonts with [] => [system_default] | _ => fonts end;
       r_colors := colors;
       r_scrapedAt := iso_stamp clk |}.

(** [app.post('/api/analyze', ...)]: the response and the cache afterwards.
    [rawUrl] is the [url] field of the request body, when present.  (The
    dash of the second message is U+2014 in the source.) *)
Definition analyze (clk : clock) (c : cache) (rawUrl : option string)
  : response * cache :=
  if negb (truthy_opt rawUrl) then
    ({| status := 400; body := ErrorBody "URL is required" |}, c)
  else
    match normalizeUrl (JS.opt_or rawUrl "") with
    | Throw _ =>
        ({| status := 400;
            body := ErrorBody "Invalid URL - please include a valid domain." |}, c)
    | Return targetUrl =>
        match cache_get (at_lookup clk) targetUrl c with
        | Some cached => ({| status := 200; body := ResultBody cached true |}, c)
        | None =>
            match assemble clk targetUrl with
            | Return result =>
                ({| status := 200; body := ResultBody result false |},
                 cache_set (at_store clk) targetUrl result c)
            | Throw err => (handle_error err, c)
            end
        end
    end.

End Analyzer.

(** ** Vocabulary of the specification *)

(** The error kinds of the specification, and the kind a response of the
    route reports (the route distinguishes them by status). *)
Inductive error_kind :=
| InvalidURL
| AccessBlocked
| HostUnreachable
| Timeout
| FetchFailed.

Definition reported_kind (r : response) : option error_kind :=
  match body r with
  | ResultBody _ _ => None
  | ErrorBody _ =>
      if (status r =? 400)%Z then Some InvalidURL
      else if (status r =? 403)%Z then Some AccessBlocked
      else if (status r =? 404)%Z then Some HostUnreachable
      else if (status r =? 408)%Z then Some Timeout
      else Some FetchFailed
  end.

(** ** Properties assumed of the platform *)

(** What the URL standard gives: a serialised URL parses again to the same
    record, is never empty, carries no surrounding white space, and keeps an
    [http]/[https] scheme of its input in the form [http://] or [https://]. *)
Class UrlLaws (U : UrlApi) : Prop := {
  href_reparses :
    forall s b u, url_parse s b = Some u -> url_parse (href u) None = Some u;
  href_truthy :
    forall s b u, url_parse s b = Some u -> JS.truthy (href u) = true;
  href_trimmed :
    forall s b u, url_parse s b = Some u -> JS.trim (href u) = href u;
  href_special :
    forall s u, url_parse s None = Some u ->
      Regex.test Regex.flag_i scheme_re s = true ->
      exists rest, href u = "http://" ++ rest \/ href u = "https://" ++ rest
}.

(** Every request of a batch settles exactly once. *)
Class NetworkLaws (N : Network) : Prop := {
  settles_all :
    forall reqs, Permutation (settle_order reqs) (seq 0 (List.length reqs))
}.

(** ** Reference implementations of the interfaces

    They serve to evaluate the analyzer on concrete pages. *)

(** A URL parser for plain [http] and [https] addresses: a lower-case scheme,
    a host of dot-separated labels that start with a letter, and a path of
    unreserved characters without dot segments.  On these it returns what the
    URL standard prescribes; it rejects every other input, also inputs the
    standard accepts. *)
Module PlainUrl.

Definition host_char (c : ascii) : bool :=
  JS.is_lower c || JS.is_digit c || Ascii.eqb c "-".

Fixpoint labels_ok (at_start : bool) (s : string) : bool :=
  match s with
  | EmptyString => negb at_start
  | String c r =>
      if at_start then JS.is_lower c && labels_ok false r
      else if Ascii.eqb c "." then labels_ok true r
      else host_char c && labels_ok false r
  end.

Definition host_ok (h : string) : bool :=
  labels_ok true h && negb (JS.includes "xn--" h).

Definition path_char (c : ascii) : bool :=
  JS.is_alpha c || JS.is_digit c || Ascii.eqb c "/" || Ascii.eqb c "-"
  || Ascii.eqb c "_" || Ascii.eqb c "." || Ascii.eqb c "~".

Definition path_ok (p : string) : bool :=
  match p with
  | EmptyString => true
  | String c _ => Ascii.eqb c "/"
  end && JS.all_chars path_char p && negb (JS.includes "/." p).

Fixpoint break_at_slash (s : string) : string * string :=
  match s with
  | EmptyString => ("", "")
  | String c r =>
      if Ascii.eqb c "/" then ("", s)
      else let (h, p) := break_at_slash r in (String c h, p)
  end.

Definition strip_scheme (s : string) : option (string * string) :=
  if JS.startsWith "https://" s then Some ("https", JS.drop 8 s)
  else if JS.startsWith "http://" s then Some ("http", JS.drop 7 s)
  else None.

Definition parse_absolute (s : string) : option url :=
  match strip_scheme s with
  | Some (scheme, rest) =>
      let (host, path) := break_at_slash rest in
      if host_ok host && path_ok path then
        Some {| href := scheme ++ "://" ++ host
                        ++ (if JS.truthy path then path else "/");
                origin := scheme ++ "://" ++ host;
                hostname := host |}
      else None
  | None => None
  end.

(** The prefix of a string up to and including its last slash. *)
Fixpoint dir_of (s : string) : option string :=
  match s with
  | EmptyString => None
  | String c r =>
      match dir_of r with
      | Some d => Some (String c d)
      | None => if Ascii.eqb c "/" then Some "/" else None
      end
  end.

Definition scheme_of (u : url) : string :=
  if JS.startsWith "https" (href u) then "https" else "http".

Definition parse (input : string) (base : option string) : option url :=
  match base with
  | None => parse_absolute input
  | Some b =>
      match parse_absolute b with
      | None => None
      | Some bu =>
          match parse_absolute input with
          | Some u => Some u
          | None =>
              if JS.startsWith "//" input
              then parse_absolute (scheme_of bu ++ ":" ++ input)
              else if JS.startsWith "/" input
              then parse_absolute (origin bu ++ input)
              else if JS.truthy input && JS.all_chars path_char input
              then match dir_of (href bu) with
                   | Some d => parse_absolute (d ++ input)
                   | None => None
                   end
              else None
          end
      end
  end.

End PlainUrl.

Definition plain_url : UrlApi := {| url_parse := PlainUrl.parse |}.

Definition not_found : js_error :=
  {| err_status := None; err_code := Some "ENOTFOUND";
     err_message := Some "getaddrinfo ENOTFOUND" |}.

Definition http_error (code : Z) : js_error :=
  {| err_status := Some code; err_code := Some "ERR_BAD_REQUEST";
     err_message := Some "Request failed" |}.

(** A network that serves a fixed table of addresses, fails on every other
    request, and settles each batch in the order of issue. *)
Definition served (site : list (string * outcome string)) : Network :=
  {| axios_get := fun _ address _ =>
       match JS.map_get address site with
       | Some r => r
       | None => Throw not_found
       end;
     settle_order := fun reqs => seq 0 (List.length reqs) |}.

(** A parser that yields one given document. *)
Definition parsed_as (doc : Dom.document) : Markup :=
  {| cheerio_load := fun _ => doc |}.

(** ** Vocabulary of the claims *)

Definition is_upper_hex (c : ascii) : bool :=
  JS.is_digit c || JS.between 65 70 c.

(** A [#] followed by exactly six upper-case hexadecimal digits. *)
Definition is_hex6 (s : string) : bool :=
  match s with
  | String "#" r => (String.length r =? 6)%nat && JS.all_chars is_upper_hex r
  | _ => false
  end.

(** The pair a colour sample was built from. *)
Definition entry_of (c : color_sample) : string * Z := (hex c, frequency c).

(** The label the claim gives to the entry at a rank (counted from 0): the
    forced label at the first three ranks, and from the fourth on the label
    of the first pass, Primary for a weight above 5, Secondary for a weight
    above 2, Accent otherwise. *)
Definition expected_label (rank : nat) (count : Z) : color_label :=
  match rank with
  | 0 => Primary
  | 1 => Secondary
  | 2 => Accent
  | _ =>
      if (count >? 5)%Z then Primary
      else if (count >? 2)%Z then Secondary
      else Accent
  end.

(** The tagline chain as a table of rules tried in order.  Each rule offers a
    text and a test; the first rule whose text is not empty and passes its
    test wins, and the part of the description before its first period is the
    last resort. *)
Definition trimmed_text (sel : Dom.selector) (doc : Dom.document) : string :=
  JS.trim (Dom.first_text (firstn 1 (Dom.select sel doc))).

Definition keep_if (ok : string -> bool) (t : string) : option string :=
  if JS.truthy t && ok t then Some t else None.

Fixpoint first_some {A : Type} (l : list (option A)) : option A :=
  match l with
  | [] => None
  | Some a :: _ => Some a
  | None :: r => first_some r
  end.

Definition shorter_than (n : nat) (t : string) : bool :=
  (String.length t <? n)%nat.

(** The part of a string before the first occurrence of a character; the
    whole string when there is none. *)
Fixpoint before_char (sep : ascii) (s : string) : string :=
  match s with
  | EmptyString => EmptyString
  | String c r => if Ascii.eqb c sep then EmptyString
                  else String c (before_char sep r)
  end.

Definition before_first_period (s : string) : string := before_char "." s.

(** Every [+] replaced by a space. *)
Definition plus_to_space (s : string) : string :=
  JS.map_string (fun c => if Ascii.eqb c "+" then " "%char else c) s.

Definition tagline_rules (acceptable : string -> bool) (doc : Dom.document)
  : list (option string) :=
  (map (fun sel => keep_if acceptable (trimmed_text sel doc)) heroSelectors
   ++ [ keep_if (shorter_than 120)
          (JS.opt_or (meta_content (meta_property "og:description") doc) "");
        keep_if (shorter_than 120)
          (JS.opt_or (meta_content (meta_name "twitter:description") doc) "");
        keep_if (shorter_than 150) (trimmed_text [Dom.tag "h1"] doc) ])%list.

Definition tagline_by_rules (acceptable : string -> bool) (doc : Dom.document)
  (description : string) : string :=
  match first_some (tagline_rules acceptable doc) with
  | Some t => t
  | None => before_first_period description
  end.

(** The window of the claim, 4 to 200 characters, and the window of the
    code, which excludes both ends and everything shorter than 5. *)
Definition length_4_to_200 (t : string) : bool :=
  ((4 <=? String.length t) && (String.length t <=? 200))%nat.

Definition length_5_to_199 (t : string) : bool :=
  ((5 <=? String.length t) && (String.length t <=? 199))%nat.

(** A page around the given body content. *)
Definition page (head body : list Dom.node) : Dom.document :=
  [Dom.Element "html" []
     [Dom.Element "head" [] head; Dom.Element "body" [] body]].

(** [<div class="hero"><h1>Build Better</h1></div>] *)
Definition hero_page : Dom.document :=
  page [] [Dom.Element "div" [("class", "hero")]
             [Dom.Element "h1" [] [Dom.Text "Build Better"]]].

(** [<p class="tagline">Home</p>] *)
Definition short_tagline_page : Dom.document :=
  page [] [Dom.Element "p" [("class", "tagline")] [Dom.Text "Home"]].

(** [err.message?.includes('timeout')] *)
Definition has_timeout_message (err : js_error) : bool :=
  match err_message err with
  | Some m => JS.includes "timeout" m
  | None => false
  end.

Definition noon : clock :=
  {| at_lookup := 0; at_store := 1; iso_stamp := "2024-01-01T12:00:00.000Z" |}.

(** The document holds an [og:image] meta element with a content that is not
    empty. *)
Definition has_og_image (doc : Dom.document) : Prop :=
  exists el v,
    In el (Dom.select (meta_property "og:image") doc)
    /\ Dom.attr "content" el = Some v /\ v <> "".

(** The tests of the source on an [img] and on an [svg] element. *)
Definition is_logo_img (el : Dom.node) : bool :=
  Regex.test Regex.flag_i logo_re (JS.opt_or (Dom.attr "src" el) "")
  || Regex.test Regex.no_flags logo_re (lower_attr "alt" el)
  || Regex.test Regex.no_flags logo_re (lower_attr "class" el)
  || Regex.test Regex.no_flags logo_re (lower_attr "id" el).

Definition is_logo_svg (el : Dom.node) : bool :=
  Regex.test Regex.no_flags logo_re (lower_attr "class" el).

(** A page without any logo signal: none of the meta and link elements the
    extractor looks at, no image named after a logo, no such inline graphic. *)
Definition no_logo_signals (doc : Dom.document) : Prop :=
  Dom.select (meta_property "og:image") doc = []
  /\ Dom.select (meta_name "twitter:image") doc = []
  /\ Dom.select (link_rel "apple-touch-icon") doc = []
  /\ Forall (fun el => is_logo_img el = false) (Dom.select [Dom.tag "img"] doc)
  /\ Forall (fun el => is_logo_svg el = false) (Dom.select [Dom.tag "svg"] doc)
  /\ Dom.select (link_rel "icon") doc = []
  /\ Dom.select (link_rel "shortcut icon") doc = [].

Definition by_priority (a b : candidate) : Z := (c_priority a - c_priority b)%Z.

Definition meta_tag (key value content : string) : Dom.node :=
  Dom.Element "meta" [(key, value); ("content", content)] [].

(** A page whose [og:image] does not resolve. *)
Definition broken_og_page : Dom.document :=
  page [meta_tag "property" "og:image" "http://"] [].

(** A page whose first [og:image] element has no content; the second has. *)
Definition double_og_page : Dom.document :=
  page [Dom.Element "meta" [("property", "og:image")] [];
        meta_tag "property" "og:image" "https://example.com/brand.png"] [].

(** A page with every kind of logo signal. *)
Definition branded_page : Dom.document :=
  page [meta_tag "name" "twitter:image" "/card.png";
        meta_tag "property" "og:image" "/brand.png";
        Dom.Element "link" [("rel", "apple-touch-icon"); ("href", "/touch.png")] [];
        Dom.Element "link" [("rel", "icon"); ("href", "/icon.png")] []]
       [Dom.Element "img" [("src", "/img/site-logo.png"); ("alt", "Acme")] [];
        Dom.Element "svg" [("class", "Logo")] []].

(** A page with text only. *)
Definition bare_page : Dom.document :=
  page [Dom.Element "title" [] [Dom.Text "Acme"]]
       [Dom.Element "p" [] [Dom.Text "Welcome."];
        Dom.Element "img" [("src", "/img/team.jpg"); ("alt", "The team")] []].

Definition not_space (c : ascii) : bool := negb (JS.is_space c).

(** A candidate's address is [null] or a string that is not empty, so the
    truthiness test of the source selects the addresses that are not [null]. *)
Definition url_sound (c : candidate) : Prop :=
  c_url c = None \/ exists h, c_url c = Some h /\ JS.truthy h = true.

(** Every [family=] value of an address, in order. *)
Definition family_values (address : string) : list string :=
  map (group_text 1) (Regex.exec_all Regex.no_flags family_re address).

Definition google_link (address : string) : Dom.node :=
  Dom.Element "link" [("href", address)] [].

(** [<link href="https://fonts.googleapis.com/css?family=Roboto:400,700|Open+Sans">] *)
Definition roboto_page : Dom.document :=
  page [google_link "https://fonts.googleapis.com/css?family=Roboto:400,700|Open+Sans"] [].

(** A link of the [css2] form, with one [family=] parameter per family. *)
Definition css2_page : Dom.document :=
  page [google_link "https://fonts.googleapis.com/css2?family=Roboto&family=Lora"] [].

Definition sans (name : string) : font_entry :=
  {| f_name := name; f_category := SansSerif; f_sample := "Aa Bb Cc 123" |}.

(** What a style-sheet request contributes: its body when it succeeds,
    nothing when it fails. *)
Definition sheet_text `{Network} (ch : channel) (address : string) : string :=
  match axios_get ch address css_config with
  | Return data => data
  | Throw _ => ""
  end.

(** The effect of one settled request of a batch on the accumulator. *)
Definition settle_step `{Network} {S : Type} (reqs : list (channel * string))
  (absorb : string -> S -> S) (acc : S) (i : nat) : S :=
  match nth_error reqs i with
  | Some (ch, address) => absorb (sheet_text ch address) acc
  | None => acc
  end.

(** The elements of a document, in document order. *)
Fixpoint elements_in (n : Dom.node) : list Dom.node :=
  match n with
  | Dom.Text _ => []
  | Dom.Element _ _ cs => n :: flat_map elements_in cs
  end.

Definition elements (doc : Dom.document) : list Dom.node :=
  flat_map elements_in doc.

Definition tag_of (n : Dom.node) : string :=
  match n with
  | Dom.Element t _ _ => t
  | Dom.Text _ => ""
  end.

(** A selector without combinator against a node. *)
Definition element_holds (s : Dom.simple) (n : Dom.node) : bool :=
  match n with
  | Dom.Element t a _ => Dom.simple_holds s (t, a)
  | Dom.Text _ => false
  end.

(** The inline style blocks of a page: the texts of its [style] elements, in
    document order. *)
Definition style_blocks (doc : Dom.document) : list string :=
  map Dom.text (filter (fun el => String.eqb (tag_of el) "style") (elements doc)).

(** A [link] element that names a style sheet: its [rel] attribute reads
    [stylesheet], in any case of the letters. *)
Definition is_stylesheet_link (el : Dom.node) : bool :=
  String.eqb (tag_of el) "link"
  && match Dom.attr "rel" el with
     | Some r => String.eqb (JS.toLowerCase r) "stylesheet"
     | None => false
     end.

(** The address a style sheet link leads to, when it has one: its [href],
    when it is not empty, resolved against the address of the page, when it
    resolves (and to a text that is not empty). *)
Definition sheet_address `{UrlApi} (baseUrl : string) (el : Dom.node)
  : option string :=
  match Dom.attr "href" el with
  | Some h =>
      if String.eqb h "" then None
      else match url_parse h (Some baseUrl) with
           | Some u => if String.eqb (href u) "" then None else Some (href u)
           | None => None
           end
  | None => None
  end.

Fixpoint somes {A : Type} (l : list (option A)) : list A :=
  match l with
  | [] => []
  | Some a :: r => a :: somes r
  | None :: r => somes r
  end.

(** The external style sheets of a page, up to three: the addresses of its
    first three style sheet links that lead somewhere. *)
Definition linked_sheets `{UrlApi} (doc : Dom.document) (baseUrl : string)
  : list string :=
  firstn 3
    (somes (map (sheet_address baseUrl)
              (filter is_stylesheet_link (elements doc)))).

(** A font is in the result unless the result is full. *)
Definition font_kept (f : string) (fonts : list font_entry) : Prop :=
  In f (map f_name fonts) \/ List.length fonts = 6%nat.

(** A colour is in the result with at least a given weight, unless the
    result is full of colours of at least that weight. *)
Definition color_kept (hex' : string) (w : Z) (colors : list color_sample)
  : Prop :=
  (exists c, In c colors /\ hex c = hex' /\ (w <= frequency c)%Z)
  \/ (List.length colors = 8%nat
      /\ Forall (fun c => (w <= frequency c)%Z) colors).

(** The network in which every failing style-sheet request answers with an
    empty body instead. *)
Definition recovered (N : Network) : Network :=
  {| axios_get := fun ch address cfg =>
       match ch, @axios_get N ch address cfg with
       | PageRequest, r => r
       | _, Return data => Return data
       | _, Throw _ => Return ""
       end;
     settle_order := @settle_order N |}.

(** The weight a map gives to a colour; 0 when the colour is absent. *)
Definition weight (hex : string) (m : list (string * Z)) : Z :=
  match JS.map_get hex m with Some n => n | None => 0%Z end.

Definition positive_map (m : list (string * Z)) : Prop :=
  Forall (fun e => (0 < snd e)%Z) m.

Definition to_entry (name : string) : font_entry :=
  {| f_name := name; f_category := categorize name;
     f_sample := "Aa Bb Cc 123" |}.

(** A page with an inline style block and two external style sheets. *)
Definition styled_page : Dom.document :=
  page [Dom.Element "link" [("rel", "stylesheet"); ("href", "/a.css")] [];
        Dom.Element "link" [("rel", "stylesheet"); ("href", "/b.css")] [];
        Dom.Element "style" []
          [Dom.Text "body{font-family: Lora, serif; color: #336699}"]]
       [].

(** A site whose page loads, whose first style sheet fails and whose second
    one loads. *)
Definition flaky_site : Network :=
  served
    [("https://example.com/", Return "<html>");
     ("https://example.com/a.css", Throw (http_error 500));
     ("https://example.com/b.css",
      Return "h1{font-family:'Fira Code';background:#336699;--brand-color: rgb(10,200,30)}")].

(** A page whose links spell [rel] in capitals. *)
Definition capitals_page : Dom.document :=
  page [Dom.Element "link" [("rel", "ICON"); ("href", "/icon.png")] [];
        Dom.Element "link" [("rel", "StyleSheet"); ("href", "/a.css")] [];
        Dom.Element "link" [("rel", "stylesheet"); ("href", "/b.css")] []]
       [].

Definition capitals_site : Network :=
  served
    [("https://example.com/", Return "<html>");
     ("https://example.com/a.css", Return "h1{font-family: Oswald; color: #336699}");
     ("https://example.com/b.css", Return "p{font-family: Karla}")].

(** A page whose inline style block names five fonts, with two external
    style sheets. *)
Definition crowded_page : Dom.document :=
  page [Dom.Element "style" []
          [Dom.Text "body{font-family: Inter, Roboto, Lato, Nunito, Poppins}"];
        Dom.Element "link" [("rel", "stylesheet"); ("href", "/a.css")] [];
        Dom.Element "link" [("rel", "stylesheet"); ("href", "/b.css")] []]
       [].

Definition b_css : string := "h1{font-family: Oswald} p{font-family: Karla}".

(** The site of that page when its first style sheet loads, and when it
    fails. *)
Definition crowded_site : Network :=
  served
    [("https://example.com/", Return "<html>");
     ("https://example.com/a.css", Return "p{font-family: Karla}");
     ("https://example.com/b.css", Return b_css)].

Definition crowded_flaky_site : Network :=
  served
    [("https://example.com/", Return "<html>");
     ("https://example.com/a.css", Throw (http_error 500));
     ("https://example.com/b.css", Return b_css)].

(** Failures of the name lookup and of the connection that carry none of the
    codes the route tests for. *)
Definition dns_try_again : js_error :=
  {| err_status := None; err_code := Some "EAI_AGAIN";
     err_message := Some "getaddrinfo EAI_AGAIN example.com" |}.

Definition connection_reset : js_error :=
  {| err_status := None; err_code := Some "ECONNRESET";
     err_message := Some "read ECONNRESET" |}.

(** A pattern that cannot match the empty string, by its shape. *)
Fixpoint consumes (r : Regex.regex) : bool :=
  match r with
  | Regex.Chr _ | Regex.Class _ _ => true
  | Regex.Seq r1 r2 => consumes r1 || consumes r2
  | Regex.Alt r1 r2 => consumes r1 && consumes r2
  | Regex.Group _ r1 => consumes r1
  | _ => false
  end.

(** The end of the input, as a position, seen from a match state. *)
Definition input_end (st : Regex.mstate) : nat :=
  (Regex.m_pos st + String.length (Regex.m_rest st))%nat.

(** The patterns the source enumerates with the [g] flag. *)
Definition enumerated_patterns : list Regex.regex :=
  [fontFaceRegex; fontFamilyRegex; varRegex; quote_cls; import_re; plus_re;
   varColorRegex; colorPropRegex].

(** The other reading of the hero rule: among all the elements a selector
    matches, the first whose trimmed text is acceptable. *)
Definition first_acceptable (acceptable : string -> bool)
  (doc : Dom.document) (sel : Dom.selector) : option string :=
  first_some
    (map (fun el => keep_if acceptable (JS.trim (Dom.text el)))
       (Dom.select sel doc)).

(** Two tagline elements, the first of them empty. *)
Definition two_taglines_page : Dom.document :=
  page [] [Dom.Element "p" [("class", "tagline")] [];
           Dom.Element "p" [("class", "tagline")]
             [Dom.Text "Great products here"]].

(** The hero page with a short [og:description] in its head. *)
Definition hero_page_with_og : Dom.document :=
  page [meta_tag "property" "og:description" "Tools for builders"]
       [Dom.Element "div" [("class", "hero")]
          [Dom.Element "h1" [] [Dom.Text "Build Better"]]].

(** * The assets endpoint: a shallow embedding of [api/fetch-assets.js]

    The endpoint relies on two more platform pieces, both interfaces: [fetch],
    whose response carries a status and a body that is read in a second step,
    and the document of the markup library it uses, which is queried by
    selector and read through the properties of its elements. *)

(** What the handler reads of a response: [response.status] and
    [await response.text()]. *)
Record fetched := { f_status : Z; f_text : outcome string }.

Class Fetch := { fetch : string -> outcome fetched }.

(** [response.ok] *)
Definition ok (response : fetched) : bool :=
  ((200 <=? f_status response) && (f_status response <? 300))%Z.

(** The document and its elements: [new JSDOM(html).window.document],
    [document.querySelector(sel)] (the result [None] is [null]), and the
    properties [textContent], [href] and [content] of an element ([None] is
    [null] or [undefined]). *)
Class Jsdom := {
  jdocument : Type;
  jelement : Type;
  new_JSDOM : string -> outcome jdocument;
  querySelector : jdocument -> Dom.selector -> option jelement;
  textContent : jelement -> option string;
  href_of : jelement -> option string;
  content_of : jelement -> option string
}.

Record assets := {
  a_url : string;
  a_title : option string;
  a_favicon : option string;
  a_ogImage : option string
}.

Inductive assets_body :=
| AssetsError (error : string)
| AssetsFound (found : assets).

Record assets_response := { a_status : Z; a_body : assets_body }.

(** [el?.prop] *)
Definition prop_of {E : Type} (prop : E -> option string) (el : option E)
  : option string :=
  match el with Some e => prop e | None => None end.

(** [a || null] on a value that is a string, [null] or [undefined]. *)
Definition or_null (a : option string) : option string :=
  if truthy_opt a then a else None.

(** [if (!/^https?:\/\//i.test(url)) url = 'https://' + url] *)
Definition ensure_protocol (url : string) : string :=
  if negb (Regex.test Regex.flag_i scheme_re url) then "https://" ++ url
  else url.

Section Assets.

Context {U : UrlApi} {F : Fetch} {J : Jsdom}.

(** The [try] block of the handler. *)
Definition fetch_assets_try (url : string) : outcome assets_response :=
  response <- fetch url ;;
  if negb (ok response) then
    Return {| a_status := 500;
              a_body := AssetsError ("Failed to fetch website: "
                                     ++ Num.toStringRadix 10
                                          (Num.Int (f_status response))) |}
  else
    html <- f_text response ;;
    document <- new_JSDOM html ;;
    let title :=
      or_null (prop_of textContent (querySelector document [Dom.tag "title"])) in
    let favicon :=
      or_null
        (or_opt (prop_of href_of (querySelector document (link_rel "icon")))
                (prop_of href_of
                   (querySelector document (link_rel "shortcut icon")))) in
    favicon <-
      (match favicon with
       | Some f =>
           if JS.truthy f && JS.startsWith "/" f then
             parsed <- new_URL url ;;
             let baseUrl := origin parsed in
             Return (Some (baseUrl ++ f))
           else Return favicon
       | None => Return favicon
       end) ;;
    let ogImage :=
      or_null (prop_of content_of
                 (querySelector document (meta_property "og:image"))) in
    Return {| a_status := 200;
              a_body := AssetsFound {| a_url := url; a_title := title;
                                       a_favicon := favicon;
                                       a_ogImage := ogImage |} |}.

(** [export default async function handler(req, res)]; [query_url] is
    [req.query.url] when the request carries one [url] parameter. *)
Definition fetch_assets (query_url : option string) : assets_response :=
  if negb (truthy_opt query_url) then
    {| a_status := 400; a_body := AssetsError "Missing URL parameter" |}
  else
    let url := ensure_protocol (JS.opt_or query_url "") in
    match fetch_assets_try url with
    | Return answer => answer
    | Throw _ =>
        {| a_status := 500;
           a_body := AssetsError "Failed to fetch or parse website" |}
    end.

End Assets.

(** Reference implementations: a [fetch] that serves a fixed table, and a
    document library that reads the markup model. *)
Definition fetching (site : list (string * outcome fetched)) : Fetch :=
  {| fetch := fun address =>
       match JS.map_get address site with
       | Some r => r
       | None => Throw not_found
       end |}.

Definition jsdom_of (doc : Dom.document) : Jsdom :=
  {| jdocument := Dom.document;
     jelement := Dom.node;
     new_JSDOM := fun _ => Return doc;
     querySelector := fun d sel => hd_error (Dom.select sel d);
     textContent := fun el => Some (Dom.text el);
     href_of := Dom.attr "href";
     content_of := Dom.attr "content" |}.

(** * Further vocabulary *)

(** ** Texts *)

(** Every character that passes a test replaced by a text. *)
Fixpoint subst_chars (p : ascii -> bool) (by_ : string) (s : string) : string :=
  match s with
  | EmptyString => EmptyString
  | String c r =>
      if p c then by_ ++ subst_chars p by_ r
      else String c (subst_chars p by_ r)
  end.

Definition is_quote (c : ascii) : bool :=
  Ascii.eqb c squote || Ascii.eqb c dquote.

(** A text without its quote characters. *)
Definition without_quotes (s : string) : string := subst_chars is_quote "" s.

Definition quote_free (s : string) : bool :=
  JS.all_chars (fun c => negb (is_quote c)) s.

(** A host name without one leading [www.]. *)
Definition strip_www (host : string) : string :=
  if JS.startsWith "www." host then JS.drop 4 host else host.

(** The first of several optional texts that is present and not empty; the
    empty text when there is none. *)
Fixpoint first_truthy (l : list (option string)) : string :=
  match l with
  | [] => ""
  | Some s :: r => if JS.truthy s then s else first_truthy r
  | None :: r => first_truthy r
  end.

(** The characters a family name cannot hold: the separators of a [family=]
    value and the [+] that stands for a space. *)
Definition family_char (c : ascii) : bool :=
  negb (Ascii.eqb c "+" || Ascii.eqb c ":" || Ascii.eqb c "|").

(** A family name as [extractGoogleFonts] leaves it: not empty, trimmed,
    free of those characters. *)
Definition family_shaped (n : string) : Prop :=
  n <> "" /\ JS.trim n = n /\ JS.all_chars family_char n = true.

(** Lower-casing of the ASCII letters: the folding the [i] flag applies
    between an ASCII pattern and its input. *)
Definition lower_ascii_char (c : ascii) : ascii :=
  if JS.is_upper c then JS.shift_code 32 c else c.

Definition lower_ascii (s : string) : string := JS.map_string lower_ascii_char s.

(** A test that holds of a text or of one of its suffixes. *)
Fixpoint anywhere (p : string -> bool) (s : string) : bool :=
  p s || match s with
         | EmptyString => false
         | String _ r => anywhere p r
         end.

(** A character of a keyword: a lower-case letter or a space. *)
Definition keyword_char (c : ascii) : bool := JS.is_lower c || Ascii.eqb c " ".

Definition mono_words : list string :=
  ["mono"; "code"; "console"; "courier"; "fira"; "jetbrains"; "hack";
   "source code"].

Definition serif_words : list string :=
  ["garamond"; "georgia"; "times"; "playfair"; "merriweather"; "lora"].

(** The text starts with [serif], and [less] does not follow. *)
Definition serif_not_less (t : string) : bool :=
  JS.startsWith "serif" t && negb (JS.startsWith "less" (JS.drop 5 t)).

(** The category of a font by the keywords its lower-cased name holds. *)
Definition categorize_by_words (name : string) : font_category :=
  let n := lower_ascii name in
  if existsb (fun w => JS.includes w n) mono_words then Monospace
  else if anywhere serif_not_less n
          || existsb (fun w => JS.includes w n) serif_words
  then Serif
  else SansSerif.

Definition all_ascii : list ascii := map ascii_of_nat (seq 0 256).

(** On a keyword character the comparison of the [i] flag is the comparison
    with the lower-cased input character. *)
Definition fold_agrees (c d : ascii) : bool :=
  implb (keyword_char c)
    (Bool.eqb (Regex.char_eq Regex.flag_i c d) (Ascii.eqb c (lower_ascii_char d))).

Definition is_some {A : Type} (o : option A) : bool :=
  match o with Some _ => true | None => false end.

(** ** Match states *)

(** The character before the position reached once [w] has been consumed. *)
Fixpoint last_of (w : string) (prev : option ascii) : option ascii :=
  match w with
  | EmptyString => prev
  | String c w' => last_of w' (Some c)
  end.

(** The input is at its end, or its next character is outside the class. *)
Definition class_fails_at (f : Regex.flags) (neg : bool)
  (items : list Regex.cls_item) (r : string) : Prop :=
  match r with
  | EmptyString => True
  | String c _ => Regex.class_has f neg items c = false
  end.

(** The state after as many characters as [w] has have been consumed. *)
Fixpoint skip_over (w : string) (st : Regex.mstate) : Regex.mstate :=
  match w with
  | EmptyString => st
  | String _ w' =>
      skip_over w'
        (match Regex.m_rest st with
         | String d rest => Regex.advance d rest st
         | EmptyString => st
         end)
  end.

(** The part of [rgb_re] after the opening parenthesis. *)
Definition rgb_tail : Regex.regex :=
  Regex.Seqs [spaces; Regex.Group 1 digits; spaces; Regex.Chr ","; spaces;
              Regex.Group 2 digits; spaces; Regex.Chr ","; spaces;
              Regex.Group 3 digits].

(** ** Colours as three channel values *)

(** The text [rgb(r, g, b)] of three decimal texts, as [hexToRgb] lays it
    out. *)
Definition rgb_text (r g b : string) : string :=
  "rgb(" ++ r ++ ", " ++ g ++ ", " ++ b ++ ")".

(** The decimal text of an integer, as [String(n)] prints it. *)
Definition decimal (v : Z) : string := Num.toStringRadix 10 (Num.Int v).

Definition hex_digits : list ascii :=
  list_ascii_of_string "0123456789ABCDEF".

(** The value of a hexadecimal digit, and the digit of a value below 16. *)
Definition hex_value (c : ascii) : Z :=
  match Num.digit_value c with Some d => d | None => 0%Z end.

Definition hex_digit (v : Z) : ascii := nth (Z.to_nat v) hex_digits "0"%char.

(** The two upper-case hexadecimal digits of a value below 256. *)
Definition hex_pair (v : Z) : string :=
  String (hex_digit (v / 16)) (String (hex_digit (v mod 16)) "").

(** The colour [#RRGGBB] of three channel values. *)
Definition hex_text (r g b : Z) : string :=
  "#" ++ hex_pair r ++ hex_pair g ++ hex_pair b.

Definition char_value (i : nat) (s : string) : Z :=
  match String.get i s with Some c => hex_value c | None => 0%Z end.

(** The value of channel [i] (0, 1 or 2) of a colour [#RRGGBB]. *)
Definition channel_value (i : nat) (hex : string) : Z :=
  (16 * char_value (1 + 2 * i) hex + char_value (2 + 2 * i) hex)%Z.

Definition is_byte (v : Z) : Prop := (0 <= v <= 255)%Z.

Definition byte_values : list Z := map Z.of_nat (seq 0 256).

Definition same_int (n : Num.jsint) (v : Z) : bool :=
  match n with Num.Int z => (z =? v)%Z | _ => false end.

(** What holds of every channel value, checked value by value: its decimal
    text is made of digits, the source turns that text into its two
    hexadecimal digits, and reads these back as the value. *)
Definition channel_checks (v : Z) : bool :=
  JS.all_chars JS.is_digit (decimal v)
  && JS.truthy (decimal v)
  && String.eqb (JS.toUpperCase (hex_channel (decimal v))) (hex_pair v)
  && same_int (Num.parseInt (hex_pair v) (Some 16%Z)) v
  && JS.all_chars is_upper_hex (hex_pair v)
  && (16 * hex_value (hex_digit (v / 16)) + hex_value (hex_digit (v mod 16)) =? v)%Z.

(** The channel values with their Number values. *)
Definition channel_floats : list (Z * float) :=
  map (fun v => (v, Num.of_Z v)) byte_values.

(** A test on every triple of a list. *)
Definition forallb3 {A : Type} (p : A -> A -> A -> bool) (l : list A) : bool :=
  forallb (fun a => forallb (fun b => forallb (p a b) l) l) l.

(** The test of [isBlackOrWhite] on three channel values. *)
Definition neutral_floats (r g b : float) : bool :=
  let brightness := ((r + g + b) / 3)%float in
  PrimFloat.ltb 230 brightness || PrimFloat.ltb brightness 25.

(** The same test on the sum of the channels. *)
Definition neutral_sum (s : Z) : bool := ((690 <? s) || (s <? 75))%Z.

Definition neutral_agree (r g b : Z * float) : bool :=
  Bool.eqb (neutral_floats (snd r) (snd g) (snd b))
           (neutral_sum (fst r + fst g + fst b)).

(** The formula of [getLuminance] on three channel values. *)
Definition luminance_floats (r g b : float) : float :=
  (0.2126 * (r / 255) + 0.7152 * (g / 255) + 0.0722 * (b / 255))%float.

Definition luminance_in_unit (r g b : Z * float) : bool :=
  let l := luminance_floats (snd r) (snd g) (snd b) in
  PrimFloat.leb 0 l && PrimFloat.leb l 1.

(** ** Maps, ranks and requests *)

Definition keys {V : Type} (m : list (string * V)) : list string := map fst m.

Definition total (l : list Z) : Z := fold_right Z.add 0%Z l.

(** The entries of a list that have a given rank, in the order of the list. *)
Definition with_rank {A : Type} (rank : A -> Z) (n : Z) (l : list A) : list A :=
  filter (fun a => (rank a =? n)%Z) l.

(** What every key of a colour map is: the normal form of some value, and
    neither near-black nor near-white. *)
Definition counted_colour (hex : string) : Prop :=
  isBlackOrWhite hex = false /\ exists value, normalizeColor value = Some hex.

(** A colour map: each key once, each key a counted colour, each weight
    positive. *)
Definition sound_map (m : list (string * Z)) : Prop :=
  NoDup (keys m) /\ Forall counted_colour (keys m) /\ positive_map m.

(** The weight the answer to a style-sheet request gives to a colour. *)
Definition sheet_weight `{Network} (hex : string) (req : channel * string) : Z :=
  weight hex (extractColorsFromCSS (sheet_text (fst req) (snd req))).

Definition settled_weight `{Network} (hex : string)
  (reqs : list (channel * string)) (i : nat) : Z :=
  match nth_error reqs i with
  | Some req => sheet_weight hex req
  | None => 0%Z
  end.

(** Two networks that answer the style-sheet requests of a batch alike and
    settle them in the same order. *)
Definition same_sheets (N N' : Network) (mk : nat -> channel)
  (urls : list string) : Prop :=
  (forall i address,
     nth_error urls i = Some address ->
     @axios_get N (mk i) address css_config
     = @axios_get N' (mk i) address css_config)
  /\ @settle_order N (requests mk urls) = @settle_order N' (requests mk urls).

(** The statuses of the route's error answers. *)
Definition error_statuses : list Z := [400; 403; 404; 408; 500]%Z.

(** ** Example pages and sites *)

(** A page whose style block imports two Google Fonts families. *)
Definition import_page : Dom.document :=
  page [Dom.Element "style" []
          [Dom.Text "@import url('https://fonts.googleapis.com/css?family=Lato:400|Fira+Sans');"]]
       [].

(** A record stored by an earlier request. *)
Definition stale_record : analysis_result :=
  {| r_url := "https://example.com/"; r_siteName := "example.com";
     r_title := "Old"; r_description := "No description found.";
     r_tagline := ""; r_logo := None; r_fonts := [system_default];
     r_colors := []; r_scrapedAt := "2024-01-01T11:00:00.000Z" |}.

(** A site that serves its page only. *)
Definition bare_site : Network :=
  served [("https://example.com/", Return "<html>")].

(** A request made ten minutes after noon. *)
Definition ten_past_noon : clock :=
  {| at_lookup := 600000; at_store := 600001;
     iso_stamp := "2024-01-01T12:10:00.000Z" |}.

(** A page with a title and an icon given by its path. *)
Definition titled_page : Dom.document :=
  page [Dom.Element "title" [] [Dom.Text "Acme"];
        Dom.Element "link" [("rel", "icon"); ("href", "/icon.png")] []]
       [].

(** A site that answers [fetch] with a page. *)
Definition fetched_site : Fetch :=
  fetching [("https://example.com",
             Return {| f_status := 200; f_text := Return "<html>" |})].

(** * Verification *)

(** ** Facts about the stable sort *)

Section SortFacts.

Variable A : Type.
Variable cmp : A -> A -> Z.

Let le (a b : A) : Prop := (cmp a b <= 0)%Z.

Hypothesis cmp_total : forall a b, le a b \/ le b a.
Hypothesis cmp_trans : forall a b c, le a b -> le b c -> le a c.

Lemma sort_insert_perm (x : A) (l : list A) :
  Permutation (JS.sort_insert cmp x l) (x :: l).
Proof.
  induction l as [|y r IH]; simpl.
  - apply Permutation_refl.
  - destruct (cmp x y <=? 0)%Z.
    + apply Permutation_refl.
    + apply Permutation_trans with (y :: x :: r).
      * now apply perm_skip.
      * apply perm_swap.
Qed.

Lemma sort_perm (l : list A) : Permutation (JS.sort cmp l) l.
Proof.
  induction l as [|x r IH]; simpl.
  - apply Permutation_refl.
  - apply Permutation_trans with (x :: JS.sort cmp r).
    + apply sort_insert_perm.
    + now apply perm_skip.
Qed.

Lemma sort_insert_sorted (x : A) (l : list A) :
  StronglySorted le l -> StronglySorted le (JS.sort_insert cmp x l).
Proof.
  induction 1 as [|y r Hs IH Hall]; simpl.
  - repeat constructor.
  - destruct (cmp x y <=? 0)%Z eqn:E.
    + apply Z.leb_le in E.
      constructor; [now constructor|].
      constructor; [exact E|].
      rewrite Forall_forall in *. intros z Hz.
      apply cmp_trans with y; [exact E|now apply Hall].
    + apply Z.leb_gt in E.
      constructor; [exact IH|].
      rewrite Forall_forall in *. intros z Hz.
      apply (Permutation_in _ (sort_insert_perm x r)) in Hz.
      destruct Hz as [<-|Hz]; [|now apply Hall].
      destruct (cmp_total y x) as [H|H]; [exact H|].
      unfold le in H. lia.
Qed.

Lemma sort_sorted (l : list A) : StronglySorted le (JS.sort cmp l).
Proof.
  induction l as [|x r IH]; simpl.
  - constructor.
  - now apply sort_insert_sorted.
Qed.

(** An element that precedes all the others stays in front. *)
Lemma sort_least_first (x : A) (l : list A) :
  (forall y, In y l -> le x y) ->
  JS.sort cmp (x :: l) = x :: JS.sort cmp l.
Proof.
  intros Hmin. simpl.
  destruct (JS.sort cmp l) as [|y r] eqn:E; [reflexivity|].
  simpl.
  assert (Hy : In y l).
  { apply (Permutation_in _ (sort_perm l)). rewrite E. now left. }
  specialize (Hmin y Hy). unfold le in Hmin.
  apply Z.leb_le in Hmin. now rewrite Hmin.
Qed.

End SortFacts.

Lemma StronglySorted_weaken {A : Type} (R R' : A -> A -> Prop) (l : list A) :
  (forall a b, R a b -> R' a b) -> StronglySorted R l -> StronglySorted R' l.
Proof.
  intros Himp. induction 1 as [|x r Hs IH Hall]; constructor; auto.
  rewrite Forall_forall in *. auto.
Qed.

Lemma firstn_In {A : Type} (x : A) (n : nat) (l : list A) :
  In x (firstn n l) -> In x l.
Proof.
  revert n. induction l as [|y r IH]; intros [|n]; simpl; try tauto.
  intros [->|H]; [now left|right; eauto].
Qed.

Lemma StronglySorted_firstn {A : Type} (R : A -> A -> Prop) (n : nat) (l : list A) :
  StronglySorted R l -> StronglySorted R (firstn n l).
Proof.
  intros Hs. revert n.
  induction Hs as [|x r Hs IH Hall]; intros [|n]; simpl; try constructor.
  - apply IH.
  - rewrite Forall_forall in *. intros y Hy.
    apply Hall. eapply firstn_In; eauto.
Qed.

(** ** Facts about the matcher *)

Ltac reach_done :=
  repeat split; auto; try lia; try congruence;
  try (simpl; intros; discriminate).

(** Whatever the matcher accepts was accepted by the continuation at a state
    that lies at or after the start, strictly after it when the pattern
    consumes, and that belongs to the same input. *)
Lemma run_reaches (f : Regex.flags) (r : Regex.regex) :
  forall (k : Regex.mstate -> option Regex.mstate) (st res : Regex.mstate),
    Regex.run f r k st = Some res ->
    exists st1,
      k st1 = Some res
      /\ (Regex.m_pos st <= Regex.m_pos st1)%nat
      /\ (consumes r = true -> (Regex.m_pos st < Regex.m_pos st1)%nat)
      /\ input_end st1 = input_end st.
Proof.
  induction r as [ |c|neg items|r1 IH1 r2 IH2|r1 IH1 r2 IH2|r1 IH1|i r1 IH1| | |r1 IH1];
    intros k st res H; cbn [Regex.run] in H.
  - exists st. reach_done.
  - destruct (Regex.m_rest st) as [|d rest] eqn:E; [discriminate|].
    destruct (Regex.char_eq f c d); [|discriminate].
    exists (Regex.advance d rest st). unfold input_end. simpl. rewrite E. simpl.
    reach_done.
  - destruct (Regex.m_rest st) as [|d rest] eqn:E; [discriminate|].
    destruct (Regex.class_has f neg items d); [|discriminate].
    exists (Regex.advance d rest st). unfold input_end. simpl. rewrite E. simpl.
    reach_done.
  - destruct (IH1 _ _ _ H) as (st1 & H1 & Hle1 & Hlt1 & He1).
    destruct (IH2 _ _ _ H1) as (st2 & H2 & Hle2 & Hlt2 & He2).
    exists st2. repeat split; auto; try lia; try congruence.
    simpl. intros Hc. apply orb_true_iff in Hc.
    destruct Hc as [Hc|Hc]; [specialize (Hlt1 Hc)|specialize (Hlt2 Hc)]; lia.
  - destruct (Regex.run f r1 k st) as [res1|] eqn:E1.
    + injection H as <-. destruct (IH1 _ _ _ E1) as (st1 & H1 & Hle & Hlt & He).
      exists st1. repeat split; auto. simpl. intros Hc.
      apply andb_true_iff in Hc. tauto.
    + destruct (IH2 _ _ _ H) as (st1 & H1 & Hle & Hlt & He).
      exists st1. repeat split; auto. simpl. intros Hc.
      apply andb_true_iff in Hc. tauto.
  - revert H. generalize (S (String.length (Regex.m_rest st))) as fuel.
    intros fuel. revert st.
    induction fuel as [|fuel IHf]; intros st H; simpl in H.
    + exists st. reach_done.
    + destruct (Regex.run f r1 _ st) as [res1|] eqn:E1.
      * injection H as <-.
        destruct (IH1 _ _ _ E1) as (st1 & H1 & Hle & _ & He).
        destruct (Regex.m_pos st1 =? Regex.m_pos st)%nat; [discriminate|].
        destruct (IHf _ H1) as (st2 & H2 & Hle2 & _ & He2).
        exists st2. reach_done.
      * exists st. reach_done.
  - destruct (IH1 _ _ _ H) as (st1 & H1 & Hle & Hlt & He).
    exists (Regex.set_cap i (Regex.m_pos st) (Regex.m_pos st1) st1).
    repeat split; auto.
  - destruct (Regex.at_bol f st); [|discriminate].
    exists st. reach_done.
  - destruct (Regex.at_eol f st); [|discriminate].
    exists st. reach_done.
  - destruct (Regex.run f r1 Some st); [discriminate|].
    exists st. reach_done.
Qed.

Lemma search_reaches (f : Regex.flags) (r : Regex.regex) (rest : string) :
  forall (pos : nat) (prev : option ascii) (i : nat) (st : Regex.mstate),
    Regex.search f r pos prev rest = Some (i, st) ->
    (pos <= i)%nat /\ (i <= Regex.m_pos st)%nat
    /\ (consumes r = true -> (i < Regex.m_pos st)%nat)
    /\ (Regex.m_pos st <= pos + String.length rest)%nat.
Proof.
  induction rest as [|c rest IH]; intros pos prev i st H; simpl in H.
  - destruct (Regex.run f r Some _) as [res|] eqn:E; [|discriminate].
    injection H as <- <-.
    destruct (run_reaches f r _ _ _ E) as (st1 & [= ->] & Hle & Hlt & He).
    unfold input_end in He. simpl in *. repeat split; auto; lia.
  - destruct (Regex.run f r Some _) as [res|] eqn:E.
    + injection H as <- <-.
      destruct (run_reaches f r _ _ _ E) as (st1 & [= ->] & Hle & Hlt & He).
      unfold input_end in He. simpl in *. repeat split; auto; lia.
    + destruct (IH _ _ _ _ H) as (H1 & H2 & H3 & H4).
      simpl. repeat split; auto; lia.
Qed.

Lemma drop_length (n : nat) (s : string) :
  String.length (JS.drop n s) = (String.length s - n)%nat.
Proof.
  revert s. induction n as [|n IH]; intros [|c r]; simpl; auto.
Qed.

(** A match of a consuming pattern is not empty and lies inside the input. *)
Lemma exec_from_bounds (f : Regex.flags) (r : Regex.regex) (from : nat)
  (s : string) (m : Regex.result) :
  Regex.exec_from f r from s = Some m ->
  (from <= Regex.index m)%nat /\ (Regex.index m <= Regex.last m)%nat
  /\ (consumes r = true -> (Regex.index m < Regex.last m)%nat)
  /\ (Regex.last m <= String.length s)%nat.
Proof.
  unfold Regex.exec_from.
  destruct (Nat.ltb_spec (String.length s) from) as [Hlt|Hge]; [discriminate|].
  destruct (Regex.search f r from _ _) as [[i st]|] eqn:E; [|discriminate].
  simpl. intros [= <-]. simpl.
  destruct (search_reaches f r _ _ _ _ _ E) as (H1 & H2 & H3 & H4).
  rewrite drop_length in H4. repeat split; auto; lia.
Qed.

(** For a consuming pattern the enumeration of the matches never meets an
    empty match, and more fuel than the input is long changes nothing: the
    model of the [exec] loop runs to its natural end. *)
Lemma exec_loop_enough_fuel (f : Regex.flags) (r : Regex.regex) (s : string) :
  consumes r = true ->
  forall fuel fuel' from,
    (String.length s - from < fuel)%nat -> (fuel <= fuel')%nat ->
    Regex.exec_loop f r fuel from s = Regex.exec_loop f r fuel' from s.
Proof.
  intros Hc. induction fuel as [|fuel IH]; intros fuel' from Hlen Hle; [lia|].
  destruct fuel' as [|fuel']; [lia|]. simpl.
  destruct (Regex.exec_from f r from s) as [m|] eqn:E; [|reflexivity].
  destruct (exec_from_bounds f r from s m E) as (H1 & H2 & H3 & H4).
  specialize (H3 Hc).
  destruct (Nat.leb_spec (Regex.last m) from) as [Hbad|Hok]; [lia|].
  f_equal. apply IH; lia.
Qed.

Lemma exec_loop_unfolds (f : Regex.flags) (r : Regex.regex) (s : string)
  (fuel from : nat) (m : Regex.result) :
  consumes r = true ->
  Regex.exec_from f r from s = Some m ->
  Regex.exec_loop f r (S fuel) from s
  = m :: Regex.exec_loop f r fuel (Regex.last m) s.
Proof.
  intros Hc E. simpl. rewrite E.
  destruct (exec_from_bounds f r from s m E) as (H1 & H2 & H3 & H4).
  specialize (H3 Hc).
  destruct (Nat.leb_spec (Regex.last m) from) as [Hbad|Hok]; [lia|reflexivity].
Qed.

Lemma enumerated_patterns_consume :
  forallb consumes enumerated_patterns = true.
Proof. reflexivity. Qed.

(** *** Replacing a character *)

Lemma search_plus_step (pos : nat) (prev : option ascii) (d : ascii)
  (rest : string) :
  Regex.search Regex.no_flags plus_re pos prev (String d rest)
  = if Ascii.eqb "+" d
    then Some (pos, {| Regex.m_pos := S pos; Regex.m_prev := Some d;
                       Regex.m_rest := rest; Regex.m_caps := [] |})
    else Regex.search Regex.no_flags plus_re (S pos) (Some d) rest.
Proof.
  cbn [Regex.search Regex.run plus_re Regex.m_rest Regex.char_eq
       Regex.ignoreCase Regex.no_flags].
  destruct (Ascii.eqb "+" d); reflexivity.
Qed.

Lemma search_plus_none (rest : string) :
  forall pos prev,
    Regex.search Regex.no_flags plus_re pos prev rest = None ->
    plus_to_space rest = rest.
Proof.
  induction rest as [|d rest IH]; intros pos prev H; [reflexivity|].
  rewrite search_plus_step in H. unfold plus_to_space. simpl.
  destruct (Ascii.eqb_spec "+"%char d) as [<-|Hd]; [discriminate|].
  destruct (Ascii.eqb_spec d "+"%char) as [->|_]; [congruence|].
  f_equal. exact (IH _ _ H).
Qed.

Lemma search_plus_some (rest : string) :
  forall pos prev i st,
    Regex.search Regex.no_flags plus_re pos prev rest = Some (i, st) ->
    exists j,
      i = (pos + j)%nat /\ Regex.m_pos st = S i
      /\ (j < String.length rest)%nat
      /\ plus_to_space rest
         = JS.take j rest ++ " " ++ plus_to_space (JS.drop (S j) rest).
Proof.
  induction rest as [|d rest IH]; intros pos prev i st H; [discriminate|].
  rewrite search_plus_step in H. unfold plus_to_space. simpl.
  destruct (Ascii.eqb_spec "+"%char d) as [<-|Hd].
  - injection H as <- <-. exists 0%nat. simpl.
    repeat split; auto; lia.
  - destruct (Ascii.eqb_spec d "+"%char) as [->|_]; [congruence|].
    destruct (IH _ _ _ _ H) as (j & -> & Hst & Hj & E).
    exists (S j). simpl. fold (plus_to_space rest). rewrite E.
    repeat split; auto; lia.
Qed.

Lemma drop_drop (a b : nat) (s : string) :
  JS.drop a (JS.drop b s) = JS.drop (b + a) s.
Proof.
  revert s. induction b as [|b IH]; intros s; simpl; [reflexivity|].
  destruct s as [|c r]; [now destruct a|apply IH].
Qed.

Lemma replace_plus_from (s : string) :
  forall fuel from,
    (from <= String.length s)%nat -> (String.length s - from < fuel)%nat ->
    Regex.replace_from " " from
      (Regex.exec_loop Regex.no_flags plus_re fuel from s) s
    = plus_to_space (JS.drop from s).
Proof.
  induction fuel as [|fuel IH]; intros from Hfrom Hfuel; [lia|].
  simpl. unfold Regex.exec_from.
  destruct (Nat.ltb_spec (String.length s) from) as [Hbad|_]; [lia|].
  destruct (Regex.search Regex.no_flags plus_re from _ (JS.drop from s))
    as [[i st]|] eqn:E; simpl.
  - destruct (search_plus_some _ _ _ _ _ E) as (j & -> & Hst & Hj & Hrest).
    rewrite drop_length in Hj. rewrite Hst.
    destruct (Nat.leb_spec (S (from + j)) from) as [Hbad|_]; [lia|].
    simpl. unfold JS.slice at 1.
    replace (from + j - from)%nat with j by lia.
    rewrite Hst, IH by lia.
    rewrite Hrest, drop_drop.
    replace (from + S j)%nat with (S (from + j)) by lia. reflexivity.
  - symmetry. exact (search_plus_none _ _ _ E).
Qed.

(** [s.replace(/\+/g, ' ')] replaces every [+] by a space. *)
Lemma replace_plus (s : string) :
  Regex.replace_all Regex.no_flags plus_re " " s = plus_to_space s.
Proof.
  unfold Regex.replace_all, Regex.exec_all.
  rewrite replace_plus_from; [reflexivity|lia|lia].
Qed.

(** ** Colours *)

(** C1: on the text [:root{--brand-color:#FF0000;} a{color:#FFFFFF;}] the
    colour scan yields a map that holds [#FF0000] with weight at least 3 (the
    custom-property scan adds 3) and does not hold [#FFFFFF]: that value
    normalises to [#FFFFFF], which [isBlackOrWhite] rejects, its mean channel
    value 255 being above 230. *)
Theorem extractColorsFromCSS_brand_example :
  let m := extractColorsFromCSS ":root{--brand-color:#FF0000;} a{color:#FFFFFF;}" in
  m = [("#FF0000", 3%Z)]
  /\ (exists w, JS.map_get "#FF0000" m = Some w /\ (3 <= w)%Z)
  /\ JS.map_get "#FFFFFF" m = None
  /\ normalizeColor "#FFFFFF" = Some "#FFFFFF"
  /\ isBlackOrWhite "#FFFFFF" = true
  /\ isBlackOrWhite "#FF0000" = false.
Proof.
  assert (E : extractColorsFromCSS ":root{--brand-color:#FF0000;} a{color:#FFFFFF;}"
              = [("#FF0000", 3%Z)]) by (vm_compute; reflexivity).
  cbv zeta. rewrite E.
  split; [reflexivity|].
  split; [exists 3%Z; split; [reflexivity|lia]|].
  repeat split; vm_compute; reflexivity.
Qed.

(** A value that normalises to a near-black or near-white colour leaves the
    map as it is. *)
Lemma count_color_neutral (w : Z) (value hex : string) (m : list (string * Z)) :
  normalizeColor value = Some hex -> isBlackOrWhite hex = true ->
  count_color w value m = m.
Proof.
  intros Hn Hb. unfold count_color. rewrite Hn, Hb.
  now rewrite andb_false_r.
Qed.

(** C2: at [rgb(256, 0, 0)], a value the colour scans accept, [normalizeColor]
    returns [#1000000]: seven digits, not the six-digit form its own
    documentation promises.  A channel above 255 prints as three hexadecimal
    digits and [padStart(2, '0')] does not shorten it. *)
Theorem normalizeColor_rgb_channel_overflow :
  normalizeColor "rgb(256, 0, 0)" = Some "#1000000"
  /\ is_hex6 "#1000000" = false
  /\ extractColorsFromCSS "a{color:rgb(256, 0, 0)}" = []
  /\ extractColorsFromCSS "a{color:rgb(256, 255, 0)}" = [("#100FF00", 1%Z)].
Proof. repeat split; vm_compute; reflexivity. Qed.

(** *** The hexadecimal forms *)

Lemma hex_class_has (c : ascii) :
  JS.is_hex_digit c = true ->
  Regex.class_has Regex.no_flags false
    [Regex.Range "0" "9"; Regex.Range "a" "f"; Regex.Range "A" "F"] c = true.
Proof. destruct c as [[] [] [] [] [] [] [] []]; vm_compute; congruence. Qed.

Lemma hex_not_space (c : ascii) :
  JS.is_hex_digit c = true -> JS.is_space c = false.
Proof. destruct c as [[] [] [] [] [] [] [] []]; vm_compute; congruence. Qed.

Lemma hex_upper (c : ascii) :
  JS.is_hex_digit c = true -> is_upper_hex (JS.upper_char c) = true.
Proof. destruct c as [[] [] [] [] [] [] [] []]; vm_compute; congruence. Qed.

Ltac use_hex_digits :=
  repeat match goal with
    | H : JS.is_hex_digit ?c = true |- _ =>
        pose proof (hex_class_has c H); pose proof (hex_not_space c H);
        pose proof (hex_upper c H); clear H
    end.

Ltac rewrite_facts :=
  repeat match goal with
    | H : _ = true |- _ => rewrite H
    | H : _ = false |- _ => rewrite H
    end.

Ltac eval_matcher :=
  unfold Regex.test, Regex.exec, Regex.exec_from;
  repeat (cbn -[Regex.class_has JS.upper_char is_upper_hex JS.is_space];
          rewrite_facts).

Ltac eval_hex_form :=
  intros; use_hex_digits;
  assert (JS.is_space "#" = false) by reflexivity;
  unfold normalizeColor, JS.trim, JS.trimEnd;
  eval_matcher; repeat split; rewrite_facts; reflexivity.

Lemma normalizeColor_hex6 (d1 d2 d3 d4 d5 d6 : ascii) :
  JS.is_hex_digit d1 = true -> JS.is_hex_digit d2 = true ->
  JS.is_hex_digit d3 = true -> JS.is_hex_digit d4 = true ->
  JS.is_hex_digit d5 = true -> JS.is_hex_digit d6 = true ->
  let digits := String d1 (String d2 (String d3 (String d4 (String d5
                  (String d6 ""))))) in
  normalizeColor (String "#" digits) = Some (String "#" (JS.toUpperCase digits))
  /\ is_hex6 (String "#" (JS.toUpperCase digits)) = true.
Proof. eval_hex_form. Qed.

Lemma normalizeColor_hex3 (d1 d2 d3 : ascii) :
  JS.is_hex_digit d1 = true -> JS.is_hex_digit d2 = true ->
  JS.is_hex_digit d3 = true ->
  let doubled := String d1 (String d1 (String d2 (String d2 (String d3
                   (String d3 ""))))) in
  normalizeColor (String "#" (String d1 (String d2 (String d3 ""))))
  = Some (String "#" (JS.toUpperCase doubled))
  /\ is_hex6 (String "#" (JS.toUpperCase doubled)) = true.
Proof. eval_hex_form. Qed.

Lemma normalizeColor_hex8 (d1 d2 d3 d4 d5 d6 d7 d8 : ascii) :
  JS.is_hex_digit d1 = true -> JS.is_hex_digit d2 = true ->
  JS.is_hex_digit d3 = true -> JS.is_hex_digit d4 = true ->
  JS.is_hex_digit d5 = true -> JS.is_hex_digit d6 = true ->
  JS.is_hex_digit d7 = true -> JS.is_hex_digit d8 = true ->
  let digits := String d1 (String d2 (String d3 (String d4 (String d5
                  (String d6 ""))))) in
  normalizeColor (String "#" (digits ++ String d7 (String d8 "")))
  = Some (String "#" (JS.toUpperCase digits))
  /\ is_hex6 (String "#" (JS.toUpperCase digits)) = true.
Proof. eval_hex_form. Qed.

(** X1: on the hexadecimal forms the result is six upper-case digits: those of
    a 6-digit value, each digit of a 3-digit value twice, the first six of an
    8-digit value. *)
Theorem normalizeColor_hex_forms :
  (forall d1 d2 d3 d4 d5 d6,
     JS.all_chars JS.is_hex_digit
       (String d1 (String d2 (String d3 (String d4 (String d5 (String d6 ""))))))
     = true ->
     let digits := String d1 (String d2 (String d3 (String d4 (String d5
                     (String d6 ""))))) in
     normalizeColor (String "#" digits)
     = Some (String "#" (JS.toUpperCase digits))
     /\ is_hex6 (String "#" (JS.toUpperCase digits)) = true)
  /\ (forall d1 d2 d3,
        JS.all_chars JS.is_hex_digit (String d1 (String d2 (String d3 "")))
        = true ->
        let doubled := String d1 (String d1 (String d2 (String d2 (String d3
                         (String d3 ""))))) in
        normalizeColor (String "#" (String d1 (String d2 (String d3 ""))))
        = Some (String "#" (JS.toUpperCase doubled))
        /\ is_hex6 (String "#" (JS.toUpperCase doubled)) = true)
  /\ (forall d1 d2 d3 d4 d5 d6 d7 d8,
        JS.all_chars JS.is_hex_digit
          (String d1 (String d2 (String d3 (String d4 (String d5 (String d6
             (String d7 (String d8 ""))))))))
        = true ->
        let digits := String d1 (String d2 (String d3 (String d4 (String d5
                        (String d6 ""))))) in
        normalizeColor (String "#" (digits ++ String d7 (String d8 "")))
        = Some (String "#" (JS.toUpperCase digits))
        /\ is_hex6 (String "#" (JS.toUpperCase digits)) = true).
Proof.
  split; [|split]; intros *; simpl JS.all_chars;
    rewrite !andb_true_iff; intros H; decompose [and] H.
  - now apply normalizeColor_hex6.
  - now apply normalizeColor_hex3.
  - now apply normalizeColor_hex8.
Qed.

(** The same happens on the HSL path when saturation or lightness exceeds
    100%: a channel leaves the range 0..255, and a negative one prints with a
    sign. *)
Lemma normalizeColor_hsl_out_of_range :
  normalizeColor "hsl(0, 200%, 50%)" = Some "#17F-7F-7F"
  /\ is_hex6 "#17F-7F-7F" = false.
Proof. split; vm_compute; reflexivity. Qed.

(** In-range values of each form do come out as six upper-case digits. *)
Lemma normalizeColor_in_range_examples :
  map normalizeColor
    ["#abc"; "#a1b2c3"; "#a1b2c3d4"; "rgb(51, 102, 153)"; "rgba(1,2,3,0.5)";
     "hsl(210, 50%, 40%)"; "hsla(0, 100%, 50%, 0.3)"; "#abcd"; "rgb(1,2)"]
  = [Some "#AABBCC"; Some "#A1B2C3"; Some "#A1B2C3"; Some "#336699";
     Some "#010203"; Some "#336699"; Some "#FF0000"; None; None].
Proof. vm_compute; reflexivity. Qed.

Lemma relabel_length (i : nat) (l : color_label) (cs : list color_sample) :
  List.length (relabel i l cs) = List.length cs.
Proof.
  revert i. induction cs as [|c r IH]; intros [|i]; simpl; auto.
Qed.

Lemma entry_of_set_label (l : color_label) (c : color_sample) :
  entry_of (set_label l c) = entry_of c.
Proof. reflexivity. Qed.

Lemma relabel_entries (i : nat) (l : color_label) (cs : list color_sample) :
  map entry_of (relabel i l cs) = map entry_of cs.
Proof.
  revert i. induction cs as [|c r IH]; intros [|i]; simpl; auto.
  now rewrite IH.
Qed.

Lemma to_sample_entry (l : list (string * Z)) :
  map entry_of (map to_sample l) = l.
Proof.
  induction l as [|[h n] r IH]; simpl; [reflexivity|].
  now rewrite IH.
Qed.

Lemma rankColors_entries (colorMap : list (string * Z)) :
  map entry_of (rankColors colorMap)
  = firstn 8 (JS.sort (fun a b => (snd b - snd a)%Z) colorMap).
Proof.
  unfold rankColors. now rewrite !relabel_entries, to_sample_entry.
Qed.

Lemma rankColors_labels (colorMap : list (string * Z)) (i : nat) (c : color_sample) :
  nth_error (rankColors colorMap) i = Some c ->
  label c = expected_label i (frequency c).
Proof.
  unfold rankColors.
  destruct (firstn 8 (JS.sort _ colorMap)) as [|e0 [|e1 [|e2 r]]]; simpl.
  - destruct i; discriminate.
  - destruct i as [|[|i]]; simpl; intros H; inversion H; reflexivity.
  - destruct i as [|[|[|i]]]; simpl; intros H; inversion H; reflexivity.
  - destruct i as [|[|[|i]]]; simpl; intros H; try (inversion H; reflexivity).
    apply nth_error_In in H. apply in_map_iff in H.
    destruct H as [e [<- _]]. cbn [expected_label to_sample label frequency].
    unfold threshold_label. now rewrite !Z.gtb_ltb.
Qed.

(** C3: the list [extractColors] builds from an accumulated map is the map's
    entries in descending order of weight (a stable sort of them), cut to at
    most 8.  The entries at ranks 1, 2 and 3 are labelled Primary, Secondary
    and Accent; every later entry keeps the label of the first pass: Primary
    when its weight is above 5, Secondary when it is above 2 and at most 5,
    Accent when it is at most 2. *)
Theorem rankColors_sorted_capped_labelled (colorMap : list (string * Z)) :
  let ranked := JS.sort (fun a b => (snd b - snd a)%Z) colorMap in
  let out := rankColors colorMap in
  Permutation ranked colorMap
  /\ StronglySorted (fun a b => (snd b <= snd a)%Z) ranked
  /\ map entry_of out = firstn 8 ranked
  /\ (List.length out <= 8)%nat
  /\ StronglySorted (fun a b => (frequency b <= frequency a)%Z) out
  /\ (forall i c, nth_error out i = Some c ->
        label c = expected_label i (frequency c))
  /\ (forall i c, nth_error out i = Some c ->
        (i = 0%nat -> label c = Primary)
        /\ (i = 1%nat -> label c = Secondary)
        /\ (i = 2%nat -> label c = Accent)
        /\ ((3 <= i)%nat ->
            ((5 < frequency c)%Z -> label c = Primary)
            /\ ((2 < frequency c <= 5)%Z -> label c = Secondary)
            /\ ((frequency c <= 2)%Z -> label c = Accent))).
Proof.
  cbv zeta.
  assert (Hsorted : StronglySorted (fun a b : string * Z => (snd b <= snd a)%Z)
                      (JS.sort (fun a b => (snd b - snd a)%Z) colorMap)).
  { eapply StronglySorted_weaken; [|apply sort_sorted].
    - intros a b H. simpl in H. lia.
    - intros a b. lia.
    - intros a b c. lia. }
  split; [apply sort_perm|]. split; [exact Hsorted|].
  split; [apply rankColors_entries|]. split.
  { rewrite <- (length_map entry_of), rankColors_entries.
    apply firstn_le_length. }
  split.
  { pose proof (rankColors_entries colorMap) as E.
    apply (StronglySorted_firstn _ 8) in Hsorted. rewrite <- E in Hsorted.
    clear E. induction (rankColors colorMap) as [|c r IH]; [constructor|].
    simpl in Hsorted. inversion Hsorted as [|? ? Hs Hall]; subst.
    constructor; [now apply IH|].
    rewrite Forall_forall in *. intros d Hd.
    apply (Hall (entry_of d)). now apply in_map. }
  split; [apply rankColors_labels|].
  intros i c H. apply rankColors_labels in H. rewrite H.
  split; [now intros ->|]. split; [now intros ->|]. split; [now intros ->|].
  intros Hi. destruct i as [|[|[|i]]]; try lia. cbn [expected_label].
  destruct (Z.gtb_spec (frequency c) 5), (Z.gtb_spec (frequency c) 2);
    repeat split; intros; try reflexivity; lia.
Qed.

(** Six colours of weights 9, 8, 7, 6, 3 and 1: the fourth is Primary and the
    fifth Secondary by their weights. *)
Lemma rankColors_labels_example :
  map label
    (rankColors [("#101010", 1%Z); ("#202020", 7%Z); ("#303030", 9%Z);
                 ("#404040", 3%Z); ("#505050", 6%Z); ("#606060", 8%Z)])
  = [Primary; Secondary; Accent; Primary; Secondary; Accent]
  /\ map hex
       (rankColors [("#101010", 1%Z); ("#202020", 7%Z); ("#303030", 9%Z);
                    ("#404040", 3%Z); ("#505050", 6%Z); ("#606060", 8%Z)])
     = ["#303030"; "#606060"; "#202020"; "#505050"; "#404040"; "#101010"].
Proof. split; vm_compute; reflexivity. Qed.

(** [extractColors] ranks the map it accumulated. *)
Lemma extractColors_ranks `{UrlApi} `{Network} (doc : Dom.document)
  (baseUrl : string) (out : list color_sample) :
  extractColors doc baseUrl = Return out ->
  exists colorMap, accumulateColors doc baseUrl = Return colorMap
                   /\ out = rankColors colorMap.
Proof.
  unfold extractColors. destruct (accumulateColors doc baseUrl); simpl.
  - intros H1. inversion H1. eauto.
  - discriminate.
Qed.

(** ** Strings *)

Lemma append_assoc (a b c : string) : (a ++ b) ++ c = a ++ (b ++ c).
Proof. induction a as [|x a IH]; simpl; [reflexivity|now rewrite IH]. Qed.

Lemma append_empty_r (a : string) : a ++ "" = a.
Proof. induction a as [|x a IH]; simpl; [reflexivity|now rewrite IH]. Qed.

Lemma rev_string_app (acc s : string) :
  JS.rev_string acc s = JS.rev_string "" s ++ acc.
Proof.
  revert acc. induction s as [|c r IH]; intros acc; simpl; [reflexivity|].
  rewrite (IH (String c acc)), (IH (String c "")).
  rewrite append_assoc. reflexivity.
Qed.

Lemma or_else_empty (s : string) : JS.or_else s "" = s.
Proof. now destruct s. Qed.

Lemma split_aux_head (sep : ascii) (cur s : string) :
  hd "" (JS.split_aux sep cur s) = JS.rev_string "" cur ++ before_char sep s.
Proof.
  revert cur. induction s as [|c r IH]; intros cur; simpl.
  - now rewrite append_empty_r.
  - destruct (Ascii.eqb c sep); simpl.
    + now rewrite append_empty_r.
    + rewrite IH. simpl. rewrite (rev_string_app (String c "")).
      rewrite append_assoc. reflexivity.
Qed.

(** [s.split(sep)[0]] is the part of [s] before the first [sep]. *)
Lemma split_head (sep : ascii) (s : string) :
  hd "" (JS.split sep s) = before_char sep s.
Proof. unfold JS.split. now rewrite split_aux_head. Qed.

Lemma split_period_head (description : string) :
  JS.or_else (hd "" (JS.split "." description)) ""
  = before_first_period description.
Proof. rewrite or_else_empty. apply split_head. Qed.

(** ** Tagline *)

Lemma window_5_199 (n : nat) :
  ((4 <? n) && (n <? 200))%nat = ((5 <=? n) && (n <=? 199))%nat.
Proof.
  destruct (Nat.ltb_spec 4 n), (Nat.ltb_spec n 200),
           (Nat.leb_spec 5 n), (Nat.leb_spec n 199); simpl; try reflexivity; lia.
Qed.

Lemma hero_loop_rules (doc : Dom.document) (sels : list Dom.selector) :
  hero_loop doc sels
  = first_some (map (fun sel => keep_if length_5_to_199 (trimmed_text sel doc)) sels).
Proof.
  induction sels as [|sel rest IH]; simpl; [reflexivity|].
  unfold keep_if, length_5_to_199, trimmed_text.
  rewrite <- andb_assoc, window_5_199.
  destruct (JS.truthy _ && _); [reflexivity|exact IH].
Qed.

Lemma first_some_app {A : Type} (l1 l2 : list (option A)) :
  first_some (l1 ++ l2)
  = match first_some l1 with Some a => Some a | None => first_some l2 end.
Proof.
  induction l1 as [|[a|] r IH]; simpl; auto.
Qed.

(** The code runs the table of rules with the window 5 to 199. *)
Lemma extractTagline_by_rules (doc : Dom.document) (description : string) :
  extractTagline doc description
  = tagline_by_rules length_5_to_199 doc description.
Proof.
  unfold extractTagline, tagline_by_rules, tagline_rules.
  rewrite first_some_app, <- hero_loop_rules.
  destruct (hero_loop doc heroSelectors) as [t|]; [reflexivity|].
  simpl. unfold keep_if, shorter_than, trimmed_text.
  destruct (JS.truthy _ && _); [reflexivity|].
  destruct (JS.truthy _ && _); [reflexivity|].
  destruct (JS.truthy _ && _); [reflexivity|].
  apply split_period_head.
Qed.

(** C7, as amended: the tagline is the result of the ordered chain in which
    the first satisfying rule wins: for each hero, tagline, slogan or headline
    selector in order, the trimmed text of the first element it matches, when
    that text has more than 4 and fewer than 200 characters; then
    [og:description] and [twitter:description] when not empty and under 120
    characters; then the first [h1] text when not empty and under 150; then
    the description up to its first period.  On the page
    [<div class="hero"><h1>Build Better</h1></div>] the result is
    [Build Better], whatever the description. *)
Theorem extractTagline_chain :
  (forall doc description,
     extractTagline doc description
     = tagline_by_rules length_5_to_199 doc description)
  /\ (forall description, extractTagline hero_page description = "Build Better").
Proof.
  split.
  - apply extractTagline_by_rules.
  - intros description. unfold extractTagline.
    replace (hero_loop hero_page heroSelectors) with (Some "Build Better")
      by (vm_compute; reflexivity).
    reflexivity.
Qed.

(** C7, as stated, fails at the lower end of the window: a tagline element of
    exactly 4 characters is inside "4-200 characters", but the code passes it
    over. *)
Lemma extractTagline_rejects_four_characters :
  tagline_by_rules length_4_to_200 short_tagline_page "" = "Home"
  /\ extractTagline short_tagline_page "" = ""
  /\ extractTagline short_tagline_page ""
     <> tagline_by_rules length_4_to_200 short_tagline_page "".
Proof.
  assert (E1 : tagline_by_rules length_4_to_200 short_tagline_page "" = "Home")
    by (vm_compute; reflexivity).
  assert (E2 : extractTagline short_tagline_page "" = "")
    by (vm_compute; reflexivity).
  rewrite E1, E2. repeat split. discriminate.
Qed.

(** Only the first element a selector matches is looked at: when its text is
    not acceptable the selector is passed over, even if a later element it
    matches has an acceptable text. *)
Lemma extractTagline_reads_first_match_only :
  first_acceptable length_5_to_199 two_taglines_page
    [Dom.any_with [Dom.AttrHas "class" "tagline"]]
  = Some "Great products here"
  /\ extractTagline two_taglines_page "" = "".
Proof. split; vm_compute; reflexivity. Qed.

(** The hero rules come before the descriptions: a short [og:description]
    does not displace an acceptable hero text; without the hero element it is
    the tagline. *)
Lemma extractTagline_hero_before_og :
  extractTagline hero_page_with_og "" = "Build Better"
  /\ extractTagline (page [meta_tag "property" "og:description" "Tools for builders"] []) ""
     = "Tools for builders".
Proof. split; vm_compute; reflexivity. Qed.

(** ** The error mapping of the route *)

Lemma status_is_spec (err : js_error) (n : Z) :
  status_is err n = true <-> err_status err = Some n.
Proof.
  unfold status_is. destruct (err_status err) as [x|].
  - rewrite Z.eqb_eq. split; [now intros ->|now intros [= ->]].
  - split; discriminate.
Qed.

Lemma code_is_spec (err : js_error) (c : string) :
  code_is err c = true <-> err_code err = Some c.
Proof.
  unfold code_is. destruct (err_code err) as [x|].
  - rewrite String.eqb_eq. split; [now intros ->|now intros [= ->]].
  - split; discriminate.
Qed.

Lemma handle_error_blocked (err : js_error) :
  err_status err = Some 403%Z \/ err_status err = Some 401%Z ->
  handle_error err
  = {| status := 403;
       body := ErrorBody "Site blocked automated access (403/401). Try a different URL." |}.
Proof.
  intros H. unfold handle_error.
  replace (status_is err 403 || status_is err 401) with true; [reflexivity|].
  symmetry. apply orb_true_iff.
  destruct H as [H|H]; [left|right]; now apply status_is_spec.
Qed.

(** The generic branch is taken exactly when no earlier test holds. *)
Lemma handle_error_generic (err : js_error) :
  reported_kind (handle_error err) = Some FetchFailed <->
  err_status err <> Some 403%Z /\ err_status err <> Some 401%Z
  /\ err_code err <> Some "ECONNREFUSED" /\ err_code err <> Some "ENOTFOUND"
  /\ err_code err <> Some "ETIMEDOUT" /\ has_timeout_message err = false.
Proof.
  unfold handle_error. fold (has_timeout_message err).
  rewrite <- !status_is_spec, <- !code_is_spec.
  destruct (status_is err 403), (status_is err 401),
    (code_is err "ECONNREFUSED"), (code_is err "ENOTFOUND"),
    (code_is err "ETIMEDOUT"), (has_timeout_message err);
    simpl; split; try discriminate; try tauto; intuition congruence.
Qed.

Section Route.

Context {U : UrlApi} {N : Network} {M : Markup}.

Lemma analyze_fetch_failure (clk : clock) (c : cache) (raw target : string)
  (err : js_error) :
  JS.truthy raw = true ->
  normalizeUrl raw = Return target ->
  cache_get (at_lookup clk) target c = None ->
  fetchPage target = Throw err ->
  analyze clk c (Some raw) = (handle_error err, c).
Proof.
  intros Hraw Hnorm Hmiss Hfetch. unfold analyze. simpl.
  rewrite Hraw. simpl. unfold JS.or_else. rewrite Hraw, Hnorm, Hmiss.
  unfold assemble. rewrite Hfetch. reflexivity.
Qed.

(** An input the parser rejects is answered with status 400, the InvalidURL
    kind. *)
Lemma analyze_invalid_url (clk : clock) (c : cache) (raw : string)
  (e : js_error) :
  JS.truthy raw = true ->
  normalizeUrl raw = Throw e ->
  status (fst (analyze clk c (Some raw))) = 400%Z
  /\ reported_kind (fst (analyze clk c (Some raw))) = Some InvalidURL
  /\ snd (analyze clk c (Some raw)) = c.
Proof.
  intros Hraw Hnorm. unfold analyze. simpl. rewrite Hraw. simpl.
  unfold JS.or_else. rewrite Hraw, Hnorm. repeat split.
Qed.

(** C9: when the fetch of the page fails with response status 403 or 401, the
    route answers with the AccessBlocked kind (status 403 and the "blocked
    automated access" message) and leaves the cache alone.  The generic
    failure is reported exactly for an error whose status is neither 401 nor
    403, whose code is none of ECONNREFUSED, ENOTFOUND and ETIMEDOUT, and
    whose message does not contain [timeout]; the answer then has status 500
    and carries the message of the error. *)
Theorem analyze_reports_access_blocked (clk : clock) (c : cache)
  (raw target : string) (err : js_error) :
  JS.truthy raw = true ->
  normalizeUrl raw = Return target ->
  cache_get (at_lookup clk) target c = None ->
  fetchPage target = Throw err ->
  err_status err = Some 403%Z \/ err_status err = Some 401%Z ->
  reported_kind (fst (analyze clk c (Some raw))) = Some AccessBlocked
  /\ status (fst (analyze clk c (Some raw))) = 403%Z
  /\ snd (analyze clk c (Some raw)) = c
  /\ (forall e,
        reported_kind (handle_error e) = Some FetchFailed
        <-> (err_status e <> Some 403%Z /\ err_status e <> Some 401%Z
             /\ err_code e <> Some "ECONNREFUSED"
             /\ err_code e <> Some "ENOTFOUND"
             /\ err_code e <> Some "ETIMEDOUT"
             /\ has_timeout_message e = false))
  /\ (forall e,
        reported_kind (handle_error e) = Some FetchFailed ->
        handle_error e
        = {| status := 500;
             body := ErrorBody ("Failed to analyze site. "
                                ++ JS.opt_or (err_message e) "") |}).
Proof.
  intros Hraw Hnorm Hmiss Hfetch Hstatus.
  rewrite (analyze_fetch_failure clk c raw target err Hraw Hnorm Hmiss Hfetch).
  simpl. rewrite (handle_error_blocked err Hstatus).
  split; [reflexivity|]. split; [reflexivity|]. split; [reflexivity|].
  split; [intros e; apply handle_error_generic|].
  intros e. unfold handle_error. fold (has_timeout_message e).
  destruct (status_is e 403 || status_is e 401); [discriminate|].
  destruct (code_is e "ECONNREFUSED" || code_is e "ENOTFOUND"); [discriminate|].
  destruct (code_is e "ETIMEDOUT" || has_timeout_message e); [discriminate|].
  reflexivity.
Qed.

End Route.

Lemma analyze_reports_access_blocked_witness :
  reported_kind
    (fst (@analyze plain_url
            (served [("https://example.com/", Throw (http_error 403))])
            (parsed_as []) noon [] (Some "example.com")))
  = Some AccessBlocked.
Proof.
  apply (@analyze_reports_access_blocked plain_url
           (served [("https://example.com/", Throw (http_error 403))])
           (parsed_as []) noon [] "example.com" "https://example.com/"
           (http_error 403)).
  - reflexivity.
  - vm_compute; reflexivity.
  - reflexivity.
  - vm_compute; reflexivity.
  - left; reflexivity.
Defined.

(** A name lookup that fails with EAI_AGAIN, or a connection that is reset,
    is neither a 401/403 answer nor a timeout, and it is a DNS or connection
    failure; yet the route reports the generic failure, with status 500. *)
Lemma analyze_dns_failure_is_generic :
  @fetchPage (served [("https://example.com/", Throw dns_try_again)])
    "https://example.com/"
  = Throw dns_try_again
  /\ @analyze plain_url
       (served [("https://example.com/", Throw dns_try_again)])
       (parsed_as []) noon [] (Some "example.com")
     = ({| status := 500;
           body := ErrorBody
                     "Failed to analyze site. getaddrinfo EAI_AGAIN example.com" |},
        [])
  /\ reported_kind (handle_error dns_try_again) = Some FetchFailed
  /\ @analyze plain_url
       (served [("https://example.com/", Throw connection_reset)])
       (parsed_as []) noon [] (Some "example.com")
     = ({| status := 500;
           body := ErrorBody "Failed to analyze site. read ECONNRESET" |}, [])
  /\ reported_kind (handle_error connection_reset) = Some FetchFailed.
Proof. repeat split; vm_compute; reflexivity. Qed.

(** ** The reference URL parser satisfies the laws *)

Lemma all_chars_app (p : ascii -> bool) (a b : string) :
  JS.all_chars p (a ++ b) = JS.all_chars p a && JS.all_chars p b.
Proof.
  induction a as [|c a IH]; simpl; [reflexivity|].
  now rewrite IH, andb_assoc.
Qed.

Lemma all_chars_weaken (p q : ascii -> bool) (s : string) :
  (forall c, p c = true -> q c = true) ->
  JS.all_chars p s = true -> JS.all_chars q s = true.
Proof.
  intros Hpq. induction s as [|c r IH]; simpl; [reflexivity|].
  rewrite !andb_true_iff. intros [Hc Hr]. auto.
Qed.

Lemma rev_string_append (a b : string) :
  JS.rev_string "" (a ++ b) = JS.rev_string "" b ++ JS.rev_string "" a.
Proof.
  induction a as [|c a IH]; simpl.
  - now rewrite append_empty_r.
  - rewrite (rev_string_app (String c "")), IH.
    rewrite (rev_string_app (String c "") a), append_assoc. reflexivity.
Qed.

Lemma rev_string_involutive (s : string) :
  JS.rev_string "" (JS.rev_string "" s) = s.
Proof.
  induction s as [|c r IH]; simpl; [reflexivity|].
  rewrite (rev_string_app (String c "")), rev_string_append, IH.
  reflexivity.
Qed.

Lemma all_chars_rev (p : ascii -> bool) (s : string) :
  JS.all_chars p (JS.rev_string "" s) = JS.all_chars p s.
Proof.
  induction s as [|c r IH]; simpl; [reflexivity|].
  rewrite (rev_string_app (String c "")), all_chars_app, IH. simpl.
  rewrite andb_true_r. apply andb_comm.
Qed.

Lemma trimStart_no_space (s : string) :
  JS.all_chars not_space s = true -> JS.trimStart s = s.
Proof.
  destruct s as [|c r]; simpl; [reflexivity|].
  unfold not_space at 1. rewrite andb_true_iff, negb_true_iff.
  now intros [-> _].
Qed.

(** A string without white space is its own trimming. *)
Lemma trim_no_space (s : string) :
  JS.all_chars not_space s = true -> JS.trim s = s.
Proof.
  intros H. unfold JS.trim, JS.trimEnd.
  rewrite (trimStart_no_space s H).
  rewrite trimStart_no_space by now rewrite all_chars_rev.
  apply rev_string_involutive.
Qed.

Ltac by_cases_on_char c :=
  destruct c as [[] [] [] [] [] [] [] []]; vm_compute; congruence.

Lemma path_char_not_space (c : ascii) :
  PlainUrl.path_char c = true -> not_space c = true.
Proof. by_cases_on_char c. Qed.

Lemma host_char_not_space (c : ascii) :
  PlainUrl.host_char c || Ascii.eqb c "." = true -> not_space c = true.
Proof. by_cases_on_char c. Qed.

Lemma host_char_not_slash (c : ascii) :
  PlainUrl.host_char c || Ascii.eqb c "." = true -> Ascii.eqb c "/" = false.
Proof. by_cases_on_char c. Qed.

Lemma lower_is_host_char (c : ascii) :
  JS.is_lower c = true -> PlainUrl.host_char c || Ascii.eqb c "." = true.
Proof. by_cases_on_char c. Qed.

Lemma labels_ok_chars (b : bool) (h : string) :
  PlainUrl.labels_ok b h = true ->
  JS.all_chars (fun c => PlainUrl.host_char c || Ascii.eqb c ".") h = true.
Proof.
  revert b. induction h as [|c r IH]; intros b; simpl; [reflexivity|].
  destruct b.
  - rewrite andb_true_iff. intros [Hc Hr].
    rewrite (lower_is_host_char c Hc). simpl. eauto.
  - destruct (Ascii.eqb c ".") eqn:E.
    + rewrite orb_true_r. simpl. eauto.
    + rewrite andb_true_iff. intros [Hc Hr]. rewrite Hc. simpl. eauto.
Qed.

Lemma break_at_slash_app (h p : string) :
  JS.all_chars (fun c => PlainUrl.host_char c || Ascii.eqb c ".") h = true ->
  match p with EmptyString => true | String c _ => Ascii.eqb c "/" end = true ->
  PlainUrl.break_at_slash (h ++ p) = (h, p).
Proof.
  intros Hh Hp. induction h as [|c r IH]; simpl.
  - destruct p as [|c p]; simpl; [reflexivity|]. now rewrite Hp.
  - simpl in Hh. apply andb_true_iff in Hh. destruct Hh as [Hc Hr].
    rewrite (host_char_not_slash c Hc), (IH Hr). reflexivity.
Qed.

(** The shape of every record the reference parser returns. *)
Lemma parse_absolute_shape (s : string) (u : url) :
  PlainUrl.parse_absolute s = Some u ->
  exists scheme host path,
    (scheme = "http" \/ scheme = "https")
    /\ PlainUrl.host_ok host = true /\ PlainUrl.path_ok path = true
    /\ u = {| href := scheme ++ "://" ++ host
                      ++ (if JS.truthy path then path else "/");
              origin := scheme ++ "://" ++ host;
              hostname := host |}.
Proof.
  unfold PlainUrl.parse_absolute, PlainUrl.strip_scheme.
  destruct (JS.startsWith "https://" s).
  - destruct (PlainUrl.break_at_slash _) as [host path].
    destruct (PlainUrl.host_ok host) eqn:Hh; [|discriminate].
    destruct (PlainUrl.path_ok path) eqn:Hp; [|discriminate].
    simpl. intros [= <-]. exists "https", host, path. auto.
  - destruct (JS.startsWith "http://" s); [|discriminate].
    destruct (PlainUrl.break_at_slash _) as [host path].
    destruct (PlainUrl.host_ok host) eqn:Hh; [|discriminate].
    destruct (PlainUrl.path_ok path) eqn:Hp; [|discriminate].
    simpl. intros [= <-]. exists "http", host, path. auto.
Qed.

Lemma parse_from_absolute (s : string) (b : option string) (u : url) :
  PlainUrl.parse s b = Some u ->
  exists s', PlainUrl.parse_absolute s' = Some u.
Proof.
  unfold PlainUrl.parse. destruct b as [b|]; [|eauto].
  destruct (PlainUrl.parse_absolute b) as [bu|]; [|discriminate].
  destruct (PlainUrl.parse_absolute s) as [u'|] eqn:E.
  - intros [= <-]. eauto.
  - destruct (JS.startsWith "//" s); [eauto|].
    destruct (JS.startsWith "/" s); [eauto|].
    destruct (JS.truthy s && _); [|discriminate].
    destruct (PlainUrl.dir_of (href bu)); [eauto|discriminate].
Qed.

Lemma path_ok_slash_or_same (path : string) :
  PlainUrl.path_ok path = true ->
  let path' := if JS.truthy path then path else "/" in
  PlainUrl.path_ok path' = true /\ JS.truthy path' = true
  /\ match path' with EmptyString => true | String c _ => Ascii.eqb c "/" end = true.
Proof.
  destruct path as [|c r]; simpl.
  - intros _. repeat split.
  - intros H. repeat split; [exact H|].
    unfold PlainUrl.path_ok in H. apply andb_true_iff in H.
    destruct H as [H _]. apply andb_true_iff in H. tauto.
Qed.

Lemma parse_absolute_reparses (s : string) (u : url) :
  PlainUrl.parse_absolute s = Some u ->
  PlainUrl.parse_absolute (href u) = Some u.
Proof.
  intros H. destruct (parse_absolute_shape s u H)
    as (scheme & host & path & Hs & Hh & Hp & ->).
  destruct (path_ok_slash_or_same path Hp) as (Hp' & Ht & Hslash).
  simpl in *. set (path' := if JS.truthy path then path else "/") in *.
  assert (Hchars : JS.all_chars (fun c => PlainUrl.host_char c || Ascii.eqb c ".")
                     host = true).
  { unfold PlainUrl.host_ok in Hh. apply andb_true_iff in Hh.
    eapply labels_ok_chars. apply Hh. }
  unfold PlainUrl.parse_absolute, PlainUrl.strip_scheme.
  destruct Hs as [-> | ->]; simpl;
    rewrite (break_at_slash_app host path' Hchars Hslash), Hh, Hp', Ht;
    reflexivity.
Qed.

Lemma parse_absolute_no_space (s : string) (u : url) :
  PlainUrl.parse_absolute s = Some u ->
  JS.all_chars not_space (href u) = true.
Proof.
  intros H. destruct (parse_absolute_shape s u H)
    as (scheme & host & path & Hs & Hh & Hp & ->).
  simpl.
  assert (Hhost : JS.all_chars not_space host = true).
  { unfold PlainUrl.host_ok in Hh. apply andb_true_iff in Hh.
    eapply all_chars_weaken; [apply host_char_not_space|].
    eapply labels_ok_chars. apply Hh. }
  assert (Hpath : JS.all_chars not_space (if JS.truthy path then path else "/")
                  = true).
  { destruct path as [|c r]; [reflexivity|].
    unfold PlainUrl.path_ok in Hp. apply andb_true_iff in Hp.
    destruct Hp as [Hp _]. apply andb_true_iff in Hp. destruct Hp as [_ Hp].
    eapply all_chars_weaken; [apply path_char_not_space|exact Hp]. }
  destruct Hs as [-> | ->]; simpl; rewrite all_chars_app, Hhost, Hpath;
    reflexivity.
Qed.

Lemma plain_url_laws : UrlLaws plain_url.
Proof.
  constructor; simpl.
  - intros s b u H. destruct (parse_from_absolute s b u H) as [s' H'].
    now apply parse_absolute_reparses with s'.
  - intros s b u H. destruct (parse_from_absolute s b u H) as [s' H'].
    destruct (parse_absolute_shape s' u H')
      as (scheme & host & path & [-> | ->] & _ & _ & ->); reflexivity.
  - intros s b u H. destruct (parse_from_absolute s b u H) as [s' H'].
    apply trim_no_space. now apply parse_absolute_no_space with s'.
  - intros s u H _.
    destruct (parse_absolute_shape s u H)
      as (scheme & host & path & [-> | ->] & _ & _ & ->); simpl; eauto.
Qed.

Lemma served_settles (site : list (string * outcome string)) :
  NetworkLaws (served site).
Proof. constructor. intros reqs. apply Permutation_refl. Qed.

(** ** Logo *)

Lemma find_split {A : Type} (f : A -> bool) (l : list A) (x : A) :
  find f l = Some x ->
  exists before after,
    l = (before ++ x :: after)%list
    /\ Forall (fun a => f a = false) before /\ f x = true.
Proof.
  induction l as [|a r IH]; simpl; [discriminate|].
  destruct (f a) eqn:E.
  - intros [= <-]. exists [], r. auto.
  - intros H. destruct (IH H) as (before & after & -> & Hb & Hx).
    exists (a :: before), after. auto.
Qed.

Lemma find_some_if_any {A : Type} (f : A -> bool) (l : list A) (x : A) :
  In x l -> f x = true -> exists y, find f l = Some y.
Proof.
  induction l as [|a r IH]; simpl; [tauto|].
  intros [->|Hin] Hx.
  - rewrite Hx. eauto.
  - destruct (f a); eauto.
Qed.

Lemma truthy_append_r (a b : string) : JS.truthy b = true -> JS.truthy (a ++ b) = true.
Proof. destruct a; simpl; auto. Qed.

Section Logo.

Context {U : UrlApi} {L : UrlLaws U}.

Lemma resolveUrl_truthy (base relative : string) :
  resolveUrl base relative = None
  \/ exists h, resolveUrl base relative = Some h /\ JS.truthy h = true.
Proof.
  unfold resolveUrl. destruct (negb (JS.truthy relative)); [now left|].
  destruct (url_parse relative (Some base)) as [u|] eqn:E; [|now left].
  right. exists (href u). split; [reflexivity|].
  eapply href_truthy; eauto.
Qed.

Lemma resolveUrl_resolved (base relative : string) (u : url) :
  relative <> "" -> url_parse relative (Some base) = Some u ->
  resolveUrl base relative = Some (href u).
Proof.
  intros Hne Hp. unfold resolveUrl. rewrite Hp.
  destruct relative; [congruence|reflexivity].
Qed.

Lemma url_sound_resolved (base relative source : string) (p : Z) :
  url_sound {| c_url := resolveUrl base relative; c_source := source;
               c_priority := p |}.
Proof. apply resolveUrl_truthy. Qed.

Ltac candidate_cases H :=
  repeat match type of H with
    | In _ (_ ++ _)%list => apply in_app_or in H; destruct H as [H|H]
    | In _ (flat_map _ _) =>
        let el := fresh "el" in
        apply in_flat_map in H; destruct H as (el & _ & H)
    | In _ (match ?o with Some _ => _ | None => _ end) => destruct o
    | In _ (if ?b then _ else _) => destruct b
    | In _ [_] => destruct H as [<-|[]]
    | In _ [] => destruct H
    end.

Lemma later_candidates_priority (doc : Dom.document) (baseUrl : string)
  (c : candidate) :
  In c (twitter_candidates doc baseUrl ++ touch_icon_candidates doc baseUrl
        ++ img_candidates doc baseUrl ++ svg_candidates doc
        ++ favicon_candidates doc baseUrl)%list ->
  (2 <= c_priority c)%Z.
Proof.
  unfold twitter_candidates, touch_icon_candidates, img_candidates,
    svg_candidates, favicon_candidates.
  intros H. candidate_cases H; simpl; lia.
Qed.

Lemma signal_candidates_sound (doc : Dom.document) (baseUrl : string)
  (c : candidate) :
  In c (signal_candidates doc baseUrl) -> url_sound c.
Proof.
  unfold signal_candidates, og_candidates, twitter_candidates,
    touch_icon_candidates, img_candidates, svg_candidates, favicon_candidates.
  intros H. candidate_cases H;
    solve [apply url_sound_resolved | now left].
Qed.

Lemma fallback_sound (parsed : url) :
  url_sound (fallback_candidate parsed)
  /\ truthy_opt (c_url (fallback_candidate parsed)) = true.
Proof.
  assert (T : JS.truthy (origin parsed ++ "/favicon.ico") = true)
    by now apply truthy_append_r.
  split; [right; eexists; split; [reflexivity|exact T]|exact T].
Qed.

Lemma truthy_opt_sound (c : candidate) :
  url_sound c -> (truthy_opt (c_url c) = false <-> c_url c = None).
Proof.
  intros [H|(h & H & T)]; rewrite H; simpl.
  - tauto.
  - rewrite T. split; discriminate.
Qed.

Lemma extractLogo_unfold (doc : Dom.document) (baseUrl : string) (base : url) :
  url_parse baseUrl None = Some base ->
  extractLogo doc baseUrl
  = Return (find (fun c => truthy_opt (c_url c))
              (JS.sort by_priority
                 (signal_candidates doc baseUrl ++ [fallback_candidate base]))).
Proof.
  intros Hb. unfold extractLogo, new_URL. rewrite Hb. reflexivity.
Qed.

(** C4, as amended: when the first [og:image] meta element has a content
    that is not empty and resolves against the base address, the candidate
    [extractLogo] chooses is that one: priority 1, source [og:image], the
    resolved address, whatever other logo signals the page has. *)
Theorem extractLogo_prefers_og_image (doc : Dom.document) (baseUrl ogImg : string)
  (base resolved : url) :
  url_parse baseUrl None = Some base ->
  Dom.first_attr "content" (Dom.select (meta_property "og:image") doc)
  = Some ogImg ->
  ogImg <> "" ->
  url_parse ogImg (Some baseUrl) = Some resolved ->
  extractLogo doc baseUrl
  = Return (Some {| c_url := Some (href resolved); c_source := "og:image";
                    c_priority := 1 |}).
Proof.
  intros Hb Hog Hne Hres.
  rewrite (extractLogo_unfold doc baseUrl base Hb).
  unfold signal_candidates at 1, og_candidates. rewrite Hog.
  replace (JS.truthy ogImg) with true by (destruct ogImg; [congruence|reflexivity]).
  rewrite (resolveUrl_resolved baseUrl ogImg resolved Hne Hres).
  simpl app. rewrite sort_least_first.
  - simpl. now rewrite (href_truthy _ _ _ Hres).
  - intros y Hy. unfold by_priority. cbn [c_priority].
    apply in_app_or in Hy. destruct Hy as [Hy|Hy].
    + pose proof (later_candidates_priority doc baseUrl y Hy). lia.
    + destruct Hy as [<-|[]]. cbn [c_priority fallback_candidate]. lia.
Qed.

(** C5: with a base address that parses, [extractLogo] adds the priority-7
    candidate whose address is the origin followed by [/favicon.ico], sorts
    the candidates by ascending priority and returns the first whose address
    is not [null]; the result is never [null]; and on a page without any logo
    signal it is that favicon candidate. *)
Theorem extractLogo_favicon_fallback (doc : Dom.document) (baseUrl : string)
  (base : url) :
  url_parse baseUrl None = Some base ->
  let fallback :=
    {| c_url := Some (origin base ++ "/favicon.ico");
       c_source := "favicon-fallback"; c_priority := 7 |} in
  let sorted :=
    JS.sort by_priority (signal_candidates doc baseUrl ++ [fallback]) in
  Permutation sorted (signal_candidates doc baseUrl ++ [fallback])
  /\ StronglySorted (fun a b => (c_priority a <= c_priority b)%Z) sorted
  /\ (exists before best after,
        sorted = (before ++ best :: after)%list
        /\ Forall (fun c => c_url c = None) before
        /\ c_url best <> None
        /\ extractLogo doc baseUrl = Return (Some best))
  /\ (no_logo_signals doc -> extractLogo doc baseUrl = Return (Some fallback)).
Proof.
  intros Hb fallback sorted.
  assert (Hperm : Permutation sorted (signal_candidates doc baseUrl ++ [fallback]))
    by apply sort_perm.
  assert (Hsound : forall c, In c sorted -> url_sound c).
  { intros c Hc. apply (Permutation_in _ Hperm) in Hc.
    apply in_app_or in Hc. destruct Hc as [Hc|[<-|[]]].
    - now apply signal_candidates_sound with doc baseUrl.
    - apply (fallback_sound base). }
  split; [exact Hperm|]. split.
  { eapply StronglySorted_weaken; [|apply sort_sorted].
    - intros a b H. unfold by_priority in H. lia.
    - intros a b. unfold by_priority. lia.
    - intros a b c. unfold by_priority. lia. }
  split.
  - assert (Hin : In fallback sorted).
    { apply (Permutation_in _ (Permutation_sym Hperm)).
      apply in_or_app. right. now left. }
    destruct (find_some_if_any (fun c => truthy_opt (c_url c)) sorted fallback Hin)
      as [best Hbest]; [apply (fallback_sound base)|].
    destruct (find_split _ _ _ Hbest) as (before & after & Hs & Hbefore & Ht).
    exists before, best, after. split; [exact Hs|]. split; [|split].
    + rewrite Forall_forall in *. intros c Hc.
      apply truthy_opt_sound; [|now apply Hbefore].
      apply Hsound. rewrite Hs. apply in_or_app. now left.
    + intros Hnone. rewrite Hnone in Ht. discriminate.
    + rewrite (extractLogo_unfold doc baseUrl base Hb). now rewrite <- Hbest.
  - intros (Hog & Htw & Htouch & Himg & Hsvg & Hicon & Hshort).
    rewrite (extractLogo_unfold doc baseUrl base Hb).
    assert (E : signal_candidates doc baseUrl = []).
    { unfold signal_candidates, og_candidates, twitter_candidates,
        touch_icon_candidates, img_candidates, svg_candidates,
        favicon_candidates.
      rewrite Hog, Htw, Htouch, Hicon, Hshort. simpl.
      assert (E1 : forall l base', Forall (fun el => is_logo_img el = false) l ->
                flat_map (fun el =>
                  let src := JS.opt_or (Dom.attr "src" el) "" in
                  let alt := lower_attr "alt" el in
                  let cls := lower_attr "class" el in
                  let id := lower_attr "id" el in
                  let isLogo :=
                    Regex.test Regex.flag_i logo_re src
                    || Regex.test Regex.no_flags logo_re alt
                    || Regex.test Regex.no_flags logo_re cls
                    || Regex.test Regex.no_flags logo_re id in
                  if isLogo && JS.truthy src
                  then [{| c_url := resolveUrl base' src;
                           c_source := "img[logo]"; c_priority := 4 |}]
                  else []) l = []).
      { induction 1 as [|el r Hel _ IH]; simpl; [reflexivity|].
        unfold is_logo_img in Hel. rewrite Hel. simpl. exact IH. }
      assert (E2 : forall l, Forall (fun el => is_logo_svg el = false) l ->
                flat_map (fun el =>
                  if Regex.test Regex.no_flags logo_re (lower_attr "class" el)
                  then [{| c_url := None; c_source := "inline-svg";
                           c_priority := 5 |}]
                  else []) l = []).
      { induction 1 as [|el r Hel _ IH]; simpl; [reflexivity|].
        unfold is_logo_svg in Hel. rewrite Hel. exact IH. }
      rewrite (E1 _ _ Himg), (E2 _ Hsvg). reflexivity. }
    rewrite E. simpl.
    replace (JS.truthy (origin base ++ "/favicon.ico")) with true
      by (symmetry; now apply truthy_append_r).
    reflexivity.
Qed.

End Logo.

(** C4, as stated, fails when the content does not resolve: the candidate is
    recorded with a [null] address and passed over.  Here the page holds an
    [og:image] with the content [http://], and the favicon fallback of
    priority 7 is chosen. *)
Lemma extractLogo_unresolvable_og_image :
  has_og_image broken_og_page
  /\ @extractLogo plain_url broken_og_page "https://example.com/"
     = Return (Some {| c_url := Some "https://example.com/favicon.ico";
                       c_source := "favicon-fallback"; c_priority := 7 |}).
Proof.
  split; [|vm_compute; reflexivity].
  exists (meta_tag "property" "og:image" "http://"), "http://".
  split; [|split; [reflexivity|discriminate]].
  vm_compute. now left.
Qed.

(** It fails as well when an earlier [og:image] element carries no content:
    [.attr('content')] reads the first element of the selection only. *)
Lemma extractLogo_reads_first_og_image :
  has_og_image double_og_page
  /\ @extractLogo plain_url double_og_page "https://example.com/"
     = Return (Some {| c_url := Some "https://example.com/favicon.ico";
                       c_source := "favicon-fallback"; c_priority := 7 |}).
Proof.
  split; [|vm_compute; reflexivity].
  exists (meta_tag "property" "og:image" "https://example.com/brand.png"),
    "https://example.com/brand.png".
  split; [|split; [reflexivity|discriminate]].
  vm_compute. right. now left.
Qed.

Lemma extractLogo_prefers_og_image_witness :
  @extractLogo plain_url branded_page "https://example.com/"
  = Return (Some {| c_url := Some "https://example.com/brand.png";
                    c_source := "og:image"; c_priority := 1 |}).
Proof.
  apply (@extractLogo_prefers_og_image plain_url plain_url_laws branded_page
           "https://example.com/" "/brand.png"
           {| href := "https://example.com/"; origin := "https://example.com";
              hostname := "example.com" |}
           {| href := "https://example.com/brand.png";
              origin := "https://example.com"; hostname := "example.com" |}).
  - vm_compute; reflexivity.
  - vm_compute; reflexivity.
  - discriminate.
  - vm_compute; reflexivity.
Defined.

Lemma bare_page_no_logo_signals : no_logo_signals bare_page.
Proof.
  unfold no_logo_signals.
  assert (Eimg : Dom.select [Dom.tag "img"] bare_page
                 = [Dom.Element "img" [("src", "/img/team.jpg"); ("alt", "The team")] []])
    by (vm_compute; reflexivity).
  assert (Esvg : Dom.select [Dom.tag "svg"] bare_page = [])
    by (vm_compute; reflexivity).
  rewrite Eimg, Esvg.
  split; [vm_compute; reflexivity|].
  split; [vm_compute; reflexivity|].
  split; [vm_compute; reflexivity|].
  split; [constructor; [vm_compute; reflexivity|constructor]|].
  split; [constructor|].
  split; vm_compute; reflexivity.
Qed.

Lemma extractLogo_favicon_fallback_witness :
  @extractLogo plain_url bare_page "https://example.com/about"
  = Return (Some {| c_url := Some "https://example.com/favicon.ico";
                    c_source := "favicon-fallback"; c_priority := 7 |}).
Proof.
  apply (@extractLogo_favicon_fallback plain_url plain_url_laws bare_page
           "https://example.com/about"
           {| href := "https://example.com/about";
              origin := "https://example.com"; hostname := "example.com" |}).
  - vm_compute; reflexivity.
  - exact bare_page_no_logo_signals.
Defined.

(** ** Fonts *)

Lemma set_add_keeps (x y : string) (l : list string) :
  In x l -> In x (JS.set_add y l).
Proof.
  unfold JS.set_add. destruct (existsb _ l); [auto|].
  intros H. apply in_or_app. now left.
Qed.

Lemma set_add_adds (x : string) (l : list string) : In x (JS.set_add x l).
Proof.
  unfold JS.set_add. destruct (existsb (String.eqb x) l) eqn:E.
  - apply existsb_exists in E. destruct E as (y & Hy & Heq).
    apply String.eqb_eq in Heq. now subst.
  - apply in_or_app. right. now left.
Qed.

Lemma fold_left_keeps {E : Type} (step : list string -> E -> list string)
  (x : string) (l : list E) (acc : list string) :
  (forall acc e, In x acc -> In x (step acc e)) ->
  In x acc -> In x (fold_left step l acc).
Proof.
  intros Hstep. revert acc. induction l as [|e r IH]; simpl; auto.
Qed.

Lemma fold_left_reaches {E : Type} (step : list string -> E -> list string)
  (x : string) (l : list E) (acc : list string) (e : E) :
  (forall acc e', In x acc -> In x (step acc e')) ->
  In e l -> (forall acc, In x (step acc e)) ->
  In x (fold_left step l acc).
Proof.
  intros Hstep Hin Hadd. revert acc.
  induction l as [|e' r IH]; simpl; [destruct Hin|].
  intros acc. destruct Hin as [->|Hin].
  - apply fold_left_keeps; auto.
  - auto.
Qed.

Lemma set_add_all_keeps (x : string) (xs l : list string) :
  In x l -> In x (JS.set_add_all xs l).
Proof.
  unfold JS.set_add_all. apply fold_left_keeps.
  intros acc e. apply set_add_keeps.
Qed.

Lemma set_add_all_adds (x : string) (xs l : list string) :
  In x xs -> In x (JS.set_add_all xs l).
Proof.
  intros H. unfold JS.set_add_all.
  apply fold_left_reaches with (e := x); auto.
  - intros acc e. apply set_add_keeps.
  - intros acc. apply set_add_adds.
Qed.

Lemma add_families_keeps (x param : string) (fonts : list string) :
  In x fonts -> In x (add_families param fonts).
Proof.
  unfold add_families. apply fold_left_keeps.
  intros acc e H. destruct (JS.truthy (family_name e)); [|exact H].
  now apply set_add_keeps.
Qed.

Lemma add_families_adds (param entry : string) (fonts : list string) :
  In entry (JS.split "|" param) -> family_name entry <> "" ->
  In (family_name entry) (add_families param fonts).
Proof.
  intros Hin Hne. unfold add_families.
  apply fold_left_reaches with (e := entry); auto.
  - intros acc e H. destruct (JS.truthy (family_name e)); [|exact H].
    now apply set_add_keeps.
  - intros acc. destruct (family_name entry); [congruence|].
    apply set_add_adds.
Qed.

(** The name of a family: the piece up to its first [:], every [+] replaced
    by a space, trimmed. *)
Lemma family_name_spec (entry : string) :
  family_name entry = JS.trim (plus_to_space (before_char ":" entry)).
Proof. unfold family_name. now rewrite replace_plus, split_head. Qed.

(** The families of the first [family=] value of every Google Fonts link are
    among the names [extractGoogleFonts] returns. *)
Lemma extractGoogleFonts_link_families (doc : Dom.document) (el : Dom.node)
  (param entry : string) :
  In el (Dom.select google_links doc) ->
  first_group family_re (JS.opt_or (Dom.attr "href" el) "") = Some param ->
  In entry (JS.split "|" param) ->
  family_name entry <> "" ->
  In (family_name entry) (extractGoogleFonts doc).
Proof.
  intros Hel Hparam Hentry Hne. unfold extractGoogleFonts.
  apply fold_left_keeps.
  { intros acc e H. apply fold_left_keeps; [|exact H].
    intros acc' m H'. destruct (first_group family_quoted_re _) as [fp|]; [|exact H'].
    destruct (JS.truthy fp); [|exact H']. now apply add_families_keeps. }
  apply fold_left_reaches with (e := el); [|exact Hel|].
  - intros acc e H.
    destruct (first_group family_re (JS.opt_or (Dom.attr "href" e) "")) as [fp|];
      [|exact H].
    destruct (JS.truthy fp); [|exact H]. now apply add_families_keeps.
  - intros acc. rewrite Hparam.
    destruct (JS.truthy param) eqn:T.
    + now apply add_families_adds.
    + destruct param; [|discriminate].
      simpl in Hentry. destruct Hentry as [<-|[]].
      exfalso. apply Hne. reflexivity.
Qed.

Section Fonts.

Context {U : UrlApi} {N : Network}.

(** Without requests nothing is fetched, whatever the network reports. *)
Lemma fetch_all_none {S : Type} (mk : nat -> channel)
  (absorb : string -> S -> S) (acc : S) :
  fetch_all mk [] absorb acc = Return acc.
Proof.
  unfold fetch_all, requests. simpl.
  induction (settle_order []) as [|i r IH]; simpl; [reflexivity|].
  destruct i; simpl; exact IH.
Qed.

(** C6, as amended: for every Google Fonts link of the document, the first
    [family=] value of its address is split on [|]; the name of each piece is
    the part before its first [:] with every [+] replaced by a space, trimmed;
    and the names that are not empty are among the fonts found.  On the page
    with the single
    link [https://fonts.googleapis.com/css?family=Roboto:400,700|Open+Sans]
    the fonts are Roboto and Open Sans, both Sans-Serif. *)
Theorem extractGoogleFonts_families :
  (forall doc el param entry,
     In el (Dom.select google_links doc) ->
     first_group family_re (JS.opt_or (Dom.attr "href" el) "") = Some param ->
     In entry (JS.split "|" param) ->
     family_name entry <> "" ->
     In (family_name entry) (extractGoogleFonts doc))
  /\ (forall entry,
        family_name entry = JS.trim (plus_to_space (before_char ":" entry)))
  /\ family_name "Roboto:400,700" = "Roboto"
  /\ family_name "Open+Sans" = "Open Sans"
  /\ extractGoogleFonts roboto_page = ["Roboto"; "Open Sans"]
  /\ (forall baseUrl,
        extractFonts roboto_page baseUrl
        = Return [sans "Roboto"; sans "Open Sans"]).
Proof.
  split; [exact extractGoogleFonts_link_families|].
  split; [exact family_name_spec|].
  split; [vm_compute; reflexivity|].
  split; [vm_compute; reflexivity|].
  split; [vm_compute; reflexivity|].
  intros baseUrl. unfold extractFonts, collectFonts, cssToFetch, cssUrls.
  replace (Dom.select (link_rel "stylesheet") roboto_page) with (@nil Dom.node)
    by (vm_compute; reflexivity).
  simpl flat_map. simpl firstn. rewrite fetch_all_none.
  vm_compute. reflexivity.
Qed.

End Fonts.

(** C6, as stated, fails for an address with several [family=] parameters:
    only the first value is read, so the second family is not found. *)
Lemma extractGoogleFonts_reads_first_family_value :
  family_values "https://fonts.googleapis.com/css2?family=Roboto&family=Lora"
  = ["Roboto"; "Lora"]
  /\ family_name "Lora" = "Lora"
  /\ extractGoogleFonts css2_page = ["Roboto"]
  /\ ~ In "Lora" (extractGoogleFonts css2_page).
Proof.
  assert (E : extractGoogleFonts css2_page = ["Roboto"]) by (vm_compute; reflexivity).
  rewrite E. repeat split; try (vm_compute; reflexivity).
  intros [H|[]]. discriminate.
Qed.

Lemma extractGoogleFonts_families_witness :
  In "Open Sans" (extractGoogleFonts roboto_page).
Proof.
  apply (proj1 (@extractGoogleFonts_families plain_url (served []))
           roboto_page
           (google_link "https://fonts.googleapis.com/css?family=Roboto:400,700|Open+Sans")
           "Roboto:400,700|Open+Sans" "Open+Sans").
  - vm_compute. now left.
  - vm_compute; reflexivity.
  - vm_compute. right. now left.
  - vm_compute. discriminate.
Defined.

(** ** URL normalisation *)


Lemma scheme_test_https (rest : string) :
  Regex.test Regex.flag_i scheme_re ("https://" ++ rest) = true.
Proof. reflexivity. Qed.

Lemma scheme_test_examples :
  map (Regex.test Regex.flag_i scheme_re)
    ["example.com"; "HTTPS://example.com"; "Http://example.com";
     "ftp://example.com"; "//example.com"; "http:/example.com";
     "see http://example.com"]
  = [false; true; true; false; false; false; false].
Proof. vm_compute; reflexivity. Qed.

Section Normalize.

Context {U : UrlApi} {L : UrlLaws U}.

(** The string [normalizeUrl] hands to the parser. *)
Lemma normalizeUrl_parses (x y : string) :
  normalizeUrl x = Return y ->
  exists s u,
    url_parse s None = Some u /\ href u = y
    /\ Regex.test Regex.flag_i scheme_re s = true.
Proof.
  unfold normalizeUrl, new_URL.
  destruct (Regex.test Regex.flag_i scheme_re (JS.trim x)) eqn:T; cbv [negb].
  - destruct (url_parse (JS.trim x) None) as [u|] eqn:P;
      cbv [bind try_catch]; [|discriminate].
    intros [= <-]. exists (JS.trim x), u. auto.
  - destruct (url_parse ("https://" ++ JS.trim x) None) as [u|] eqn:P;
      cbv [bind try_catch]; [|discriminate].
    intros [= <-]. exists ("https://" ++ JS.trim x), u.
    auto using scheme_test_https.
Qed.



End Normalize.


(** ** Style-sheet requests *)

Lemma fold_left_two_phase {S E : Type} (Q P : S -> Prop) (step : S -> E -> S)
  (l : list E) (acc : S) (e : E) :
  (forall a e', In e' l -> Q a -> Q (step a e')) ->
  (forall a e', In e' l -> P a -> P (step a e')) ->
  (forall a, Q a -> P (step a e)) ->
  In e l -> Q acc -> P (fold_left step l acc).
Proof.
  revert acc. induction l as [|e' r IH]; intros acc HQ HP Hat Hin Hacc;
    [destruct Hin|].
  simpl. destruct Hin as [->|Hin].
  - clear IH. assert (Hp : P (step acc e)) by auto.
    assert (HP' : forall a e', In e' r -> P a -> P (step a e'))
      by (intros; apply HP; [now right|assumption]).
    clear - Hp HP'. revert Hp. generalize (step acc e). 
    induction r as [|x r IH]; simpl; intros a Ha; [exact Ha|].
    apply IH; [intros; apply HP'; [now right|assumption]|].
    apply HP'; [now left|exact Ha].
  - apply IH; auto.
    + intros; apply HQ; [now right|assumption].
    + intros; apply HP; [now right|assumption].
    + apply HQ; [now left|assumption].
Qed.

Lemma fold_left_preserves {S E : Type} (P : S -> Prop) (step : S -> E -> S)
  (l : list E) (acc : S) :
  (forall a e, In e l -> P a -> P (step a e)) ->
  P acc -> P (fold_left step l acc).
Proof.
  revert acc. induction l as [|e r IH]; simpl; intros acc HP Hacc; [exact Hacc|].
  apply IH.
  - intros; apply HP; [now right|assumption].
  - apply HP; [now left|assumption].
Qed.

Lemma fold_left_ext {S E : Type} (f g : S -> E -> S) (l : list E) (acc : S) :
  (forall a e, f a e = g a e) -> fold_left f l acc = fold_left g l acc.
Proof.
  intros H. revert acc. induction l as [|e r IH]; simpl; intros acc;
    [reflexivity|].
  now rewrite H, IH.
Qed.

Lemma requests_nth_from (mk : nat -> channel) (urls : list string)
  (k i : nat) (address : string) :
  nth_error urls i = Some address ->
  nth_error (map (fun iu => (mk (fst iu), snd iu))
               (combine (seq k (List.length urls)) urls)) i
  = Some (mk (k + i)%nat, address).
Proof.
  revert k i. induction urls as [|u r IH]; intros k [|i]; simpl; try discriminate.
  - intros [= ->]. now rewrite Nat.add_0_r.
  - intros H. rewrite (IH (S k) i H). f_equal. f_equal. f_equal. lia.
Qed.

Lemma requests_nth (mk : nat -> channel) (urls : list string) (i : nat)
  (address : string) :
  nth_error urls i = Some address ->
  nth_error (requests mk urls) i = Some (mk i, address).
Proof. apply requests_nth_from. Qed.

Lemma requests_length (mk : nat -> channel) (urls : list string) :
  List.length (requests mk urls) = List.length urls.
Proof.
  unfold requests. rewrite length_map, length_combine, length_seq.
  apply Nat.min_id.
Qed.

Section Sheets.

Context {N : Network}.

(** [fetchCSS] always returns. *)
Lemma fetchCSS_returns (ch : channel) (address : string) :
  fetchCSS ch address = Return (sheet_text ch address).
Proof.
  unfold fetchCSS, sheet_text.
  destruct (axios_get ch address _); simpl; [|reflexivity].
  now rewrite or_else_empty.
Qed.

Lemma fetch_all_returns {S : Type} (mk : nat -> channel) (urls : list string)
  (absorb : string -> S -> S) (acc : S) :
  fetch_all mk urls absorb acc
  = Return (fold_left (settle_step (requests mk urls) absorb)
              (settle_order (requests mk urls)) acc).
Proof.
  unfold fetch_all. generalize (settle_order (requests mk urls)) as order.
  intros order. revert acc.
  induction order as [|i r IH]; intros acc; simpl; [reflexivity|].
  unfold settle_step at 2.
  destruct (nth_error (requests mk urls) i) as [[ch address]|]; simpl.
  - rewrite fetchCSS_returns. simpl. apply IH.
  - apply IH.
Qed.

End Sheets.

Lemma sheet_text_recovered (N : Network) (ch : channel) (address : string) :
  @sheet_text (recovered N) ch address = @sheet_text N ch address.
Proof.
  unfold sheet_text, recovered. simpl.
  destruct ch; destruct (axios_get _ address css_config); reflexivity.
Qed.

Lemma fetch_all_recovered (N : Network) {S : Type}
  (mk : nat -> channel) (urls : list string) (absorb : string -> S -> S)
  (acc : S) :
  @fetch_all (recovered N) S mk urls absorb acc
  = @fetch_all N S mk urls absorb acc.
Proof.
  rewrite (@fetch_all_returns (recovered N)), (@fetch_all_returns N).
  f_equal. simpl. apply fold_left_ext. intros a i. unfold settle_step.
  destruct (nth_error (requests mk urls) i) as [[ch address]|]; [|reflexivity].
  now rewrite sheet_text_recovered.
Qed.

(** ** The colour map *)

Lemma map_get_set {V : Type} (k k' : string) (v : V) (m : list (string * V)) :
  JS.map_get k' (JS.map_set k v m)
  = if String.eqb k' k then Some v else JS.map_get k' m.
Proof.
  induction m as [|[k0 v0] r IH]; simpl.
  - destruct (String.eqb k' k); reflexivity.
  - destruct (String.eqb_spec k k0) as [->|Hk]; simpl.
    + destruct (String.eqb k' k0); reflexivity.
    + rewrite IH. destruct (String.eqb_spec k' k0) as [->|Hk'].
      * destruct (String.eqb_spec k0 k); [congruence|reflexivity].
      * reflexivity.
Qed.

Lemma weight_bump (k k' : string) (w : Z) (m : list (string * Z)) :
  weight k' (bump k w m)
  = (weight k' m + if String.eqb k' k then w else 0)%Z.
Proof.
  unfold weight, bump. rewrite map_get_set.
  destruct (String.eqb_spec k' k) as [->|Hk]; [|lia].
  destruct (JS.map_get k m) as [n|]; [|lia].
  destruct (Z.eqb_spec n 0); lia.
Qed.

Lemma map_set_positive (k : string) (v : Z) (m : list (string * Z)) :
  (0 < v)%Z -> positive_map m -> positive_map (JS.map_set k v m).
Proof.
  intros Hv. unfold positive_map.
  induction 1 as [|[k0 v0] r H0 Hr IH]; simpl.
  - repeat constructor. exact Hv.
  - destruct (String.eqb k k0); constructor; auto.
Qed.

Lemma map_get_positive (k : string) (n : Z) (m : list (string * Z)) :
  positive_map m -> JS.map_get k m = Some n -> (0 < n)%Z.
Proof.
  unfold positive_map. induction 1 as [|[k0 v0] r H0 Hr IH]; simpl;
    [discriminate|].
  destruct (String.eqb k k0); [now intros [= <-]|exact IH].
Qed.

Lemma bump_positive (k : string) (w : Z) (m : list (string * Z)) :
  (0 < w)%Z -> positive_map m -> positive_map (bump k w m).
Proof.
  intros Hw Hm. unfold bump. apply map_set_positive; [|exact Hm].
  destruct (JS.map_get k m) as [n|] eqn:E; [|exact Hw].
  pose proof (map_get_positive k n m Hm E).
  destruct (Z.eqb_spec n 0); lia.
Qed.

Lemma count_color_positive (w : Z) (value : string) (m : list (string * Z)) :
  (0 < w)%Z -> positive_map m -> positive_map (count_color w value m).
Proof.
  intros Hw Hm. unfold count_color.
  destruct (normalizeColor value) as [hex|]; [|exact Hm].
  destruct (JS.truthy hex && negb (isBlackOrWhite hex)); [|exact Hm].
  now apply bump_positive.
Qed.

(** Every weight [extractColorsFromCSS] records is positive. *)
Lemma extractColorsFromCSS_positive (cssText : string) :
  positive_map (extractColorsFromCSS cssText).
Proof.
  unfold extractColorsFromCSS.
  apply fold_left_preserves.
  { intros a e _. apply count_color_positive. lia. }
  apply fold_left_preserves.
  { intros a e _. apply count_color_positive. lia. }
  constructor.
Qed.

Lemma merge_map_grows (hex : string) (c : Z) (src acc : list (string * Z)) :
  positive_map src -> (c <= weight hex acc)%Z ->
  (c <= weight hex (merge_map src acc))%Z.
Proof.
  intros Hsrc Hc. unfold merge_map.
  apply fold_left_preserves; [|exact Hc].
  intros a e He Ha. rewrite weight_bump.
  unfold positive_map in Hsrc. rewrite Forall_forall in Hsrc.
  specialize (Hsrc e He). destruct (String.eqb hex (fst e)); lia.
Qed.

Lemma merge_map_adds (hex : string) (w c : Z) (src acc : list (string * Z)) :
  positive_map src -> In (hex, w) src -> (c <= weight hex acc)%Z ->
  (c + w <= weight hex (merge_map src acc))%Z.
Proof.
  intros Hsrc Hin Hc. unfold merge_map.
  unfold positive_map in Hsrc. rewrite Forall_forall in Hsrc.
  apply fold_left_two_phase
    with (Q := fun a => (c <= weight hex a)%Z) (e := (hex, w)); auto.
  - intros a e He Ha. rewrite weight_bump.
    specialize (Hsrc e He). destruct (String.eqb hex (fst e)); lia.
  - intros a e He Ha. rewrite weight_bump.
    specialize (Hsrc e He). destruct (String.eqb hex (fst e)); lia.
  - intros a Ha. rewrite weight_bump. simpl. rewrite String.eqb_refl. lia.
Qed.

Lemma weight_present (hex : string) (w : Z) (m : list (string * Z)) :
  (0 < w)%Z -> (w <= weight hex m)%Z ->
  exists w', JS.map_get hex m = Some w' /\ (w <= w')%Z.
Proof.
  unfold weight. destruct (JS.map_get hex m) as [n|]; [eauto|lia].
Qed.

(** ** The style blocks and the linked style sheets of a page

    The selections of the source, read off the elements of the document. *)

Lemma node_induction (P : Dom.node -> Prop) :
  (forall d, P (Dom.Text d)) ->
  (forall t a cs, Forall P cs -> P (Dom.Element t a cs)) ->
  forall n, P n.
Proof.
  intros HT HE. fix IH 1. intros [t a cs|d]; [|apply HT].
  apply HE. induction cs as [|c cs IHcs]; constructor; [apply IH|exact IHcs].
Qed.

Lemma filter_flat_map {A B : Type} (p : B -> bool) (f : A -> list B)
  (l : list A) :
  filter p (flat_map f l) = flat_map (fun x => filter p (f x)) l.
Proof.
  induction l as [|x r IH]; simpl; [reflexivity|].
  now rewrite filter_app, IH.
Qed.

Lemma flat_map_Forall_ext {A B : Type} (f g : A -> list B) (l : list A) :
  Forall (fun x => f x = g x) l -> flat_map f l = flat_map g l.
Proof.
  induction 1 as [|x r Hx _ IH]; simpl; [reflexivity|]. now rewrite Hx, IH.
Qed.

Lemma select_in_single (s : Dom.simple)
  (anc : list (string * list (string * string))) (n : Dom.node) :
  Dom.select_in [s] anc n = filter (element_holds s) (elements_in n).
Proof.
  revert anc. induction n as [d|t a cs IH] using node_induction; intros anc.
  - reflexivity.
  - cbn [Dom.select_in elements_in filter element_holds].
    unfold Dom.matches. cbn [rev app Dom.ancestors_hold].
    rewrite andb_true_r, filter_flat_map.
    rewrite (flat_map_Forall_ext
               (Dom.select_in [s] ((t, a) :: anc))
               (fun x => filter (element_holds s) (elements_in x)) cs).
    + now destruct (Dom.simple_holds s (t, a)).
    + eapply Forall_impl; [|exact IH]. intros c Hc. apply Hc.
Qed.

Lemma select_single (s : Dom.simple) (doc : Dom.document) :
  Dom.select [s] doc = filter (element_holds s) (elements doc).
Proof.
  unfold Dom.select, elements. rewrite filter_flat_map.
  apply flat_map_ext. intros n. apply select_in_single.
Qed.

Lemma inline_styles_are_style_blocks (doc : Dom.document) :
  inline_styles doc = style_blocks doc.
Proof.
  unfold inline_styles, style_blocks. rewrite select_single. f_equal.
  apply filter_ext. intros [t a cs|d]; [|reflexivity].
  unfold element_holds, Dom.simple_holds. cbn.
  now rewrite andb_true_r, String.eqb_sym.
Qed.

Lemma length_map_string (f : ascii -> ascii) (s : string) :
  String.length (JS.map_string f s) = String.length s.
Proof. induction s as [|c r IH]; simpl; congruence. Qed.

Lemma rel_is (a : list (string * string)) (v : string) :
  JS.toLowerCase v = v ->
  Dom.test_holds a (Dom.AttrIs "rel" v)
  = match Dom.attr_of "rel" a with
    | Some r => String.eqb (JS.toLowerCase r) v
    | None => false
    end.
Proof.
  intros Hv. cbn [Dom.test_holds].
  destruct (Dom.attr_of "rel" a) as [r|]; [|reflexivity].
  change (Dom.shouldIgnoreCase "rel") with true. cbv iota. rewrite Hv.
  destruct (String.eqb_spec (JS.toLowerCase r) v) as [E|E];
    [|apply andb_false_r].
  rewrite andb_true_r. apply Nat.eqb_eq.
  rewrite <- E. unfold JS.toLowerCase. now rewrite length_map_string.
Qed.

Lemma stylesheet_links_selected (doc : Dom.document) :
  Dom.select (link_rel "stylesheet") doc
  = filter is_stylesheet_link (elements doc).
Proof.
  unfold link_rel. rewrite select_single. apply filter_ext.
  intros [t a cs|d]; [|reflexivity].
  unfold element_holds, Dom.simple_holds, is_stylesheet_link.
  cbn [Dom.s_tag Dom.s_tests Dom.tag_with fst snd forallb tag_of Dom.attr].
  rewrite andb_true_r, rel_is by reflexivity.
  now rewrite String.eqb_sym.
Qed.

Lemma somes_map {A B : Type} (f : A -> option B) (l : list A) :
  somes (map f l)
  = flat_map (fun x => match f x with Some b => [b] | None => [] end) l.
Proof.
  induction l as [|x r IH]; simpl; [reflexivity|].
  destruct (f x); simpl; now rewrite IH.
Qed.

Lemma flat_map_flat_map {A B C : Type} (f : A -> list B) (g : B -> list C)
  (l : list A) :
  flat_map g (flat_map f l) = flat_map (fun x => flat_map g (f x)) l.
Proof.
  induction l as [|x r IH]; simpl; [reflexivity|].
  now rewrite flat_map_app, IH.
Qed.

Lemma cssToFetch_are_linked_sheets `{UrlApi} (doc : Dom.document)
  (baseUrl : string) :
  cssToFetch doc baseUrl = linked_sheets doc baseUrl.
Proof.
  unfold cssToFetch, cssUrls, linked_sheets.
  rewrite stylesheet_links_selected, flat_map_flat_map, somes_map. f_equal.
  apply flat_map_ext. intros el. unfold sheet_address, resolveUrl.
  destruct (Dom.attr "href" el) as [[|c h]|]; [reflexivity| |reflexivity].
  cbn [JS.truthy negb String.eqb flat_map app].
  destruct (url_parse (String c h) (Some baseUrl)) as [u|]; [|reflexivity].
  destruct (href u); reflexivity.
Qed.

Lemma kept_by_firstn {A : Type} (x : A) (n : nat) (l : list A) :
  In x l -> In x (firstn n l) \/ List.length (firstn n l) = n.
Proof.
  intros Hx. destruct (Nat.le_gt_cases (List.length l) n) as [Hl|Hl].
  - left. now rewrite firstn_all2.
  - right. rewrite length_firstn. lia.
Qed.

Lemma sorted_cut {A : Type} (R : A -> A -> Prop) (x : A) (n : nat) (l : list A) :
  StronglySorted R l -> In x l ->
  In x (firstn n l)
  \/ (List.length (firstn n l) = n /\ Forall (fun y => R y x) (firstn n l)).
Proof.
  intros Hs. revert n. induction Hs as [|a l Hs IH Hall]; intros n Hx.
  - destruct Hx.
  - destruct n as [|n]; [right; split; [reflexivity|constructor]|].
    destruct Hx as [<-|Hx]; [left; now left|].
    destruct (IH n Hx) as [Hin|[Hlen Hf]].
    + left. now right.
    + right. simpl. split; [now rewrite Hlen|].
      constructor; [|exact Hf]. rewrite Forall_forall in Hall. now apply Hall.
Qed.

Lemma map_get_In {V : Type} (k : string) (v : V) (m : list (string * V)) :
  JS.map_get k m = Some v -> In (k, v) m.
Proof.
  induction m as [|[k' v'] r IH]; simpl; [discriminate|].
  destruct (String.eqb_spec k k') as [->|_].
  - intros [= ->]. now left.
  - intros H. right. now apply IH.
Qed.

(** A font of the collected set is in the result unless the result is full. *)
Lemma firstn_keeps_font (f : string) (collected : list string) :
  In f collected -> font_kept f (map to_entry (firstn 6 collected)).
Proof.
  intros H. unfold font_kept. rewrite map_map, length_map.
  change (fun x => f_name (to_entry x)) with (fun x : string => x).
  rewrite map_id. now apply kept_by_firstn.
Qed.

(** A colour of the map is in the result unless eight colours that weigh as
    much are. *)
Lemma rankColors_keeps (colorMap : list (string * Z)) (hex' : string)
  (w w' : Z) :
  JS.map_get hex' colorMap = Some w' -> (w <= w')%Z ->
  color_kept hex' w (rankColors colorMap).
Proof.
  intros Hget Hw. apply map_get_In in Hget.
  set (ranked := JS.sort (fun a b => (snd b - snd a)%Z) colorMap).
  assert (Hsorted : StronglySorted (fun a b : string * Z => (snd b <= snd a)%Z)
                      ranked).
  { eapply StronglySorted_weaken; [|apply sort_sorted].
    - intros a b H. simpl in H. lia.
    - intros a b. lia.
    - intros a b c. lia. }
  assert (Hin : In (hex', w') ranked).
  { apply (Permutation_in _ (Permutation_sym (sort_perm _ _ _))). exact Hget. }
  pose proof (rankColors_entries colorMap) as E. fold ranked in E.
  destruct (sorted_cut _ _ 8 _ Hsorted Hin) as [H|[Hlen Hall]].
  - left. rewrite <- E in H. apply in_map_iff in H.
    destruct H as (c & Hc & Hcin). exists c. split; [exact Hcin|].
    unfold entry_of in Hc. injection Hc as -> ->. split; [reflexivity|exact Hw].
  - right. rewrite <- E in Hlen, Hall. rewrite length_map in Hlen.
    split; [exact Hlen|]. rewrite Forall_map in Hall.
    eapply Forall_impl; [|exact Hall]. intros c Hc. simpl in Hc. lia.
Qed.

(** ** Failing style sheets *)

Section Isolation.

Context {U : UrlApi} {N : Network}.

Lemma collectFonts_returns (doc : Dom.document) (baseUrl : string) :
  collectFonts doc baseUrl
  = Return
      (fold_left
         (settle_step (requests FontSheet (cssToFetch doc baseUrl))
            (fun text fonts => JS.set_add_all (extractFontsFromCSS text) fonts))
         (settle_order (requests FontSheet (cssToFetch doc baseUrl)))
         (fold_left
            (fun fonts css => JS.set_add_all (extractFontsFromCSS css) fonts)
            (inline_styles doc)
            (JS.set_add_all (extractGoogleFonts doc) []))).
Proof. unfold collectFonts. apply fetch_all_returns. Qed.

Lemma accumulateColors_returns (doc : Dom.document) (baseUrl : string) :
  accumulateColors doc baseUrl
  = Return
      (fold_left
         (settle_step (requests ColorSheet (cssToFetch doc baseUrl))
            (fun text colorMap => merge_map (extractColorsFromCSS text) colorMap))
         (settle_order (requests ColorSheet (cssToFetch doc baseUrl)))
         (fold_left
            (fun colorMap css => merge_map (extractColorsFromCSS css) colorMap)
            (inline_styles doc) [])).
Proof. unfold accumulateColors. apply fetch_all_returns. Qed.

Lemma extractFonts_recovered (doc : Dom.document) (baseUrl : string) :
  @extractFonts U (recovered N) doc baseUrl = extractFonts doc baseUrl.
Proof.
  unfold extractFonts, collectFonts. now rewrite fetch_all_recovered.
Qed.

Lemma extractColors_recovered (doc : Dom.document) (baseUrl : string) :
  @extractColors U (recovered N) doc baseUrl = extractColors doc baseUrl.
Proof.
  unfold extractColors, accumulateColors. now rewrite fetch_all_recovered.
Qed.

Context {NL : NetworkLaws N}.

Lemma settled (mk : nat -> channel) (urls : list string) (i : nat)
  (address : string) :
  nth_error urls i = Some address ->
  In i (settle_order (requests mk urls))
  /\ nth_error (requests mk urls) i = Some (mk i, address).
Proof.
  intros H. split; [|now apply requests_nth].
  apply (Permutation_in _ (Permutation_sym (settles_all (requests mk urls)))).
  apply in_seq. rewrite requests_length.
  assert (i < List.length urls)%nat by (apply nth_error_Some; congruence).
  lia.
Qed.

Lemma sheet_text_success (ch : channel) (address data : string) :
  axios_get ch address css_config = Return data -> sheet_text ch address = data.
Proof. unfold sheet_text. now intros ->. Qed.

Lemma fonts_of_inline_style (doc : Dom.document) (baseUrl css f : string)
  (collected : list string) :
  collectFonts doc baseUrl = Return collected ->
  In css (inline_styles doc) -> In f (extractFontsFromCSS css) ->
  In f collected.
Proof.
  rewrite collectFonts_returns. intros [= <-] Hcss Hf.
  apply fold_left_preserves.
  { intros a i _ Ha. unfold settle_step.
    destruct (nth_error _ i) as [[ch address]|]; [|exact Ha].
    now apply set_add_all_keeps. }
  apply fold_left_two_phase with (Q := fun _ => True) (e := css); auto.
  - intros a e _ Ha. now apply set_add_all_keeps.
  - intros a _. now apply set_add_all_adds.
Qed.

Lemma fonts_of_fetched_sheet (doc : Dom.document) (baseUrl : string) (i : nat)
  (address data f : string) (collected : list string) :
  collectFonts doc baseUrl = Return collected ->
  nth_error (cssToFetch doc baseUrl) i = Some address ->
  axios_get (FontSheet i) address css_config = Return data ->
  In f (extractFontsFromCSS data) ->
  In f collected.
Proof.
  rewrite collectFonts_returns. intros [= <-] Hi Hget Hf.
  destruct (settled FontSheet _ i address Hi) as [Hin Hreq].
  apply fold_left_two_phase with (Q := fun _ => True) (e := i); auto.
  - intros a j _ Ha. unfold settle_step.
    destruct (nth_error _ j) as [[ch address']|]; [|exact Ha].
    now apply set_add_all_keeps.
  - intros a _. unfold settle_step. rewrite Hreq.
    rewrite (sheet_text_success _ _ _ Hget). now apply set_add_all_adds.
Qed.

Lemma settle_step_colors_grow (reqs : list (channel * string)) (hex : string)
  (c : Z) (a : list (string * Z)) (j : nat) :
  (c <= weight hex a)%Z ->
  (c <= weight hex
          (settle_step reqs
             (fun text colorMap => merge_map (extractColorsFromCSS text) colorMap)
             a j))%Z.
Proof.
  intros Ha. unfold settle_step.
  destruct (nth_error reqs j) as [[ch address]|]; [|exact Ha].
  apply merge_map_grows; [apply extractColorsFromCSS_positive|exact Ha].
Qed.

Lemma colors_of_inline_style (doc : Dom.document) (baseUrl css hex : string)
  (w : Z) (colorMap : list (string * Z)) :
  accumulateColors doc baseUrl = Return colorMap ->
  In css (inline_styles doc) -> In (hex, w) (extractColorsFromCSS css) ->
  exists w', JS.map_get hex colorMap = Some w' /\ (w <= w')%Z.
Proof.
  rewrite accumulateColors_returns. intros [= <-] Hcss Hin.
  pose proof (extractColorsFromCSS_positive css) as Hpos.
  assert (Hw : (0 < w)%Z).
  { unfold positive_map in Hpos. rewrite Forall_forall in Hpos.
    apply (Hpos (hex, w) Hin). }
  apply weight_present; [exact Hw|].
  apply fold_left_preserves.
  { intros a j _. apply settle_step_colors_grow. }
  apply fold_left_two_phase
    with (Q := fun a => (0 <= weight hex a)%Z) (e := css); auto.
  - intros a e _ Ha. apply merge_map_grows;
      [apply extractColorsFromCSS_positive|exact Ha].
  - intros a e _ Ha. apply merge_map_grows;
      [apply extractColorsFromCSS_positive|exact Ha].
  - intros a Ha. apply (merge_map_adds hex w 0); auto.
  - unfold weight. simpl. lia.
Qed.

Lemma colors_of_fetched_sheet (doc : Dom.document) (baseUrl : string) (i : nat)
  (address data hex : string) (w : Z) (colorMap : list (string * Z)) :
  accumulateColors doc baseUrl = Return colorMap ->
  nth_error (cssToFetch doc baseUrl) i = Some address ->
  axios_get (ColorSheet i) address css_config = Return data ->
  In (hex, w) (extractColorsFromCSS data) ->
  exists w', JS.map_get hex colorMap = Some w' /\ (w <= w')%Z.
Proof.
  rewrite accumulateColors_returns. intros [= <-] Hi Hget Hin.
  destruct (settled ColorSheet _ i address Hi) as [Hsettled Hreq].
  pose proof (extractColorsFromCSS_positive data) as Hpos.
  assert (Hw : (0 < w)%Z).
  { unfold positive_map in Hpos. rewrite Forall_forall in Hpos.
    apply (Hpos (hex, w) Hin). }
  apply weight_present; [exact Hw|].
  apply fold_left_two_phase
    with (Q := fun a => (0 <= weight hex a)%Z) (e := i); auto.
  - intros a j _. apply settle_step_colors_grow.
  - intros a j _. apply settle_step_colors_grow.
  - intros a Ha. unfold settle_step. rewrite Hreq.
    rewrite (sheet_text_success _ _ _ Hget).
    apply (merge_map_adds hex w 0); auto.
  - apply fold_left_preserves.
    + intros a e _ Ha. apply merge_map_grows;
        [apply extractColorsFromCSS_positive|exact Ha].
    + unfold weight. simpl. lia.
Qed.

End Isolation.

Section Analysis.

Context {U : UrlApi} {N : Network} {M : Markup}.
Context {L : UrlLaws U} {NL : NetworkLaws N}.

Lemma extractMeta_returns (doc : Dom.document) (targetUrl : string) (u : url) :
  url_parse targetUrl None = Some u ->
  exists meta, extractMeta doc targetUrl = Return meta.
Proof.
  intros P. unfold extractMeta, new_URL. rewrite P.
  destruct (meta_content (meta_property "og:site_name") doc) as [s|];
    [destruct (JS.truthy s)|]; simpl; eauto.
Qed.

Lemma extractLogo_returns (doc : Dom.document) (baseUrl : string) (base : url) :
  url_parse baseUrl None = Some base ->
  exists best, extractLogo doc baseUrl = Return (Some best).
Proof.
  intros P. rewrite (extractLogo_unfold doc baseUrl base P).
  destruct (find_some_if_any (fun c => truthy_opt (c_url c))
              (JS.sort by_priority
                 (signal_candidates doc baseUrl ++ [fallback_candidate base]))
              (fallback_candidate base)) as [best ->].
  - apply (Permutation_in _ (Permutation_sym (sort_perm _ _ _))).
    apply in_or_app. right. now left.
  - apply (fallback_sound base).
  - eauto.
Qed.

Lemma extractFonts_returns (doc : Dom.document) (baseUrl : string) :
  exists collected,
    collectFonts doc baseUrl = Return collected
    /\ extractFonts doc baseUrl = Return (map to_entry (firstn 6 collected)).
Proof.
  unfold extractFonts. rewrite collectFonts_returns.
  eexists. split; reflexivity.
Qed.

Lemma extractColors_returns (doc : Dom.document) (baseUrl : string) :
  exists colorMap,
    accumulateColors doc baseUrl = Return colorMap
    /\ extractColors doc baseUrl = Return (rankColors colorMap).
Proof.
  unfold extractColors. rewrite accumulateColors_returns.
  eexists. split; reflexivity.
Qed.

(** Once the page is fetched, the record is assembled whatever the style
    sheets do. *)
Lemma assemble_returns (clk : clock) (targetUrl html : string) (u : url) :
  url_parse targetUrl None = Some u ->
  fetchPage targetUrl = Return html ->
  exists result fonts colors,
    assemble clk targetUrl = Return result
    /\ extractFonts (cheerio_load html) targetUrl = Return fonts
    /\ extractColors (cheerio_load html) targetUrl = Return colors
    /\ r_fonts result = match fonts with [] => [system_default] | _ => fonts end
    /\ r_colors result = colors.
Proof.
  intros P Hpage. unfold assemble. rewrite Hpage. simpl.
  destruct (extractFonts_returns (cheerio_load html) targetUrl)
    as (collected & _ & ->).
  destruct (extractColors_returns (cheerio_load html) targetUrl)
    as (colorMap & _ & ->).
  destruct (extractMeta_returns (cheerio_load html) targetUrl u P) as [meta ->].
  destruct (extractLogo_returns (cheerio_load html) targetUrl u P) as [best ->].
  simpl. do 3 eexists. repeat split.
Qed.

(** C8: [fetchCSS] returns the fetched text when the request succeeds and
    the empty string when it fails, and never throws.  The style blocks the
    extraction reads are the [style] elements of the page, and the style
    sheets it requests are the first three linked ones.  Font and colour
    extraction always return, and return what they would if each failed
    style sheet had been fetched empty.  Every font found in a style block or
    in a style sheet that was fetched is in the result unless the result is
    full (six fonts); every colour found there is in the result with at least
    the weight found, unless the result is full of colours of at least that
    weight (eight of them).  And once the page itself is fetched the route
    answers 200 with these fonts and colours. *)
Theorem stylesheet_failures_are_isolated :
  (forall ch address,
     fetchCSS ch address = Return (sheet_text ch address)
     /\ (forall data, axios_get ch address css_config = Return data ->
           fetchCSS ch address = Return data)
     /\ (forall e, axios_get ch address css_config = Throw e ->
           fetchCSS ch address = Return ""))
  /\ (forall doc baseUrl,
        inline_styles doc = style_blocks doc
        /\ cssToFetch doc baseUrl = linked_sheets doc baseUrl)
  /\ (forall doc baseUrl,
        exists fonts,
          extractFonts doc baseUrl = Return fonts
          /\ @extractFonts U (recovered N) doc baseUrl = Return fonts
          /\ (forall css f,
                In css (style_blocks doc) -> In f (extractFontsFromCSS css) ->
                font_kept f fonts)
          /\ (forall i address data f,
                nth_error (linked_sheets doc baseUrl) i = Some address ->
                axios_get (FontSheet i) address css_config = Return data ->
                In f (extractFontsFromCSS data) ->
                font_kept f fonts))
  /\ (forall doc baseUrl,
        exists colors,
          extractColors doc baseUrl = Return colors
          /\ @extractColors U (recovered N) doc baseUrl = Return colors
          /\ (forall css hex w,
                In css (style_blocks doc) ->
                In (hex, w) (extractColorsFromCSS css) ->
                color_kept hex w colors)
          /\ (forall i address data hex w,
                nth_error (linked_sheets doc baseUrl) i = Some address ->
                axios_get (ColorSheet i) address css_config = Return data ->
                In (hex, w) (extractColorsFromCSS data) ->
                color_kept hex w colors))
  /\ (forall clk c raw target html,
        JS.truthy raw = true ->
        normalizeUrl raw = Return target ->
        cache_get (at_lookup clk) target c = None ->
        fetchPage target = Return html ->
        exists result fonts colors,
          analyze clk c (Some raw)
          = ({| status := 200; body := ResultBody result false |},
             cache_set (at_store clk) target result c)
          /\ extractFonts (cheerio_load html) target = Return fonts
          /\ extractColors (cheerio_load html) target = Return colors
          /\ r_fonts result
             = match fonts with [] => [system_default] | _ => fonts end
          /\ r_colors result = colors).
Proof.
  split; [|split; [|split; [|split]]].
  - intros ch address. split; [apply fetchCSS_returns|]. split.
    + intros data H. rewrite fetchCSS_returns.
      now rewrite (sheet_text_success _ _ _ H).
    + intros e H. rewrite fetchCSS_returns. unfold sheet_text. now rewrite H.
  - intros doc baseUrl. split;
      [apply inline_styles_are_style_blocks|apply cssToFetch_are_linked_sheets].
  - intros doc baseUrl.
    destruct (extractFonts_returns doc baseUrl) as (collected & Hc & He).
    exists (map to_entry (firstn 6 collected)). split; [exact He|].
    split; [now rewrite extractFonts_recovered|]. split.
    + intros css f Hcss Hf. apply firstn_keeps_font.
      rewrite <- inline_styles_are_style_blocks in Hcss.
      now apply fonts_of_inline_style with doc baseUrl css.
    + intros i address data f Hi Hget Hf. apply firstn_keeps_font.
      rewrite <- cssToFetch_are_linked_sheets in Hi.
      now apply fonts_of_fetched_sheet with doc baseUrl i address data.
  - intros doc baseUrl.
    destruct (extractColors_returns doc baseUrl) as (colorMap & Hc & He).
    exists (rankColors colorMap). split; [exact He|].
    split; [now rewrite extractColors_recovered|]. split.
    + intros css hex w Hcss Hin.
      rewrite <- inline_styles_are_style_blocks in Hcss.
      destruct (colors_of_inline_style doc baseUrl css hex w colorMap Hc Hcss Hin)
        as (w' & Hget & Hw).
      now apply rankColors_keeps with w'.
    + intros i address data hex w Hi Hget Hin.
      rewrite <- cssToFetch_are_linked_sheets in Hi.
      destruct (colors_of_fetched_sheet doc baseUrl i address data hex w colorMap
                  Hc Hi Hget Hin) as (w' & Hget' & Hw).
      now apply rankColors_keeps with w'.
  - intros clk c raw target html Hraw Hnorm Hmiss Hpage.
    destruct (normalizeUrl_parses raw target Hnorm) as (s & u & P & Hh & _).
    assert (P' : url_parse target None = Some u).
    { rewrite <- Hh. eapply href_reparses; eauto. }
    destruct (assemble_returns clk target html u P' Hpage)
      as (result & fonts & colors & Ha & Hf & Hc & Hrf & Hrc).
    exists result, fonts, colors. split; [|auto].
    unfold analyze. simpl. rewrite Hraw. simpl.
    unfold JS.or_else. rewrite Hraw, Hnorm, Hmiss, Ha. reflexivity.
Qed.

End Analysis.

(** On a site whose first style sheet fails, the font and the colour of the
    second style sheet, and those of the style block, are in the result. *)
Lemma stylesheet_failures_are_isolated_witness :
  @axios_get flaky_site (FontSheet 0) "https://example.com/a.css" css_config
  = Throw (http_error 500)
  /\ @linked_sheets plain_url styled_page "https://example.com/"
     = ["https://example.com/a.css"; "https://example.com/b.css"]
  /\ (exists fonts,
        @extractFonts plain_url flaky_site styled_page "https://example.com/"
        = Return fonts
        /\ In "Fira Code" (map f_name fonts) /\ In "Lora" (map f_name fonts))
  /\ (exists colors,
        @extractColors plain_url flaky_site styled_page "https://example.com/"
        = Return colors
        /\ exists c, In c colors /\ hex c = "#0AC81E" /\ (3 <= frequency c)%Z).
Proof.
  split; [reflexivity|]. split; [vm_compute; reflexivity|].
  destruct (@stylesheet_failures_are_isolated plain_url flaky_site
              (parsed_as styled_page) plain_url_laws (served_settles _))
    as (_ & _ & Hfonts & Hcolors & _).
  split.
  - destruct (Hfonts styled_page "https://example.com/")
      as (fonts & E & _ & Hblock & Hsheet).
    exists fonts. split; [exact E|]. split.
    + destruct (Hsheet 1%nat "https://example.com/b.css"
                  "h1{font-family:'Fira Code';background:#336699;--brand-color: rgb(10,200,30)}"
                  "Fira Code") as [H|H].
      * vm_compute; reflexivity.
      * vm_compute; reflexivity.
      * vm_compute. now left.
      * exact H.
      * vm_compute in E. injection E as <-. discriminate H.
    + destruct (Hblock "body{font-family: Lora, serif; color: #336699}" "Lora")
        as [H|H].
      * vm_compute. now left.
      * vm_compute. now left.
      * exact H.
      * vm_compute in E. injection E as <-. discriminate H.
  - destruct (Hcolors styled_page "https://example.com/")
      as (colors & E & _ & _ & Hsheet).
    exists colors. split; [exact E|].
    destruct (Hsheet 1%nat "https://example.com/b.css"
                "h1{font-family:'Fira Code';background:#336699;--brand-color: rgb(10,200,30)}"
                "#0AC81E" 3%Z) as [H|[H _]].
    + vm_compute; reflexivity.
    + vm_compute; reflexivity.
    + vm_compute. now left.
    + exact H.
    + vm_compute in E. injection E as <-. discriminate H.
Defined.

(** On that site the fonts and colours of the inline style block and of the
    second style sheet make up the result. *)
Lemma flaky_site_result :
  @extractFonts plain_url flaky_site styled_page "https://example.com/"
  = Return [to_entry "Lora"; to_entry "Fira Code"]
  /\ option_map (map entry_of)
       (match @extractColors plain_url flaky_site styled_page
                "https://example.com/" with
        | Return colors => Some colors
        | Throw _ => None
        end)
     = Some [("#0AC81E", 3%Z); ("#336699", 2%Z)].
Proof. split; vm_compute; reflexivity. Qed.

(** A font of a style sheet that was fetched need not be in the result.  The
    style block of the page names five fonts, and the second style sheet
    names Oswald and Karla.  When the first style sheet fails, Karla is the
    seventh font found and is cut; had the first style sheet loaded and named
    Karla, Karla would have been the sixth and in the result. *)
Lemma stylesheet_failure_hides_font :
  @axios_get crowded_flaky_site (FontSheet 0) "https://example.com/a.css"
    css_config
  = Throw (http_error 500)
  /\ @axios_get crowded_flaky_site (FontSheet 1) "https://example.com/b.css"
       css_config
     = Return b_css
  /\ In "Karla" (extractFontsFromCSS b_css)
  /\ option_map (map f_name)
       (match @extractFonts plain_url crowded_flaky_site crowded_page
                "https://example.com/" with
        | Return fonts => Some fonts
        | Throw _ => None
        end)
     = Some ["Inter"; "Roboto"; "Lato"; "Nunito"; "Poppins"; "Oswald"]
  /\ option_map (map f_name)
       (match @extractFonts plain_url crowded_site crowded_page
                "https://example.com/" with
        | Return fonts => Some fonts
        | Throw _ => None
        end)
     = Some ["Inter"; "Roboto"; "Lato"; "Nunito"; "Poppins"; "Karla"].
Proof.
  split; [reflexivity|]. split; [reflexivity|].
  split; [vm_compute; right; now left|].
  split; vm_compute; reflexivity.
Qed.

(** The [rel] of a link is compared without regard to case: on a page whose
    links spell it in capitals the icon is the favicon candidate, and both
    style sheets are requested. *)
Lemma rel_in_capitals :
  @extractLogo plain_url capitals_page "https://example.com/"
  = Return (Some {| c_url := Some "https://example.com/icon.png";
                    c_source := "favicon"; c_priority := 6 |})
  /\ @cssToFetch plain_url capitals_page "https://example.com/"
     = ["https://example.com/a.css"; "https://example.com/b.css"]
  /\ option_map (map f_name)
       (match @extractFonts plain_url capitals_site capitals_page
                "https://example.com/" with
        | Return fonts => Some fonts
        | Throw _ => None
        end)
     = Some ["Oswald"; "Karla"].
Proof. repeat split; vm_compute; reflexivity. Qed.

(** ** Further properties of the result *)

Lemma set_add_nodup (x : string) (l : list string) :
  NoDup l -> NoDup (JS.set_add x l).
Proof.
  intros H. unfold JS.set_add.
  destruct (existsb (String.eqb x) l) eqn:E; [exact H|].
  apply NoDup_app; [exact H|repeat constructor; intros []|].
  intros y Hy [->|[]].
  assert (existsb (String.eqb y) l = true); [|congruence].
  apply existsb_exists. exists y. split; [exact Hy|apply String.eqb_refl].
Qed.

Lemma set_add_all_nodup (xs l : list string) :
  NoDup l -> NoDup (JS.set_add_all xs l).
Proof.
  unfold JS.set_add_all. apply fold_left_preserves.
  intros a e _. apply set_add_nodup.
Qed.

Lemma firstn_nodup {A : Type} (n : nat) (l : list A) :
  NoDup l -> NoDup (firstn n l).
Proof.
  intros H. revert n. induction H as [|x r Hx Hr IH]; intros [|n]; simpl;
    try constructor; auto.
  intros Hin. apply Hx. eapply firstn_In; eauto.
Qed.

Lemma entry_names (l : list string) : map f_name (map to_entry l) = l.
Proof. induction l as [|x r IH]; simpl; [reflexivity|now rewrite IH]. Qed.

Section Result.

Context {U : UrlApi} {N : Network} {M : Markup}.

Lemma collectFonts_nodup (doc : Dom.document) (baseUrl : string)
  (collected : list string) :
  collectFonts doc baseUrl = Return collected -> NoDup collected.
Proof.
  rewrite collectFonts_returns. intros [= <-].
  apply fold_left_preserves.
  { intros a i _ Ha. unfold settle_step.
    destruct (nth_error _ i) as [[ch address]|]; [|exact Ha].
    now apply set_add_all_nodup. }
  apply fold_left_preserves.
  { intros a css _. apply set_add_all_nodup. }
  apply set_add_all_nodup. constructor.
Qed.

(** X2: the fonts [extractFonts] returns are at most six and have pairwise
    distinct names, and it returns them whatever the network does. *)
Theorem extractFonts_capped_distinct (doc : Dom.document) (baseUrl : string) :
  exists fonts,
    extractFonts doc baseUrl = Return fonts
    /\ (List.length fonts <= 6)%nat
    /\ NoDup (map f_name fonts).
Proof.
  destruct (extractFonts_returns doc baseUrl) as (collected & Hc & He).
  exists (map to_entry (firstn 6 collected)). split; [exact He|]. split.
  - rewrite length_map. apply firstn_le_length.
  - rewrite entry_names. apply firstn_nodup.
    now apply collectFonts_nodup with doc baseUrl.
Qed.

Lemma handle_error_body (err : js_error) :
  exists msg, body (handle_error err) = ErrorBody msg.
Proof.
  unfold handle_error.
  destruct (status_is err 403 || status_is err 401); [simpl; eauto|].
  destruct (code_is err "ECONNREFUSED" || code_is err "ENOTFOUND");
    [simpl; eauto|].
  destruct (code_is err "ETIMEDOUT" || _); simpl; eauto.
Qed.

(** What a fresh (not cached) successful answer of the route implies. *)
Lemma analyze_fresh (clk : clock) (c c' : cache) (rawUrl : option string)
  (result : analysis_result) :
  analyze clk c rawUrl
  = ({| status := 200; body := ResultBody result false |}, c') ->
  exists raw target,
    rawUrl = Some raw /\ normalizeUrl raw = Return target
    /\ assemble clk target = Return result
    /\ c' = cache_set (at_store clk) target result c.
Proof.
  unfold analyze.
  destruct rawUrl as [raw|]; simpl; [|discriminate].
  destruct (JS.truthy raw) eqn:T; simpl; [|discriminate].
  unfold JS.or_else. rewrite T.
  destruct (normalizeUrl raw) as [target|e] eqn:Hn; [|discriminate].
  destruct (cache_get (at_lookup clk) target c); [discriminate|].
  destruct (assemble clk target) as [r|err] eqn:A.
  - intros [= -> <-]. exists raw, target. auto.
  - destruct (handle_error_body err) as [msg Hmsg].
    intros H. injection H as Hr _. rewrite Hr in Hmsg. discriminate.
Qed.

(** X3: the font list of a fresh answer is never empty (when no font was
    found it is the single System Default entry), and neither is its
    description. *)
Theorem analyze_fills_defaults (clk : clock) (c c' : cache)
  (rawUrl : option string) (result : analysis_result) :
  analyze clk c rawUrl
  = ({| status := 200; body := ResultBody result false |}, c') ->
  r_fonts result <> [] /\ r_description result <> "".
Proof.
  intros H. destruct (analyze_fresh _ _ _ _ _ H) as (raw & target & _ & _ & A & _).
  unfold assemble in A.
  destruct (fetchPage target) as [html|e]; [|discriminate]. simpl in A.
  destruct (extractFonts (cheerio_load html) target) as [fonts|e];
    [|discriminate]. simpl in A.
  destruct (extractColors (cheerio_load html) target) as [colors|e];
    [|discriminate]. simpl in A.
  destruct (extractMeta (cheerio_load html) target) as [meta|e];
    [|discriminate]. simpl in A.
  destruct (extractLogo (cheerio_load html) target) as [logo|e];
    [|discriminate]. simpl in A.
  injection A as <-. simpl. split.
  - destruct fonts; discriminate.
  - destruct (m_description meta); discriminate.
Qed.

End Result.

(** X4: a second request for the same address, made before the record
    expires, is answered from the cache: the same record, flagged as cached,
    whatever the network and the parser would do now. *)
Theorem analyze_cache_hit (U : UrlApi) (N N' : Network) (M M' : Markup)
  (clk clk' : clock) (c c' : cache) (rawUrl : option string)
  (result : analysis_result) :
  @analyze U N M clk c rawUrl
  = ({| status := 200; body := ResultBody result false |}, c') ->
  (at_lookup clk' <= at_store clk + 300 * 1000)%Z ->
  @analyze U N' M' clk' c' rawUrl
  = ({| status := 200; body := ResultBody result true |}, c').
Proof.
  intros H Hfresh.
  destruct (analyze_fresh _ _ _ _ _ H) as (raw & target & -> & Hn & _ & ->).
  assert (T : JS.truthy raw = true).
  { unfold analyze in H. simpl in H. destruct (JS.truthy raw); [reflexivity|].
    simpl in H. discriminate. }
  unfold analyze. simpl. rewrite T. simpl. unfold JS.or_else. rewrite T, Hn.
  unfold cache_get, cache_set. rewrite map_get_set, String.eqb_refl.
  destruct (Z.ltb_spec (at_store clk + 300 * 1000) (at_lookup clk')); [lia|].
  reflexivity.
Qed.

Lemma analyze_cache_hit_witness :
  exists result c',
    @analyze plain_url flaky_site (parsed_as styled_page) noon []
      (Some "example.com")
    = ({| status := 200; body := ResultBody result false |}, c')
    /\ @analyze plain_url (served []) (parsed_as [])
         {| at_lookup := 200000; at_store := 200001;
            iso_stamp := "2024-01-01T12:03:20.000Z" |} c' (Some "example.com")
       = ({| status := 200; body := ResultBody result true |}, c').
Proof.
  destruct (@analyze plain_url flaky_site (parsed_as styled_page) noon []
              (Some "example.com")) as [[st [msg|result cached]] c'] eqn:E;
    [vm_compute in E; discriminate|].
  assert (Hst : st = 200%Z /\ cached = false).
  { vm_compute in E. injection E as <- _ <- _. auto. }
  destruct Hst as [-> ->].
  exists result, c'. split; [reflexivity|].
  apply (analyze_cache_hit plain_url flaky_site (served [])
           (parsed_as styled_page) (parsed_as []) noon _ [] c'
           (Some "example.com") result E).
  vm_compute. discriminate.
Defined.

Lemma analyze_fills_defaults_witness :
  exists result c',
    @analyze plain_url (served [("https://example.com/", Return "<html>")])
      (parsed_as bare_page) noon [] (Some "example.com")
    = ({| status := 200; body := ResultBody result false |}, c')
    /\ r_fonts result = [system_default]
    /\ r_fonts result <> [] /\ r_description result <> "".
Proof.
  destruct (@analyze plain_url (served [("https://example.com/", Return "<html>")])
              (parsed_as bare_page) noon [] (Some "example.com"))
    as [[st [msg|result cached]] c'] eqn:E;
    [vm_compute in E; discriminate|].
  assert (Hst : st = 200%Z /\ cached = false /\ r_fonts result = [system_default]).
  { vm_compute in E. injection E as <- <- <- _. auto. }
  destruct Hst as (-> & -> & Hf).
  exists result, c'. split; [reflexivity|]. split; [exact Hf|].
  exact (@analyze_fills_defaults plain_url _ _ noon [] c' _ result E).
Defined.

(** * Further properties of the code

    ** More on strings *)


Lemma length_app (a b : string) :
  String.length (a ++ b) = (String.length a + String.length b)%nat.
Proof. induction a as [|c a IH]; simpl; auto. Qed.

Lemma take_app (a b : string) : JS.take (String.length a) (a ++ b) = a.
Proof. induction a as [|c a IH]; simpl; [now destruct b|now rewrite IH]. Qed.

Lemma drop_app (a b : string) : JS.drop (String.length a) (a ++ b) = b.
Proof. induction a as [|c a IH]; simpl; auto. Qed.

Lemma slice_middle (a b c : string) (from to : nat) :
  from = String.length a -> to = (String.length a + String.length b)%nat ->
  JS.slice from to (a ++ b ++ c) = b.
Proof.
  intros -> ->. unfold JS.slice. rewrite drop_app.
  replace (String.length a + String.length b - String.length a)%nat
    with (String.length b) by lia.
  apply take_app.
Qed.

Lemma map_string_app (f : ascii -> ascii) (a b : string) :
  JS.map_string f (a ++ b) = JS.map_string f a ++ JS.map_string f b.
Proof. induction a as [|c a IH]; simpl; [reflexivity|now rewrite IH]. Qed.

Lemma trimEnd_last (x : string) (c : ascii) :
  JS.is_space c = false ->
  JS.trimEnd (x ++ String c "") = x ++ String c "".
Proof.
  intros Hc. unfold JS.trimEnd. rewrite rev_string_append. simpl.
  rewrite Hc. change (String c (JS.rev_string "" x))
    with (JS.rev_string "" (String c "") ++ JS.rev_string "" x).
  rewrite <- rev_string_append. apply rev_string_involutive.
Qed.

Lemma trim_edges (c d : ascii) (x : string) :
  JS.is_space c = false -> JS.is_space d = false ->
  JS.trim (String c (x ++ String d "")) = String c (x ++ String d "").
Proof.
  intros Hc Hd. unfold JS.trim. simpl. rewrite Hc.
  apply (trimEnd_last (String c x) d Hd).
Qed.

(** *** Trimming and splitting *)

Lemma trimStart_idempotent (s : string) :
  JS.trimStart (JS.trimStart s) = JS.trimStart s.
Proof.
  induction s as [|c r IH]; simpl; [reflexivity|].
  destruct (JS.is_space c) eqn:E; [exact IH|]. simpl. now rewrite E.
Qed.

Lemma trimStart_head (s : string) :
  match JS.trimStart s with
  | EmptyString => True
  | String c _ => JS.is_space c = false
  end.
Proof.
  induction s as [|c r IH]; simpl; [exact I|].
  destruct (JS.is_space c) eqn:E; [exact IH|exact E].
Qed.

Lemma trimStart_app_last (x : string) (c : ascii) :
  JS.is_space c = false ->
  JS.trimStart (x ++ String c "") = JS.trimStart x ++ String c "".
Proof.
  intros Hc. induction x as [|d x IH]; simpl; [now rewrite Hc|].
  destruct (JS.is_space d); [exact IH|reflexivity].
Qed.

Lemma trimEnd_cons (c : ascii) (r : string) :
  JS.is_space c = false -> JS.trimEnd (String c r) = String c (JS.trimEnd r).
Proof.
  intros Hc. unfold JS.trimEnd. simpl.
  rewrite (rev_string_app (String c "")), trimStart_app_last by exact Hc.
  rewrite rev_string_append. reflexivity.
Qed.

Lemma trimEnd_idempotent (s : string) :
  JS.trimEnd (JS.trimEnd s) = JS.trimEnd s.
Proof.
  unfold JS.trimEnd. now rewrite rev_string_involutive, trimStart_idempotent.
Qed.

(** Trimming a trimmed string changes nothing. *)
Lemma trim_idempotent (s : string) : JS.trim (JS.trim s) = JS.trim s.
Proof.
  unfold JS.trim. pose proof (trimStart_head s) as H.
  destruct (JS.trimStart s) as [|c r]; [reflexivity|].
  rewrite (trimEnd_cons c r H). simpl. rewrite H.
  rewrite <- (trimEnd_cons c r H). apply trimEnd_idempotent.
Qed.

Lemma all_chars_trimStart (p : ascii -> bool) (s : string) :
  JS.all_chars p s = true -> JS.all_chars p (JS.trimStart s) = true.
Proof.
  induction s as [|c r IH]; simpl; [reflexivity|].
  rewrite andb_true_iff. intros [Hc Hr].
  destruct (JS.is_space c); [auto|]. simpl. now rewrite Hc, Hr.
Qed.

Lemma all_chars_trim (p : ascii -> bool) (s : string) :
  JS.all_chars p s = true -> JS.all_chars p (JS.trim s) = true.
Proof.
  intros H. unfold JS.trim, JS.trimEnd.
  rewrite all_chars_rev. apply all_chars_trimStart.
  rewrite all_chars_rev. now apply all_chars_trimStart.
Qed.

Lemma split_aux_without (sep : ascii) (s : string) :
  forall cur,
    JS.all_chars (fun c => negb (Ascii.eqb c sep)) cur = true ->
    Forall (fun e => JS.all_chars (fun c => negb (Ascii.eqb c sep)) e = true)
      (JS.split_aux sep cur s).
Proof.
  induction s as [|c r IH]; intros cur Hcur; simpl.
  - constructor; [|constructor]. now rewrite all_chars_rev.
  - destruct (Ascii.eqb c sep) eqn:E.
    + constructor; [now rewrite all_chars_rev|]. now apply IH.
    + apply IH. simpl. now rewrite E, Hcur.
Qed.

(** The pieces of [s.split(sep)] do not hold the separator. *)
Lemma split_without (sep : ascii) (s : string) :
  Forall (fun e => JS.all_chars (fun c => negb (Ascii.eqb c sep)) e = true)
    (JS.split sep s).
Proof. now apply split_aux_without. Qed.

Lemma before_char_without (sep : ascii) (s : string) :
  JS.all_chars (fun c => negb (Ascii.eqb c sep)) (before_char sep s) = true.
Proof.
  induction s as [|c r IH]; simpl; [reflexivity|].
  destruct (Ascii.eqb c sep) eqn:E; simpl; [reflexivity|now rewrite E, IH].
Qed.

Lemma before_char_keeps (p : ascii -> bool) (sep : ascii) (s : string) :
  JS.all_chars p s = true -> JS.all_chars p (before_char sep s) = true.
Proof.
  induction s as [|c r IH]; simpl; [reflexivity|].
  rewrite andb_true_iff. intros [Hc Hr].
  destruct (Ascii.eqb c sep); simpl; [reflexivity|now rewrite Hc, IH].
Qed.

(** ** More on the matcher

    The greedy repetition of a character class takes every character of the
    class it finds, when what follows in the pattern accepts the rest. *)

Lemma star_loop_step
  (step : (Regex.mstate -> option Regex.mstate) -> Regex.mstate -> option Regex.mstate)
  (k : Regex.mstate -> option Regex.mstate) (fuel : nat) (st : Regex.mstate) :
  Regex.star_loop step k (S fuel) st
  = match step (fun st' => if (Regex.m_pos st' =? Regex.m_pos st)%nat then None
                           else Regex.star_loop step k fuel st') st with
    | Some res => Some res
    | None => k st
    end.
Proof. reflexivity. Qed.

Lemma run_class_at (f : Regex.flags) (neg : bool) (items : list Regex.cls_item)
  (k : Regex.mstate -> option Regex.mstate) (st : Regex.mstate) :
  Regex.run f (Regex.Class neg items) k st
  = match Regex.m_rest st with
    | String d rest =>
        if Regex.class_has f neg items d then k (Regex.advance d rest st)
        else None
    | EmptyString => None
    end.
Proof. reflexivity. Qed.

Lemma run_chr_at (f : Regex.flags) (c : ascii)
  (k : Regex.mstate -> option Regex.mstate) (st : Regex.mstate) :
  Regex.run f (Regex.Chr c) k st
  = match Regex.m_rest st with
    | String d rest =>
        if Regex.char_eq f c d then k (Regex.advance d rest st) else None
    | EmptyString => None
    end.
Proof. reflexivity. Qed.

Lemma run_seq (f : Regex.flags) (a b : Regex.regex)
  (k : Regex.mstate -> option Regex.mstate) (st : Regex.mstate) :
  Regex.run f (Regex.Seq a b) k st = Regex.run f a (Regex.run f b k) st.
Proof. reflexivity. Qed.

Lemma run_group (f : Regex.flags) (i : nat) (a : Regex.regex)
  (k : Regex.mstate -> option Regex.mstate) (st : Regex.mstate) :
  Regex.run f (Regex.Group i a) k st
  = Regex.run f a
      (fun st' => k (Regex.set_cap i (Regex.m_pos st) (Regex.m_pos st') st')) st.
Proof. reflexivity. Qed.

Lemma star_loop_greedy (f : Regex.flags) (neg : bool)
  (items : list Regex.cls_item) (k : Regex.mstate -> option Regex.mstate)
  (r : string) (res : Regex.mstate) (caps : list (nat * (nat * nat))) :
  class_fails_at f neg items r ->
  forall (w : string) (fuel p : nat) (pv : option ascii),
    JS.all_chars (Regex.class_has f neg items) w = true ->
    (String.length w < fuel)%nat ->
    k {| Regex.m_pos := p + String.length w; Regex.m_prev := last_of w pv;
         Regex.m_rest := r; Regex.m_caps := caps |} = Some res ->
    Regex.star_loop (Regex.run f (Regex.Class neg items)) k fuel
      {| Regex.m_pos := p; Regex.m_prev := pv; Regex.m_rest := w ++ r;
         Regex.m_caps := caps |} = Some res.
Proof.
  intros Hb. induction w as [|c w IH]; intros fuel p pv Hall Hfuel Hk;
    (destruct fuel as [|fuel]; [simpl in Hfuel; lia|]);
    rewrite star_loop_step, run_class_at; cbn [Regex.m_rest append].
  - simpl in Hk. rewrite Nat.add_0_r in Hk.
    destruct r as [|d r]; [exact Hk|].
    simpl in Hb. rewrite Hb. exact Hk.
  - simpl in Hall. apply andb_true_iff in Hall. destruct Hall as [Hc Hall].
    rewrite Hc.
    unfold Regex.advance; cbn [Regex.m_pos Regex.m_caps].
    replace (S p =? p)%nat with false by (symmetry; apply Nat.eqb_neq; lia).
    rewrite (IH fuel (S p) (Some c) Hall); [reflexivity| simpl in Hfuel; lia|].
    simpl in Hk. replace (S p + String.length w)%nat
      with (p + S (String.length w))%nat by lia. exact Hk.
Qed.

Lemma run_star_greedy (f : Regex.flags) (neg : bool)
  (items : list Regex.cls_item) (k : Regex.mstate -> option Regex.mstate)
  (w r : string) (res : Regex.mstate) (caps : list (nat * (nat * nat)))
  (p : nat) (pv : option ascii) :
  class_fails_at f neg items r ->
  JS.all_chars (Regex.class_has f neg items) w = true ->
  k {| Regex.m_pos := p + String.length w; Regex.m_prev := last_of w pv;
       Regex.m_rest := r; Regex.m_caps := caps |} = Some res ->
  Regex.run f (Regex.Star (Regex.Class neg items)) k
    {| Regex.m_pos := p; Regex.m_prev := pv; Regex.m_rest := w ++ r;
       Regex.m_caps := caps |} = Some res.
Proof.
  intros Hb Hall Hk.
  change (Regex.run f (Regex.Star ?a) ?k0 ?st0)
    with (Regex.star_loop (Regex.run f a) k0
            (S (String.length (Regex.m_rest st0))) st0).
  cbn [Regex.m_rest].
  apply star_loop_greedy; auto. rewrite length_app. lia.
Qed.

Lemma run_plus_greedy (f : Regex.flags) (neg : bool)
  (items : list Regex.cls_item) (k : Regex.mstate -> option Regex.mstate)
  (w r : string) (res : Regex.mstate) (caps : list (nat * (nat * nat)))
  (p : nat) (pv : option ascii) :
  class_fails_at f neg items r ->
  JS.all_chars (Regex.class_has f neg items) w = true ->
  w <> "" ->
  k {| Regex.m_pos := p + String.length w; Regex.m_prev := last_of w pv;
       Regex.m_rest := r; Regex.m_caps := caps |} = Some res ->
  Regex.run f (Regex.Plus (Regex.Class neg items)) k
    {| Regex.m_pos := p; Regex.m_prev := pv; Regex.m_rest := w ++ r;
       Regex.m_caps := caps |} = Some res.
Proof.
  intros Hb Hall Hne Hk. destruct w as [|c w]; [congruence|].
  simpl in Hall. apply andb_true_iff in Hall. destruct Hall as [Hc Hall].
  unfold Regex.Plus.
  change (Regex.run f (Regex.Seq ?a ?b) ?k0 ?st0)
    with (Regex.run f a (Regex.run f b k0) st0).
  rewrite run_class_at. cbn [Regex.m_rest append]. rewrite Hc.
  unfold Regex.advance; cbn [Regex.m_pos Regex.m_caps Regex.m_rest].
  change (Regex.run f (Regex.Star ?a) ?k0 ?st0)
    with (Regex.star_loop (Regex.run f a) k0
            (S (String.length (Regex.m_rest st0))) st0).
  cbn [Regex.m_rest].
  apply star_loop_greedy; auto.
  - rewrite length_app. lia.
  - simpl in Hk. replace (S p + String.length w)%nat
      with (p + S (String.length w))%nat by lia. exact Hk.
Qed.

Lemma run_star_none (f : Regex.flags) (neg : bool)
  (items : list Regex.cls_item) (k : Regex.mstate -> option Regex.mstate)
  (st : Regex.mstate) :
  class_fails_at f neg items (Regex.m_rest st) ->
  Regex.run f (Regex.Star (Regex.Class neg items)) k st = k st.
Proof.
  intros Hb.
  change (Regex.run f (Regex.Star ?a) ?k0 ?st0)
    with (Regex.star_loop (Regex.run f a) k0
            (S (String.length (Regex.m_rest st0))) st0).
  rewrite star_loop_step, run_class_at.
  destruct (Regex.m_rest st) as [|d r]; [reflexivity|].
  simpl in Hb. now rewrite Hb.
Qed.

Lemma search_hit (f : Regex.flags) (r : Regex.regex) (pos : nat)
  (prev : option ascii) (rest : string) (st : Regex.mstate) :
  Regex.run f r Some {| Regex.m_pos := pos; Regex.m_prev := prev;
                        Regex.m_rest := rest; Regex.m_caps := [] |} = Some st ->
  Regex.search f r pos prev rest = Some (pos, st).
Proof. intros H. destruct rest; simpl; now rewrite H. Qed.

Lemma exec_hit (f : Regex.flags) (r : Regex.regex) (s : string)
  (st : Regex.mstate) :
  Regex.run f r Some {| Regex.m_pos := 0; Regex.m_prev := None;
                        Regex.m_rest := s; Regex.m_caps := [] |} = Some st ->
  Regex.exec f r s = Some (Regex.mk_result s (0%nat, st)).
Proof.
  intros H. unfold Regex.exec, Regex.exec_from. simpl.
  now rewrite (search_hit _ _ _ _ _ _ H).
Qed.

(** A pattern anchored at the start matches nowhere after the start. *)
Lemma search_anchored_later (r : Regex.regex) (rest : string) :
  forall (pos : nat) (c : ascii),
    Regex.search Regex.no_flags (Regex.Seq Regex.Bol r) pos (Some c) rest = None.
Proof.
  induction rest as [|d rest IH]; intros pos c; simpl; [reflexivity|apply IH].
Qed.

Lemma test_anchored (r : Regex.regex) (s : string) :
  Regex.test Regex.no_flags (Regex.Seq Regex.Bol r) s
  = match Regex.run Regex.no_flags r Some
            {| Regex.m_pos := 0; Regex.m_prev := None; Regex.m_rest := s;
               Regex.m_caps := [] |} with
    | Some _ => true
    | None => false
    end.
Proof.
  unfold Regex.test, Regex.exec, Regex.exec_from. simpl.
  destruct s as [|d s]; simpl.
  - now destruct (Regex.run _ _ _ _).
  - destruct (Regex.run _ _ _ _); [reflexivity|].
    now rewrite search_anchored_later.
Qed.

(** *** Replacing the characters of a class *)

Section ReplaceClass.

Variable f : Regex.flags.
Variable neg : bool.
Variable items : list Regex.cls_item.
Variable by_ : string.

Let hit : ascii -> bool := Regex.class_has f neg items.

Lemma search_class_step (pos : nat) (prev : option ascii) (d : ascii)
  (rest : string) :
  Regex.search f (Regex.Class neg items) pos prev (String d rest)
  = if hit d
    then Some (pos, {| Regex.m_pos := S pos; Regex.m_prev := Some d;
                       Regex.m_rest := rest; Regex.m_caps := [] |})
    else Regex.search f (Regex.Class neg items) (S pos) (Some d) rest.
Proof.
  unfold hit. cbn [Regex.search Regex.run Regex.m_rest].
  destruct (Regex.class_has f neg items d); reflexivity.
Qed.

Lemma search_class_none (rest : string) :
  forall pos prev,
    Regex.search f (Regex.Class neg items) pos prev rest = None ->
    subst_chars hit by_ rest = rest.
Proof.
  induction rest as [|d rest IH]; intros pos prev H; [reflexivity|].
  rewrite search_class_step in H. simpl.
  destruct (hit d); [discriminate|].
  f_equal. exact (IH _ _ H).
Qed.

Lemma search_class_some (rest : string) :
  forall pos prev i st,
    Regex.search f (Regex.Class neg items) pos prev rest = Some (i, st) ->
    exists j,
      i = (pos + j)%nat /\ Regex.m_pos st = S i
      /\ (j < String.length rest)%nat
      /\ subst_chars hit by_ rest
         = JS.take j rest ++ by_ ++ subst_chars hit by_ (JS.drop (S j) rest).
Proof.
  induction rest as [|d rest IH]; intros pos prev i st H; [discriminate|].
  rewrite search_class_step in H. simpl.
  destruct (hit d).
  - injection H as <- <-. exists 0%nat. simpl.
    repeat split; auto; lia.
  - destruct (IH _ _ _ _ H) as (j & -> & Hst & Hj & E).
    exists (S j). simpl. rewrite E.
    repeat split; auto; lia.
Qed.

Lemma replace_class_from (s : string) :
  forall fuel from,
    (from <= String.length s)%nat -> (String.length s - from < fuel)%nat ->
    Regex.replace_from by_ from
      (Regex.exec_loop f (Regex.Class neg items) fuel from s) s
    = subst_chars hit by_ (JS.drop from s).
Proof.
  induction fuel as [|fuel IH]; intros from Hfrom Hfuel; [lia|].
  simpl. unfold Regex.exec_from.
  destruct (Nat.ltb_spec (String.length s) from) as [Hbad|_]; [lia|].
  destruct (Regex.search f (Regex.Class neg items) from _ (JS.drop from s))
    as [[i st]|] eqn:E; simpl.
  - destruct (search_class_some _ _ _ _ _ E) as (j & -> & Hst & Hj & Hrest).
    rewrite drop_length in Hj. rewrite Hst.
    destruct (Nat.leb_spec (S (from + j)) from) as [Hbad|_]; [lia|].
    simpl. unfold JS.slice at 1.
    replace (from + j - from)%nat with j by lia.
    rewrite Hst, IH by lia.
    rewrite Hrest, drop_drop.
    replace (from + S j)%nat with (S (from + j)) by lia. reflexivity.
  - symmetry. exact (search_class_none _ _ _ E).
Qed.

(** [s.replace(/[...]/g, by)] replaces every character of the class. *)
Lemma replace_class (s : string) :
  Regex.replace_all f (Regex.Class neg items) by_ s = subst_chars hit by_ s.
Proof.
  unfold Regex.replace_all, Regex.exec_all.
  rewrite replace_class_from; [reflexivity|lia|lia].
Qed.

End ReplaceClass.

Lemma quote_class_has (c : ascii) :
  Regex.class_has Regex.no_flags false [Regex.One squote; Regex.One dquote] c
  = is_quote c.
Proof.
  destruct c as [[] [] [] [] [] [] [] []]; reflexivity.
Qed.

Lemma subst_chars_ext (p q : ascii -> bool) (by_ s : string) :
  (forall c, p c = q c) -> subst_chars p by_ s = subst_chars q by_ s.
Proof.
  intros H. induction s as [|c r IH]; simpl; [reflexivity|].
  now rewrite H, IH.
Qed.

(** [s.replace(/['\x22]/g, '')] removes the quote characters. *)
Lemma strip_quotes_spec (s : string) : strip_quotes s = without_quotes s.
Proof.
  unfold strip_quotes, quote_cls, without_quotes.
  rewrite replace_class. apply subst_chars_ext, quote_class_has.
Qed.

Lemma without_quotes_clean (s : string) :
  JS.all_chars (fun c => negb (is_quote c)) (without_quotes s) = true.
Proof.
  unfold without_quotes. induction s as [|c r IH]; simpl; [reflexivity|].
  destruct (is_quote c) eqn:E; simpl; [exact IH|].
  now rewrite E, IH.
Qed.

Lemma exec_anchored (r : Regex.regex) (s : string) :
  Regex.exec Regex.no_flags (Regex.Seq Regex.Bol r) s
  = option_map (fun st => Regex.mk_result s (0%nat, st))
      (Regex.run Regex.no_flags r Some
         {| Regex.m_pos := 0; Regex.m_prev := None; Regex.m_rest := s;
            Regex.m_caps := [] |}).
Proof.
  unfold Regex.exec, Regex.exec_from. simpl.
  destruct s as [|d s]; simpl.
  - now destruct (Regex.run _ _ _ _).
  - destruct (Regex.run _ _ _ _); [reflexivity|].
    now rewrite search_anchored_later.
Qed.

(** [host.replace(/^www\./, '')] removes one leading [www.]. *)
Lemma replace_www (host : string) :
  Regex.replace_first Regex.no_flags www_re "" host = strip_www host.
Proof.
  unfold Regex.replace_first, strip_www.
  change www_re with (Regex.Seq Regex.Bol (Regex.Lit "www.")).
  rewrite exec_anchored.
  destruct host as [|a [|b [|c [|d r]]]]; try reflexivity;
    cbn -[Ascii.eqb];
    repeat match goal with
      | |- context [Ascii.eqb ?x ?y] => destruct (Ascii.eqb x y); cbn -[Ascii.eqb]
      end; reflexivity.
Qed.

(** ** Colours as three channel values

    *** The [rgb(r, g, b)] form *)

Lemma rgb_prefix (R : Regex.regex) (k : Regex.mstate -> option Regex.mstate)
  (x : string) :
  Regex.run Regex.no_flags
    (Regex.Seq Regex.Bol
       (Regex.Seq (Regex.Lit "rgb")
          (Regex.Seq (Regex.Opt (Regex.Chr "a")) (Regex.Seq (Regex.Chr "(") R))))
    k {| Regex.m_pos := 0; Regex.m_prev := None; Regex.m_rest := "rgb(" ++ x;
         Regex.m_caps := [] |}
  = Regex.run Regex.no_flags R k
      {| Regex.m_pos := 4; Regex.m_prev := Some "("%char; Regex.m_rest := x;
         Regex.m_caps := [] |}.
Proof. reflexivity. Qed.

Lemma digit_class_has (c : ascii) :
  JS.is_digit c = true ->
  Regex.class_has Regex.no_flags false [Regex.Digit] c = true.
Proof. destruct c as [[] [] [] [] [] [] [] []]; vm_compute; congruence. Qed.

Lemma digit_not_space_class (c : ascii) :
  JS.is_digit c = true ->
  Regex.class_has Regex.no_flags false [Regex.Space] c = false.
Proof. destruct c as [[] [] [] [] [] [] [] []]; vm_compute; congruence. Qed.

Lemma all_digits_class (w : string) :
  JS.all_chars JS.is_digit w = true ->
  JS.all_chars (Regex.class_has Regex.no_flags false [Regex.Digit]) w = true.
Proof.
  induction w as [|c w IH]; simpl; [reflexivity|].
  rewrite !andb_true_iff. intros [Hc Hw]. split; [|auto].
  now apply digit_class_has.
Qed.

(** On [rgb(r, g, b)] with three texts of digits the pattern of
    [normalizeColor] matches, and its groups are the three texts. *)
Lemma rgb_run (c1 c2 c3 : ascii) (E1 E2 E3 tail : string) :
  let D1 := String c1 E1 in
  let D2 := String c2 E2 in
  let D3 := String c3 E3 in
  JS.all_chars JS.is_digit D1 = true ->
  JS.all_chars JS.is_digit D2 = true ->
  JS.all_chars JS.is_digit D3 = true ->
  class_fails_at Regex.no_flags false [Regex.Digit] tail ->
  exists res,
    Regex.run Regex.no_flags rgb_re Some
      {| Regex.m_pos := 0; Regex.m_prev := None;
         Regex.m_rest := "rgb(" ++ D1 ++ ", " ++ D2 ++ ", " ++ D3 ++ tail;
         Regex.m_caps := [] |} = Some res
    /\ Regex.m_caps res
       = [(3, (4 + String.length D1 + 2 + String.length D2 + 2,
               4 + String.length D1 + 2 + String.length D2 + 2 + String.length D3));
          (2, (4 + String.length D1 + 2, 4 + String.length D1 + 2 + String.length D2));
          (1, (4, 4 + String.length D1))]%nat.
Proof.
  intros D1 D2 D3 H1 H2 H3 Ht.
  pose proof (all_digits_class _ H1) as A1.
  pose proof (all_digits_class _ H2) as A2.
  pose proof (all_digits_class _ H3) as A3.
  assert (S1 : Regex.class_has Regex.no_flags false [Regex.Space] c1 = false).
  { simpl in H1. apply andb_true_iff in H1. now apply digit_not_space_class. }
  assert (S2 : Regex.class_has Regex.no_flags false [Regex.Space] c2 = false).
  { simpl in H2. apply andb_true_iff in H2. now apply digit_not_space_class. }
  assert (S3 : Regex.class_has Regex.no_flags false [Regex.Space] c3 = false).
  { simpl in H3. apply andb_true_iff in H3. now apply digit_not_space_class. }
  eexists. split.
  - change rgb_re with
      (Regex.Seq Regex.Bol
         (Regex.Seq (Regex.Lit "rgb")
            (Regex.Seq (Regex.Opt (Regex.Chr "a"))
               (Regex.Seq (Regex.Chr "(") rgb_tail)))).
    rewrite rgb_prefix.
    unfold rgb_tail, spaces, digits. cbn [Regex.Seqs].
    rewrite run_seq, run_star_none by exact S1.
    rewrite run_seq, run_group.
    apply (run_plus_greedy _ _ _ _ D1 (", " ++ D2 ++ ", " ++ D3 ++ tail));
      [reflexivity|exact A1|discriminate|].
    cbv beta. unfold Regex.set_cap. cbn [Regex.m_pos Regex.m_prev Regex.m_rest Regex.m_caps].
    rewrite run_seq, run_star_none by reflexivity.
    rewrite run_seq, run_chr_at. cbn [Regex.m_rest append].
    change (Regex.char_eq Regex.no_flags "," ",") with true. cbv iota.
    unfold Regex.advance. cbn [Regex.m_pos Regex.m_prev Regex.m_rest Regex.m_caps].
    rewrite run_seq.
    apply (run_star_greedy _ _ _ _ " " (D2 ++ ", " ++ D3 ++ tail));
      [exact S2|reflexivity|].
    cbn [last_of String.length].
    rewrite run_seq, run_group.
    apply (run_plus_greedy _ _ _ _ D2 (", " ++ D3 ++ tail));
      [reflexivity|exact A2|discriminate|].
    cbv beta. unfold Regex.set_cap. cbn [Regex.m_pos Regex.m_prev Regex.m_rest Regex.m_caps].
    rewrite run_seq, run_star_none by reflexivity.
    rewrite run_seq, run_chr_at. cbn [Regex.m_rest append].
    change (Regex.char_eq Regex.no_flags "," ",") with true. cbv iota.
    unfold Regex.advance. cbn [Regex.m_pos Regex.m_prev Regex.m_rest Regex.m_caps].
    rewrite run_seq.
    apply (run_star_greedy _ _ _ _ " " (D3 ++ tail));
      [exact S3|reflexivity|].
    cbn [last_of String.length].
    rewrite run_group.
    apply (run_plus_greedy _ _ _ _ D3 tail);
      [exact Ht|exact A3|discriminate|].
    cbv beta. unfold Regex.set_cap. cbn [Regex.m_pos Regex.m_prev Regex.m_rest Regex.m_caps].
    reflexivity.
  - cbn [Regex.m_caps]. repeat first [lia | progress f_equal].
Qed.

Lemma rgb_text_trimmed (D1 D2 D3 : string) :
  JS.trim (rgb_text D1 D2 D3) = rgb_text D1 D2 D3.
Proof.
  assert (E : rgb_text D1 D2 D3
              = String "r" (("gb(" ++ D1 ++ ", " ++ D2 ++ ", " ++ D3) ++ ")")).
  { unfold rgb_text. rewrite !append_assoc. reflexivity. }
  rewrite E. now apply trim_edges.
Qed.

Lemma not_hex_form (n : nat) (x : string) :
  Regex.test Regex.no_flags
    (Regex.Seqs [Regex.Bol; Regex.Chr "#"; Regex.Repeat n n hex_cls; Regex.Eol])
    (String "r" x) = false.
Proof.
  change (Regex.Seqs [Regex.Bol; Regex.Chr "#"; Regex.Repeat n n hex_cls; Regex.Eol])
    with (Regex.Seq Regex.Bol
            (Regex.Seq (Regex.Chr "#")
               (Regex.Seq (Regex.Repeat n n hex_cls) Regex.Eol))).
  rewrite test_anchored, run_seq, run_chr_at. reflexivity.
Qed.

(** The value [rgb(r, g, b)] normalises to the hexadecimal digits the source
    computes for the three texts. *)
Lemma normalizeColor_rgb_text (D1 D2 D3 : string) :
  JS.all_chars JS.is_digit D1 = true -> D1 <> "" ->
  JS.all_chars JS.is_digit D2 = true -> D2 <> "" ->
  JS.all_chars JS.is_digit D3 = true -> D3 <> "" ->
  normalizeColor (rgb_text D1 D2 D3)
  = Some (JS.toUpperCase
            ("#" ++ hex_channel D1 ++ hex_channel D2 ++ hex_channel D3)).
Proof.
  intros H1 N1 H2 N2 H3 N3.
  assert (G : exists m, Regex.exec Regex.no_flags rgb_re (rgb_text D1 D2 D3) = Some m
                        /\ group_text 1 m = D1 /\ group_text 2 m = D2
                        /\ group_text 3 m = D3).
  { destruct D1 as [|c1 E1]; [congruence|].
    destruct D2 as [|c2 E2]; [congruence|].
    destruct D3 as [|c3 E3]; [congruence|].
    destruct (rgb_run c1 c2 c3 E1 E2 E3 ")" H1 H2 H3 eq_refl)
      as (res & Hrun & Hcaps).
    remember (String c1 E1) as D1. remember (String c2 E2) as D2.
    remember (String c3 E3) as D3.
    eexists. split; [exact (exec_hit _ _ _ _ Hrun)|].
    unfold group_text, Regex.group, Regex.mk_result.
    cbn [Regex.spans Regex.input snd]. rewrite Hcaps.
    cbn [find fst Nat.eqb snd].
    split; [|split].
    - apply (slice_middle "rgb(" D1 (", " ++ D2 ++ ", " ++ D3 ++ ")"));
        reflexivity.
    - replace ("rgb(" ++ D1 ++ ", " ++ D2 ++ ", " ++ D3 ++ ")")
        with (("rgb(" ++ D1 ++ ", ") ++ D2 ++ (", " ++ D3 ++ ")"))
        by (rewrite !append_assoc; reflexivity).
      apply slice_middle; rewrite ?length_app; simpl; rewrite ?length_app;
        simpl; lia.
    - replace ("rgb(" ++ D1 ++ ", " ++ D2 ++ ", " ++ D3 ++ ")")
        with (("rgb(" ++ D1 ++ ", " ++ D2 ++ ", ") ++ D3 ++ ")")
        by (rewrite !append_assoc; reflexivity).
      apply slice_middle; rewrite ?length_app; simpl; rewrite ?length_app;
        simpl; rewrite ?length_app; simpl; lia. }
  destruct G as (m & Hm & G1 & G2 & G3).
  unfold normalizeColor. rewrite rgb_text_trimmed.
  change (JS.truthy (rgb_text D1 D2 D3)) with true.
  change (Regex.test Regex.no_flags hex6_re (rgb_text D1 D2 D3))
    with (Regex.test Regex.no_flags
            (Regex.Seqs [Regex.Bol; Regex.Chr "#"; Regex.Repeat 6 6 hex_cls; Regex.Eol])
            (String "r" ("gb(" ++ D1 ++ ", " ++ D2 ++ ", " ++ D3 ++ ")"))).
  change (Regex.test Regex.no_flags hex3_re (rgb_text D1 D2 D3))
    with (Regex.test Regex.no_flags
            (Regex.Seqs [Regex.Bol; Regex.Chr "#"; Regex.Repeat 3 3 hex_cls; Regex.Eol])
            (String "r" ("gb(" ++ D1 ++ ", " ++ D2 ++ ", " ++ D3 ++ ")"))).
  change (Regex.test Regex.no_flags hex8_re (rgb_text D1 D2 D3))
    with (Regex.test Regex.no_flags
            (Regex.Seqs [Regex.Bol; Regex.Chr "#"; Regex.Repeat 8 8 hex_cls; Regex.Eol])
            (String "r" ("gb(" ++ D1 ++ ", " ++ D2 ++ ", " ++ D3 ++ ")"))).
  rewrite !not_hex_form, Hm, G1, G2, G3. reflexivity.
Qed.

(** *** Channel by channel *)

Lemma in_byte_values (v : Z) : is_byte v -> In v byte_values.
Proof.
  intros [H0 H1]. unfold byte_values.
  replace v with (Z.of_nat (Z.to_nat v)) by lia.
  apply in_map, in_seq. lia.
Qed.

Lemma channel_checks_all : forallb channel_checks byte_values = true.
Proof. vm_compute. reflexivity. Qed.

Lemma channel_facts (v : Z) :
  is_byte v ->
  JS.all_chars JS.is_digit (decimal v) = true
  /\ decimal v <> ""
  /\ JS.toUpperCase (hex_channel (decimal v)) = hex_pair v
  /\ Num.parseInt (hex_pair v) (Some 16%Z) = Num.Int v
  /\ JS.all_chars is_upper_hex (hex_pair v) = true
  /\ (16 * hex_value (hex_digit (v / 16)) + hex_value (hex_digit (v mod 16)) = v)%Z.
Proof.
  intros Hv. pose proof channel_checks_all as H.
  rewrite forallb_forall in H. specialize (H v (in_byte_values v Hv)).
  unfold channel_checks in H. rewrite !andb_true_iff in H.
  destruct H as [[[[[H1 H2] H3] H4] H5] H6].
  repeat split; auto.
  - intros E. rewrite E in H2. discriminate.
  - now apply String.eqb_eq.
  - unfold same_int in H4. destruct (Num.parseInt _ _); try discriminate.
    f_equal. now apply Z.eqb_eq.
  - now apply Z.eqb_eq.
Qed.

Lemma upper_hex_value (c : ascii) :
  is_upper_hex c = true ->
  (0 <= hex_value c <= 15)%Z /\ hex_digit (hex_value c) = c.
Proof.
  destruct c as [[] [] [] [] [] [] [] []]; intros H;
    try discriminate H; (split; [vm_compute; split; discriminate|reflexivity]).
Qed.

Lemma pair_div (hi lo : Z) :
  (0 <= lo <= 15)%Z -> ((16 * hi + lo) / 16 = hi)%Z.
Proof. intros H. symmetry. apply Z.div_unique with (r := lo); lia. Qed.

Lemma pair_mod (hi lo : Z) :
  (0 <= lo <= 15)%Z -> ((16 * hi + lo) mod 16 = lo)%Z.
Proof. intros H. symmetry. apply Z.mod_unique with (q := hi); lia. Qed.

(** A well-formed colour is the text of its three channel values. *)
Lemma hex6_channels (h : string) :
  is_hex6 h = true ->
  is_byte (channel_value 0 h) /\ is_byte (channel_value 1 h) /\ is_byte (channel_value 2 h)
  /\ h = hex_text (channel_value 0 h) (channel_value 1 h) (channel_value 2 h).
Proof.
  unfold is_hex6.
  destruct h as [|c0 h]; [discriminate|].
  destruct c0 as [[] [] [] [] [] [] [] []]; try discriminate.
  destruct h as [|a1 [|a2 [|a3 [|a4 [|a5 [|a6 [|a7 h]]]]]]]; try discriminate.
  cbn [String.length Nat.eqb andb JS.all_chars].
  rewrite !andb_true_iff. intros (H1 & H2 & H3 & H4 & H5 & H6 & _).
  destruct (upper_hex_value _ H1) as [R1 E1].
  destruct (upper_hex_value _ H2) as [R2 E2].
  destruct (upper_hex_value _ H3) as [R3 E3].
  destruct (upper_hex_value _ H4) as [R4 E4].
  destruct (upper_hex_value _ H5) as [R5 E5].
  destruct (upper_hex_value _ H6) as [R6 E6].
  unfold channel_value, char_value. cbn [String.get Nat.add Nat.mul Nat.eqb].
  unfold is_byte. repeat split; try lia.
  unfold hex_text, hex_pair.
  rewrite !pair_div, !pair_mod by lia.
  rewrite E1, E2, E3, E4, E5, E6. reflexivity.
Qed.

(** *** Brightness and luminance over all colours *)

Lemma forallb3_forall {A : Type} (p : A -> A -> A -> bool) (l : list A) :
  forallb3 p l = true ->
  forall a b c, In a l -> In b l -> In c l -> p a b c = true.
Proof.
  unfold forallb3. intros H a b c Ha Hb Hc.
  rewrite forallb_forall in H. specialize (H a Ha).
  rewrite forallb_forall in H. specialize (H b Hb).
  rewrite forallb_forall in H. exact (H c Hc).
Qed.

Lemma in_channel_floats (v : Z) :
  is_byte v -> In (v, Num.of_Z v) channel_floats.
Proof.
  intros H. unfold channel_floats.
  apply (in_map (fun v => (v, Num.of_Z v))). now apply in_byte_values.
Qed.

(** On each of the 256 x 256 x 256 colours the brightness test of the source
    agrees with the test on the sum of the channels, and the luminance lies
    between 0 and 1: both are checked by evaluation, in binary64 arithmetic. *)
Lemma neutral_agree_all : forallb3 neutral_agree channel_floats = true.
Proof. vm_cast_no_check (@eq_refl bool true). Qed.

Lemma luminance_in_unit_all : forallb3 luminance_in_unit channel_floats = true.
Proof. vm_cast_no_check (@eq_refl bool true). Qed.

Lemma neutral_floats_sum (r g b : Z) :
  is_byte r -> is_byte g -> is_byte b ->
  neutral_floats (Num.of_Z r) (Num.of_Z g) (Num.of_Z b) = neutral_sum (r + g + b).
Proof.
  intros Hr Hg Hb.
  apply Bool.eqb_prop.
  exact (forallb3_forall _ _ neutral_agree_all _ _ _
           (in_channel_floats r Hr) (in_channel_floats g Hg)
           (in_channel_floats b Hb)).
Qed.

Lemma luminance_floats_unit (r g b : Z) :
  is_byte r -> is_byte g -> is_byte b ->
  PrimFloat.leb 0 (luminance_floats (Num.of_Z r) (Num.of_Z g) (Num.of_Z b)) = true
  /\ PrimFloat.leb (luminance_floats (Num.of_Z r) (Num.of_Z g) (Num.of_Z b)) 1
     = true.
Proof.
  intros Hr Hg Hb.
  apply andb_true_iff.
  exact (forallb3_forall _ _ luminance_in_unit_all _ _ _
           (in_channel_floats r Hr) (in_channel_floats g Hg)
           (in_channel_floats b Hb)).
Qed.

(** The channels the source reads from the text of three channel values. *)
Lemma channel_of_hex_text (r g b : Z) :
  is_byte r -> is_byte g -> is_byte b ->
  channel_of (hex_text r g b) 1 3 = Num.Int r
  /\ channel_of (hex_text r g b) 3 5 = Num.Int g
  /\ channel_of (hex_text r g b) 5 7 = Num.Int b.
Proof.
  intros Hr Hg Hb.
  destruct (channel_facts r Hr) as (_ & _ & _ & Er & _).
  destruct (channel_facts g Hg) as (_ & _ & _ & Eg & _).
  destruct (channel_facts b Hb) as (_ & _ & _ & Eb & _).
  unfold channel_of.
  change (JS.slice 1 3 (hex_text r g b)) with (hex_pair r).
  change (JS.slice 3 5 (hex_text r g b)) with (hex_pair g).
  change (JS.slice 5 7 (hex_text r g b)) with (hex_pair b).
  auto.
Qed.

Lemma hexToRgb_hex_text (r g b : Z) :
  is_byte r -> is_byte g -> is_byte b ->
  hexToRgb (hex_text r g b) = rgb_text (decimal r) (decimal g) (decimal b).
Proof.
  intros Hr Hg Hb.
  destruct (channel_of_hex_text _ _ _ Hr Hg Hb) as (Cr & Cg & Cb).
  unfold hexToRgb. rewrite Cr, Cg, Cb. reflexivity.
Qed.

Lemma normalizeColor_decimal (r g b : Z) :
  is_byte r -> is_byte g -> is_byte b ->
  normalizeColor (rgb_text (decimal r) (decimal g) (decimal b))
  = Some (hex_text r g b).
Proof.
  intros Hr Hg Hb.
  destruct (channel_facts r Hr) as (Dr & Nr & Ur & _).
  destruct (channel_facts g Hg) as (Dg & Ng & Ug & _).
  destruct (channel_facts b Hb) as (Db & Nb & Ub & _).
  rewrite normalizeColor_rgb_text by assumption.
  unfold JS.toUpperCase in *. rewrite !map_string_app, Ur, Ug, Ub.
  reflexivity.
Qed.

Lemma hex_text_is_hex6 (r g b : Z) :
  is_byte r -> is_byte g -> is_byte b -> is_hex6 (hex_text r g b) = true.
Proof.
  intros Hr Hg Hb.
  destruct (channel_facts r Hr) as (_ & _ & _ & _ & Ur & _).
  destruct (channel_facts g Hg) as (_ & _ & _ & _ & Ug & _).
  destruct (channel_facts b Hb) as (_ & _ & _ & _ & Ub & _).
  unfold hex_text, hex_pair in *. simpl in *.
  rewrite !andb_true_iff in *. tauto.
Qed.

(** X7: a well-formed colour [#RRGGBB] is near-black or near-white for
    [isBlackOrWhite] exactly when the sum of its three channel values is above
    690 or below 75: the comparison of the mean with 230 and 25 in binary64
    arithmetic loses nothing. *)
Theorem isBlackOrWhite_by_channel_sum (h : string) :
  is_hex6 h = true ->
  isBlackOrWhite h = neutral_sum (channel_value 0 h + channel_value 1 h + channel_value 2 h).
Proof.
  intros H. destruct (hex6_channels h H) as (Hr & Hg & Hb & E).
  rewrite <- (neutral_floats_sum _ _ _ Hr Hg Hb).
  destruct (channel_of_hex_text _ _ _ Hr Hg Hb) as (Cr & Cg & Cb).
  rewrite E at 1. unfold isBlackOrWhite. rewrite Cr, Cg, Cb.
  reflexivity.
Qed.

(** X8: the luminance [getLuminance] computes for a well-formed colour
    [#RRGGBB] lies between 0 and 1, both included. *)
Theorem getLuminance_unit_interval (h : string) :
  is_hex6 h = true ->
  PrimFloat.leb 0 (getLuminance h) = true
  /\ PrimFloat.leb (getLuminance h) 1 = true.
Proof.
  intros H. destruct (hex6_channels h H) as (Hr & Hg & Hb & E).
  destruct (channel_of_hex_text _ _ _ Hr Hg Hb) as (Cr & Cg & Cb).
  rewrite E. unfold getLuminance. rewrite Cr, Cg, Cb.
  exact (luminance_floats_unit _ _ _ Hr Hg Hb).
Qed.

(** X5: for channel values between 0 and 255, [normalizeColor] turns
    [rgb(r, g, b)] into [#RRGGBB], the two upper-case hexadecimal digits of
    each value: a well-formed colour, which [hexToRgb] turns back into
    [rgb(r, g, b)]. *)
Theorem normalizeColor_rgb_in_range (r g b : Z) :
  is_byte r -> is_byte g -> is_byte b ->
  normalizeColor (rgb_text (decimal r) (decimal g) (decimal b))
  = Some (hex_text r g b)
  /\ is_hex6 (hex_text r g b) = true
  /\ hexToRgb (hex_text r g b) = rgb_text (decimal r) (decimal g) (decimal b).
Proof.
  intros Hr Hg Hb. split; [|split].
  - now apply normalizeColor_decimal.
  - now apply hex_text_is_hex6.
  - now apply hexToRgb_hex_text.
Qed.

(** X6: for a well-formed colour [#RRGGBB], [hexToRgb] prints the decimal
    values of its three channels, and [normalizeColor] reads that text back as
    the colour itself. *)
Theorem normalizeColor_hexToRgb_round_trip (h : string) :
  is_hex6 h = true ->
  hexToRgb h
  = rgb_text (decimal (channel_value 0 h)) (decimal (channel_value 1 h)) (decimal (channel_value 2 h))
  /\ normalizeColor (hexToRgb h) = Some h.
Proof.
  intros H. destruct (hex6_channels h H) as (Hr & Hg & Hb & E).
  assert (R : hexToRgb h = rgb_text (decimal (channel_value 0 h))
                (decimal (channel_value 1 h)) (decimal (channel_value 2 h))).
  { rewrite E at 1. now apply hexToRgb_hex_text. }
  split; [exact R|].
  rewrite R, normalizeColor_decimal by assumption. now rewrite <- E.
Qed.

Lemma normalizeColor_rgb_in_range_witness :
  normalizeColor (rgb_text (decimal 51) (decimal 102) (decimal 153))
  = Some (hex_text 51 102 153)
  /\ is_hex6 (hex_text 51 102 153) = true
  /\ hexToRgb (hex_text 51 102 153)
     = rgb_text (decimal 51) (decimal 102) (decimal 153).
Proof.
  apply (normalizeColor_rgb_in_range 51 102 153); unfold is_byte; lia.
Defined.

Lemma normalizeColor_hexToRgb_round_trip_witness :
  hexToRgb "#336699"
  = rgb_text (decimal (channel_value 0 "#336699"))
      (decimal (channel_value 1 "#336699")) (decimal (channel_value 2 "#336699"))
  /\ normalizeColor (hexToRgb "#336699") = Some "#336699".
Proof. apply (normalizeColor_hexToRgb_round_trip "#336699"). reflexivity. Defined.

Lemma isBlackOrWhite_by_channel_sum_witness :
  isBlackOrWhite "#336699"
  = neutral_sum (channel_value 0 "#336699" + channel_value 1 "#336699"
                 + channel_value 2 "#336699").
Proof. apply (isBlackOrWhite_by_channel_sum "#336699"). reflexivity. Defined.

Lemma getLuminance_unit_interval_witness :
  PrimFloat.leb 0 (getLuminance "#336699") = true
  /\ PrimFloat.leb (getLuminance "#336699") 1 = true.
Proof. apply (getLuminance_unit_interval "#336699"). reflexivity. Defined.

(** The values the examples stand for. *)
Lemma colour_examples :
  rgb_text (decimal 51) (decimal 102) (decimal 153) = "rgb(51, 102, 153)"
  /\ hex_text 51 102 153 = "#336699"
  /\ map (fun i => channel_value i "#336699") [0; 1; 2]%nat = [51; 102; 153]%Z
  /\ map isBlackOrWhite ["#000000"; "#181818"; "#191919"; "#E6E6E6"; "#E7E7E7";
                         "#FFFFFF"]
     = [true; true; false; false; true; true]
  /\ getLuminance "#000000" = 0%float /\ getLuminance "#FFFFFF" = 1%float.
Proof. repeat split; vm_compute; reflexivity. Qed.

(** ** The keys and the weights of the colour map *)

Lemma map_set_keys {V : Type} (k : string) (v : V) (m : list (string * V)) :
  keys (JS.map_set k v m)
  = match JS.map_get k m with
    | Some _ => keys m
    | None => (keys m ++ [k])%list
    end.
Proof.
  unfold keys. induction m as [|[k0 v0] r IH]; simpl; [reflexivity|].
  destruct (String.eqb k k0) eqn:E; simpl; [reflexivity|].
  rewrite IH. now destruct (JS.map_get k r).
Qed.

Lemma map_get_none_keys {V : Type} (k : string) (m : list (string * V)) :
  JS.map_get k m = None -> ~ In k (keys m).
Proof.
  unfold keys. induction m as [|[k0 v0] r IH]; simpl; [tauto|].
  destruct (String.eqb_spec k k0) as [->|Hk]; [discriminate|].
  intros H [E|Hin]; [congruence|]. now apply IH.
Qed.

Lemma map_get_keys {V : Type} (k : string) (m : list (string * V)) :
  ~ In k (keys m) -> JS.map_get k m = None.
Proof.
  unfold keys. induction m as [|[k0 v0] r IH]; simpl; [reflexivity|].
  intros H. destruct (String.eqb_spec k k0) as [->|Hk]; [tauto|].
  apply IH. tauto.
Qed.

(** A map has each key once, and [set] keeps it so. *)
Lemma map_set_nodup {V : Type} (k : string) (v : V) (m : list (string * V)) :
  NoDup (keys m) -> NoDup (keys (JS.map_set k v m)).
Proof.
  intros H. rewrite map_set_keys.
  destruct (JS.map_get k m) eqn:E; [exact H|].
  apply NoDup_app; [exact H|repeat constructor; intros []|].
  intros y Hy [<-|[]]. now apply (map_get_none_keys k m E).
Qed.

Lemma map_set_keys_forall {V : Type} (P : string -> Prop) (k : string) (v : V)
  (m : list (string * V)) :
  P k -> Forall P (keys m) -> Forall P (keys (JS.map_set k v m)).
Proof.
  intros Hk Hm. rewrite map_set_keys.
  destruct (JS.map_get k m); [exact Hm|].
  apply Forall_app. split; [exact Hm|]. now constructor.
Qed.

Lemma bump_sound (hex : string) (w : Z) (m : list (string * Z)) :
  counted_colour hex -> (0 < w)%Z -> sound_map m -> sound_map (bump hex w m).
Proof.
  intros Hc Hw (Hn & Hk & Hp). repeat split.
  - now apply map_set_nodup.
  - now apply map_set_keys_forall.
  - now apply bump_positive.
Qed.

Lemma count_color_sound (w : Z) (value : string) (m : list (string * Z)) :
  (0 < w)%Z -> sound_map m -> sound_map (count_color w value m).
Proof.
  intros Hw Hm. unfold count_color.
  destruct (normalizeColor value) as [hex|] eqn:E; [|exact Hm].
  destruct (JS.truthy hex); simpl; [|exact Hm].
  destruct (isBlackOrWhite hex) eqn:B; simpl; [exact Hm|].
  apply bump_sound; auto. split; eauto.
Qed.

Lemma extractColorsFromCSS_sound (cssText : string) :
  sound_map (extractColorsFromCSS cssText).
Proof.
  unfold extractColorsFromCSS.
  apply fold_left_preserves.
  { intros a e _. apply count_color_sound. lia. }
  apply fold_left_preserves.
  { intros a e _. apply count_color_sound. lia. }
  repeat split; constructor.
Qed.

Lemma in_keys {V : Type} (e : string * V) (m : list (string * V)) :
  In e m -> In (fst e) (keys m).
Proof. apply in_map. Qed.

Lemma merge_map_sound (src acc : list (string * Z)) :
  sound_map src -> sound_map acc -> sound_map (merge_map src acc).
Proof.
  intros (Hn & Hk & Hp) Hacc. unfold merge_map.
  apply fold_left_preserves; [|exact Hacc].
  intros a e He Ha. apply bump_sound; [| |exact Ha].
  - rewrite Forall_forall in Hk. apply Hk. now apply in_keys.
  - unfold positive_map in Hp. rewrite Forall_forall in Hp. now apply Hp.
Qed.

Lemma weight_absent (hex : string) (m : list (string * Z)) :
  ~ In hex (keys m) -> weight hex m = 0%Z.
Proof. intros H. unfold weight. now rewrite (map_get_keys hex m H). Qed.

(** Merging a map into another adds, colour by colour, its weights. *)
Lemma weight_merge (hex : string) (src acc : list (string * Z)) :
  NoDup (keys src) ->
  weight hex (merge_map src acc) = (weight hex acc + weight hex src)%Z.
Proof.
  unfold merge_map. revert acc.
  induction src as [|[k w] r IH]; intros acc Hn; simpl.
  - unfold weight at 3. simpl. lia.
  - unfold keys in Hn. simpl in Hn. inversion Hn as [|? ? Hk Hr]; subst.
    rewrite (IH _ Hr), weight_bump.
    unfold weight at 4. simpl.
    destruct (String.eqb_spec hex k) as [->|Hne].
    + rewrite (weight_absent k r Hk). lia.
    + fold (weight hex r). lia.
Qed.

Lemma total_app (a b : list Z) : total (a ++ b)%list = (total a + total b)%Z.
Proof. induction a as [|x a IH]; simpl; [reflexivity|]. rewrite IH. lia. Qed.

Lemma total_perm (a b : list Z) : Permutation a b -> total a = total b.
Proof. induction 1; simpl; lia. Qed.

Lemma map_nth_seq {A B : Type} (f : A -> B) (d : B) (l : list A) :
  forall k,
    map (fun i => match nth_error l (i - k) with Some a => f a | None => d end)
        (seq k (List.length l))
    = map f l.
Proof.
  induction l as [|a r IH]; intros k; simpl; [reflexivity|].
  rewrite Nat.sub_diag. simpl. f_equal.
  rewrite <- (IH (S k)). apply map_ext_in. intros i Hi.
  apply in_seq in Hi.
  replace (i - k)%nat with (S (i - S k)) by lia. reflexivity.
Qed.

Section Weights.

Context {U : UrlApi} {N : Network}.

Lemma weight_settle_fold (hex : string) (reqs : list (channel * string))
  (order : list nat) :
  forall acc,
    weight hex
      (fold_left
         (settle_step reqs
            (fun text colorMap => merge_map (extractColorsFromCSS text) colorMap))
         order acc)
    = (weight hex acc + total (map (settled_weight hex reqs) order))%Z.
Proof.
  induction order as [|i r IH]; intros acc; simpl; [lia|].
  rewrite IH.
  assert (E : weight hex
                (settle_step reqs
                   (fun text colorMap =>
                      merge_map (extractColorsFromCSS text) colorMap) acc i)
              = (weight hex acc + settled_weight hex reqs i)%Z).
  { unfold settle_step, settled_weight.
    destruct (nth_error reqs i) as [[ch address]|]; [|lia].
    rewrite weight_merge by apply extractColorsFromCSS_sound.
    reflexivity. }
  rewrite E. lia.
Qed.

Lemma weight_inline_fold (hex : string) (styles : list string) :
  forall acc,
    weight hex
      (fold_left
         (fun colorMap css => merge_map (extractColorsFromCSS css) colorMap)
         styles acc)
    = (weight hex acc
       + total (map (fun css => weight hex (extractColorsFromCSS css)) styles))%Z.
Proof.
  induction styles as [|css r IH]; intros acc; simpl; [lia|].
  rewrite IH, weight_merge by apply extractColorsFromCSS_sound. lia.
Qed.

Context {NL : NetworkLaws N}.

Lemma settled_total (hex : string) (reqs : list (channel * string)) :
  total (map (settled_weight hex reqs) (settle_order reqs))
  = total (map (sheet_weight hex) reqs).
Proof.
  rewrite (total_perm _ _ (Permutation_map _ (settles_all reqs))).
  f_equal. rewrite <- (map_nth_seq (sheet_weight hex) 0%Z reqs 0).
  apply map_ext. intros i. unfold settled_weight. now rewrite Nat.sub_0_r.
Qed.

(** X10: the weight a colour has in the accumulated map is the sum of its
    weights in the style blocks of the page and in the answers to the
    requests for its first three linked style sheets, whatever the order in
    which the requests settle. *)
Theorem accumulateColors_adds_weights (doc : Dom.document) (baseUrl : string) :
  exists colorMap,
    accumulateColors doc baseUrl = Return colorMap
    /\ extractColors doc baseUrl = Return (rankColors colorMap)
    /\ forall hex,
         weight hex colorMap
         = (total (map (fun css => weight hex (extractColorsFromCSS css))
                     (style_blocks doc))
            + total (map (sheet_weight hex)
                       (requests ColorSheet (linked_sheets doc baseUrl))))%Z.
Proof.
  destruct (extractColors_returns doc baseUrl) as (colorMap & Ha & He).
  exists colorMap. split; [exact Ha|]. split; [exact He|].
  intros hex. rewrite accumulateColors_returns in Ha. injection Ha as <-.
  rewrite weight_settle_fold, weight_inline_fold, settled_total.
  rewrite inline_styles_are_style_blocks, cssToFetch_are_linked_sheets.
  unfold weight at 1. simpl. lia.
Qed.

End Weights.

Lemma permutation_keys {V : Type} (a b : list (string * V)) :
  Permutation a b -> Permutation (keys a) (keys b).
Proof. apply Permutation_map. Qed.

Lemma firstn_forall {A : Type} (P : A -> Prop) (n : nat) (l : list A) :
  Forall P l -> Forall P (firstn n l).
Proof.
  intros H. rewrite Forall_forall in *. intros x Hx.
  apply H. eapply firstn_In; eauto.
Qed.

Lemma rankColors_keys (colorMap : list (string * Z)) :
  map hex (rankColors colorMap)
  = keys (firstn 8 (JS.sort (fun a b => (snd b - snd a)%Z) colorMap)).
Proof.
  pose proof (rankColors_entries colorMap) as E.
  unfold keys. rewrite <- E, map_map. reflexivity.
Qed.

Lemma relabel_forall (P : color_sample -> Prop) (i : nat) (l : color_label)
  (cs : list color_sample) :
  (forall c l', P c -> P (set_label l' c)) ->
  Forall P cs -> Forall P (relabel i l cs).
Proof.
  intros Hp H. revert i. induction H as [|c r Hc Hr IH]; intros [|i]; simpl;
    constructor; auto.
Qed.

Section Samples.

Context {U : UrlApi} {N : Network}.

Lemma accumulateColors_sound (doc : Dom.document) (baseUrl : string)
  (colorMap : list (string * Z)) :
  accumulateColors doc baseUrl = Return colorMap -> sound_map colorMap.
Proof.
  rewrite accumulateColors_returns. intros [= <-].
  apply fold_left_preserves.
  { intros a i _ Ha. unfold settle_step.
    destruct (nth_error _ i) as [[ch address]|]; [|exact Ha].
    apply merge_map_sound; [apply extractColorsFromCSS_sound|exact Ha]. }
  apply fold_left_preserves.
  { intros a css _ Ha.
    apply merge_map_sound; [apply extractColorsFromCSS_sound|exact Ha]. }
  repeat split; constructor.
Qed.

(** X9: the colours [extractColors] returns are pairwise distinct; each was
    counted at least once, is the normal form of some value, is neither
    near-black nor near-white, and carries the [rgb] text and the luminance
    of its [hex]. *)
Theorem extractColors_samples (doc : Dom.document) (baseUrl : string) :
  exists colors,
    extractColors doc baseUrl = Return colors
    /\ NoDup (map hex colors)
    /\ Forall (fun c =>
                 (1 <= frequency c)%Z
                 /\ counted_colour (hex c)
                 /\ rgb c = hexToRgb (hex c)
                 /\ luminance c = getLuminance (hex c)) colors.
Proof.
  destruct (extractColors_returns doc baseUrl) as (colorMap & Ha & He).
  exists (rankColors colorMap). split; [exact He|].
  destruct (accumulateColors_sound doc baseUrl colorMap Ha) as (Hn & Hk & Hp).
  pose proof (sort_perm _ (fun a b : string * Z => (snd b - snd a)%Z) colorMap)
    as Hperm.
  split.
  - rewrite rankColors_keys. unfold keys. rewrite <- firstn_map.
    apply firstn_nodup.
    apply (Permutation_NoDup (Permutation_sym (permutation_keys _ _ Hperm)) Hn).
  - unfold rankColors.
    do 3 (apply relabel_forall; [intros c l' H; exact H|]).
    apply Forall_map. apply firstn_forall.
    rewrite Forall_forall. intros e He'.
    apply (Permutation_in _ Hperm) in He'.
    unfold to_sample. simpl. repeat split.
    + unfold positive_map in Hp. rewrite Forall_forall in Hp.
      specialize (Hp e He'). lia.
    + rewrite Forall_forall in Hk. apply (Hk (fst e)). now apply in_keys.
    + rewrite Forall_forall in Hk. apply (Hk (fst e)). now apply in_keys.
Qed.

End Samples.

Lemma accumulateColors_adds_weights_witness :
  exists colorMap,
    @accumulateColors plain_url flaky_site styled_page "https://example.com/"
    = Return colorMap
    /\ @extractColors plain_url flaky_site styled_page "https://example.com/"
       = Return (rankColors colorMap)
    /\ forall hex,
         weight hex colorMap
         = (total (map (fun css => weight hex (extractColorsFromCSS css))
                     (style_blocks styled_page))
            + total (map (@sheet_weight flaky_site hex)
                       (requests ColorSheet
                          (@linked_sheets plain_url styled_page
                             "https://example.com/"))))%Z.
Proof.
  exact (@accumulateColors_adds_weights plain_url flaky_site
           (served_settles _) styled_page "https://example.com/").
Defined.

(** ** Metadata *)

Section Meta.

Context {U : UrlApi}.

Lemma opt_or_first (o : option string) (rest : list (option string)) :
  JS.opt_or o (first_truthy rest) = first_truthy (o :: rest).
Proof. destruct o as [s|]; simpl; [|reflexivity]. unfold JS.or_else. reflexivity. Qed.

(** X18: [extractMeta] takes the title from [og:title], else from the
    trimmed text of the first [title] element; the description from the
    [description], [og:description] and [twitter:description] meta elements,
    the first whose content is not empty; and the site name from
    [og:site_name], else from the host name of the address without one
    leading [www.].  Only in that last case is the address parsed, and only
    then can [extractMeta] throw. *)
Theorem extractMeta_fields (doc : Dom.document) (targetUrl : string) :
  let named := meta_content (meta_property "og:site_name") doc in
  let title :=
    first_truthy [meta_content (meta_property "og:title") doc;
                  Some (trimmed_text [Dom.tag "title"] doc)] in
  let description :=
    first_truthy [meta_content (meta_name "description") doc;
                  meta_content (meta_property "og:description") doc;
                  meta_content (meta_name "twitter:description") doc] in
  extractMeta doc targetUrl
  = if JS.truthy (first_truthy [named])
    then Return {| m_title := title; m_description := description;
                   m_siteName := first_truthy [named] |}
    else match url_parse targetUrl None with
         | Some u =>
             Return {| m_title := title; m_description := description;
                       m_siteName := strip_www (hostname u) |}
         | None => Throw invalid_url
         end.
Proof.
  cbv zeta. unfold extractMeta, trimmed_text.
  rewrite <- !opt_or_first. cbn [first_truthy].
  rewrite (or_else_empty (JS.trim _)).
  replace (JS.opt_or (Some (JS.trim (Dom.first_text
             (firstn 1 (Dom.select [Dom.tag "title"] doc))))) "")
    with (JS.trim (Dom.first_text (firstn 1 (Dom.select [Dom.tag "title"] doc))))
    by (simpl; now rewrite or_else_empty).
  destruct (meta_content (meta_property "og:site_name") doc) as [s|]; simpl.
  - rewrite or_else_empty. destruct (JS.truthy s); [reflexivity|].
    unfold new_URL. destruct (url_parse targetUrl None); simpl;
      [now rewrite replace_www|reflexivity].
  - unfold new_URL. destruct (url_parse targetUrl None); simpl;
      [now rewrite replace_www|reflexivity].
Qed.

End Meta.

(** On a page without [og:site_name] the site name comes from the address. *)
Lemma extractMeta_examples :
  @extractMeta plain_url bare_page "https://www.example.com/about"
  = Return {| m_title := "Acme"; m_description := "";
              m_siteName := "example.com" |}
  /\ @extractMeta plain_url bare_page "not an address" = Throw invalid_url
  /\ map strip_www ["www.example.com"; "www.www.example.com"; "wwwexample.com";
                    "example.www.com"]
     = ["example.com"; "www.example.com"; "wwwexample.com"; "example.www.com"].
Proof. repeat split; vm_compute; reflexivity. Qed.

(** ** Font names *)

Lemma set_add_forall (P : string -> Prop) (x : string) (l : list string) :
  P x -> Forall P l -> Forall P (JS.set_add x l).
Proof.
  intros Hx Hl. unfold JS.set_add. destruct (existsb _ l); [exact Hl|].
  apply Forall_app. split; [exact Hl|]. now constructor.
Qed.

Lemma strip_quotes_free (s : string) : quote_free (strip_quotes s) = true.
Proof. rewrite strip_quotes_spec. apply without_quotes_clean. Qed.

(** X12: the font names [extractFontsFromCSS] finds in a style sheet are
    pairwise distinct and hold no quote character. *)
Theorem extractFontsFromCSS_distinct_unquoted (cssText : string) :
  NoDup (extractFontsFromCSS cssText)
  /\ Forall (fun f => quote_free f = true) (extractFontsFromCSS cssText).
Proof.
  unfold extractFontsFromCSS.
  set (P := fun fonts : list string =>
              NoDup fonts /\ Forall (fun f => quote_free f = true) fonts).
  change (P (fold_left
    (fun fonts m =>
       let val := strip_quotes (JS.trim (group_text 1 m)) in
       if length_in_window val then JS.set_add val fonts else fonts)
    (Regex.exec_all Regex.flag_i varRegex cssText)
    (fold_left
       (fun fonts m =>
          let families :=
            map (fun f => strip_quotes (JS.trim f))
                (JS.split "," (group_text 1 m)) in
          fold_left
            (fun fonts f =>
               if negb (existsb (String.eqb (JS.toLowerCase f)) generic_families)
               then (if length_in_window f then JS.set_add f fonts else fonts)
               else fonts)
            families fonts)
       (Regex.exec_all Regex.flag_i fontFamilyRegex cssText)
       (fold_left
          (fun fonts m =>
             JS.set_add (strip_quotes (JS.trim (group_text 1 m))) fonts)
          (Regex.exec_all Regex.flag_i fontFaceRegex cssText) [])))).
  assert (Hadd : forall x fonts, P fonts -> P (JS.set_add (strip_quotes x) fonts)).
  { intros x fonts [Hn Hq]. split; [now apply set_add_nodup|].
    apply set_add_forall; [apply strip_quotes_free|exact Hq]. }
  apply fold_left_preserves.
  { intros a m _ Ha. cbv zeta. destruct (length_in_window _); auto. }
  apply fold_left_preserves.
  { intros a m _ Ha. cbv zeta. apply fold_left_preserves; [|exact Ha].
    intros a' f Hf Ha'. apply in_map_iff in Hf. destruct Hf as (x & <- & _).
    destruct (negb _); [|exact Ha'].
    destruct (length_in_window _); auto. }
  apply fold_left_preserves.
  { intros a m _ Ha. auto. }
  split; constructor.
Qed.

Lemma family_char_after_plus (s : string) :
  JS.all_chars (fun c => negb (Ascii.eqb c ":")) s = true ->
  JS.all_chars (fun c => negb (Ascii.eqb c "|")) s = true ->
  JS.all_chars family_char (plus_to_space s) = true.
Proof.
  unfold plus_to_space. induction s as [|c r IH]; simpl; [reflexivity|].
  rewrite !andb_true_iff. intros [Hc Hr] [Hc' Hr'].
  split; [|now apply IH].
  unfold family_char. destruct (Ascii.eqb_spec c "+"%char) as [->|Hp];
    [reflexivity|].
  apply negb_true_iff in Hc, Hc'. rewrite Hc, Hc'.
  destruct (Ascii.eqb_spec c "+"%char); [congruence|reflexivity].
Qed.

(** The name of a piece of a [family=] value is trimmed and holds none of
    [+], [:] and [|]. *)
Lemma family_name_shaped (param entry : string) :
  In entry (JS.split "|" param) -> family_name entry <> "" ->
  family_shaped (family_name entry).
Proof.
  intros Hin Hne. split; [exact Hne|].
  rewrite family_name_spec in *. split; [apply trim_idempotent|].
  apply all_chars_trim, family_char_after_plus.
  - apply before_char_without.
  - apply before_char_keeps.
    pose proof (split_without "|"%char param) as H.
    rewrite Forall_forall in H. now apply H.
Qed.

Lemma add_families_invariant (param : string) (fonts : list string) :
  NoDup fonts /\ Forall family_shaped fonts ->
  NoDup (add_families param fonts)
  /\ Forall family_shaped (add_families param fonts).
Proof.
  unfold add_families. intros H.
  apply (fold_left_preserves
           (fun fonts => NoDup fonts /\ Forall family_shaped fonts));
    [|exact H].
  intros a e He [Hn Hs].
  destruct (JS.truthy (family_name e)) eqn:T; [|now split].
  split; [now apply set_add_nodup|].
  apply set_add_forall; [|exact Hs].
  apply (family_name_shaped param e He).
  intros E. rewrite E in T. discriminate.
Qed.

Lemma extractGoogleFonts_shaped (doc : Dom.document) :
  NoDup (extractGoogleFonts doc)
  /\ Forall family_shaped (extractGoogleFonts doc).
Proof.
  unfold extractGoogleFonts.
  apply (fold_left_preserves
           (fun fonts => NoDup fonts /\ Forall family_shaped fonts)).
  { intros a el _ Ha.
    apply (fold_left_preserves
             (fun fonts => NoDup fonts /\ Forall family_shaped fonts));
      [|exact Ha].
    intros a' m _ Ha'.
    destruct (first_group family_quoted_re _) as [fp|]; [|exact Ha'].
    destruct (JS.truthy fp); [|exact Ha']. now apply add_families_invariant. }
  apply (fold_left_preserves
           (fun fonts => NoDup fonts /\ Forall family_shaped fonts)).
  { intros a el _ Ha.
    destruct (first_group family_re _) as [fp|]; [|exact Ha].
    destruct (JS.truthy fp); [|exact Ha]. now apply add_families_invariant. }
  split; constructor.
Qed.

(** X13: the families [extractGoogleFonts] returns are pairwise distinct, and
    each is a trimmed text that is not empty and holds none of [+], [:] and
    [|]. *)
Theorem extractGoogleFonts_names (doc : Dom.document) :
  NoDup (extractGoogleFonts doc)
  /\ Forall family_shaped (extractGoogleFonts doc).
Proof. apply extractGoogleFonts_shaped. Qed.

(** X14: the families a style block imports are found as well: for every
    address of the Google Fonts service in the text of a [style] element, the
    first [family=] value of the address is split on [|], and the names of
    its pieces that are not empty are among the fonts returned. *)
Theorem extractGoogleFonts_import_families (doc : Dom.document) (el : Dom.node)
  (address param entry : string) :
  In el (Dom.select [Dom.tag "style"] doc) ->
  In address
    (map Regex.matched (Regex.exec_all Regex.no_flags import_re (Dom.text el))) ->
  first_group family_quoted_re address = Some param ->
  In entry (JS.split "|" param) ->
  family_name entry <> "" ->
  In (family_name entry) (extractGoogleFonts doc).
Proof.
  intros Hel Hm Hparam Hentry Hne. unfold extractGoogleFonts.
  apply in_map_iff in Hm. destruct Hm as (m & <- & Hm).
  apply fold_left_reaches with (e := el); [|exact Hel|].
  - intros acc e H. apply fold_left_keeps; [|exact H].
    intros acc' m' H'.
    destruct (first_group family_quoted_re (Regex.matched m')) as [fp|];
      [|exact H'].
    destruct (JS.truthy fp); [|exact H']. now apply add_families_keeps.
  - intros acc. apply fold_left_reaches with (e := m); [|exact Hm|].
    + intros acc' m' H'.
      destruct (first_group family_quoted_re (Regex.matched m')) as [fp|];
      [|exact H'].
      destruct (JS.truthy fp); [|exact H']. now apply add_families_keeps.
    + intros acc'. rewrite Hparam.
      destruct (JS.truthy param) eqn:T.
      * now apply add_families_adds.
      * destruct param; [|discriminate].
        simpl in Hentry. destruct Hentry as [<-|[]].
        exfalso. apply Hne. reflexivity.
Qed.

Lemma extractGoogleFonts_import_families_witness :
  In "Fira Sans" (extractGoogleFonts import_page).
Proof.
  apply (extractGoogleFonts_import_families import_page
           (Dom.Element "style" []
              [Dom.Text "@import url('https://fonts.googleapis.com/css?family=Lato:400|Fira+Sans');"])
           "fonts.googleapis.com/css?family=Lato:400|Fira+Sans"
           "Lato:400|Fira+Sans" "Fira+Sans").
  - vm_compute. now left.
  - vm_compute. now left.
  - vm_compute; reflexivity.
  - vm_compute. right. now left.
  - vm_compute. discriminate.
Defined.

Lemma font_name_examples :
  extractGoogleFonts import_page = ["Lato"; "Fira Sans"]
  /\ extractFontsFromCSS
       "@font-face{font-family:'Inter'} h1{font-family: 'Inter', Georgia, serif} :root{--font-body: Lato;}"
     = ["Inter"; "Georgia"; "Lato"].
Proof. split; vm_compute; reflexivity. Qed.

(** ** The order of the fonts *)

Lemma set_add_extends (x : string) (l : list string) :
  exists r, JS.set_add x l = (l ++ r)%list.
Proof.
  unfold JS.set_add. destruct (existsb _ l).
  - exists []. now rewrite app_nil_r.
  - eauto.
Qed.

Lemma set_add_all_extends (xs l : list string) :
  exists r, JS.set_add_all xs l = (l ++ r)%list.
Proof.
  unfold JS.set_add_all. revert l.
  induction xs as [|x xs IH]; intros l; simpl.
  - exists []. now rewrite app_nil_r.
  - destruct (set_add_extends x l) as [r1 ->].
    destruct (IH (l ++ r1)%list) as [r2 ->].
    exists (r1 ++ r2)%list. now rewrite app_assoc.
Qed.

Lemma set_add_fresh (x : string) (l : list string) :
  ~ In x l -> JS.set_add x l = (l ++ [x])%list.
Proof.
  intros H. unfold JS.set_add.
  destruct (existsb (String.eqb x) l) eqn:E; [|reflexivity].
  apply existsb_exists in E. destruct E as (y & Hy & Heq).
  apply String.eqb_eq in Heq. subst. contradiction.
Qed.

Lemma set_add_all_distinct (xs l : list string) :
  NoDup (l ++ xs)%list -> JS.set_add_all xs l = (l ++ xs)%list.
Proof.
  unfold JS.set_add_all. revert l.
  induction xs as [|x xs IH]; intros l H; simpl; [now rewrite app_nil_r|].
  rewrite set_add_fresh.
  - rewrite IH; rewrite <- app_assoc; [reflexivity|exact H].
  - apply NoDup_remove_2 in H. intros Hin. apply H. apply in_or_app. now left.
Qed.

Lemma extends_trans (l0 : list string) (step : list string -> list string)
  (acc : list string) :
  (forall a, exists r, step a = (a ++ r)%list) ->
  (exists r, acc = (l0 ++ r)%list) -> exists r, step acc = (l0 ++ r)%list.
Proof.
  intros Hs [r ->]. destruct (Hs (l0 ++ r)%list) as [r' ->].
  exists (r ++ r')%list. now rewrite app_assoc.
Qed.

Section FontOrder.

Context {U : UrlApi} {N : Network}.

Lemma collectFonts_starts_with_links (doc : Dom.document) (baseUrl : string) :
  exists rest,
    collectFonts doc baseUrl = Return (extractGoogleFonts doc ++ rest)%list.
Proof.
  rewrite collectFonts_returns.
  assert (H : exists rest,
    fold_left
      (settle_step (requests FontSheet (cssToFetch doc baseUrl))
         (fun text fonts => JS.set_add_all (extractFontsFromCSS text) fonts))
      (settle_order (requests FontSheet (cssToFetch doc baseUrl)))
      (fold_left
         (fun fonts css => JS.set_add_all (extractFontsFromCSS css) fonts)
         (inline_styles doc) (JS.set_add_all (extractGoogleFonts doc) []))
    = (extractGoogleFonts doc ++ rest)%list).
  { apply (fold_left_preserves
             (fun acc => exists rest, acc = (extractGoogleFonts doc ++ rest)%list)).
    { intros a i _ Ha. unfold settle_step.
      destruct (nth_error _ i) as [[ch address]|]; [|exact Ha].
      apply (extends_trans _ (JS.set_add_all _)); [|exact Ha].
      intros a'. apply set_add_all_extends. }
    apply (fold_left_preserves
             (fun acc => exists rest, acc = (extractGoogleFonts doc ++ rest)%list)).
    { intros a css _ Ha.
      apply (extends_trans _ (JS.set_add_all _)); [|exact Ha].
      intros a'. apply set_add_all_extends. }
    exists []. rewrite app_nil_r.
    apply (set_add_all_distinct (extractGoogleFonts doc) []).
    apply (proj1 (extractGoogleFonts_shaped doc)). }
  destruct H as [rest ->]. eauto.
Qed.

(** X15: the fonts [extractFonts] returns start with the families of the
    Google Fonts links and imports, in the order [extractGoogleFonts] found
    them; when there are six or more of these, they are the whole result. *)
Theorem extractFonts_links_first (doc : Dom.document) (baseUrl : string) :
  (exists rest,
     extractFonts doc baseUrl
     = Return (map to_entry (firstn 6 (extractGoogleFonts doc ++ rest)%list)))
  /\ ((6 <= List.length (extractGoogleFonts doc))%nat ->
      extractFonts doc baseUrl
      = Return (map to_entry (firstn 6 (extractGoogleFonts doc)))).
Proof.
  destruct (collectFonts_starts_with_links doc baseUrl) as [rest H].
  assert (E : extractFonts doc baseUrl
              = Return (map to_entry
                          (firstn 6 (extractGoogleFonts doc ++ rest)%list))).
  { unfold extractFonts. now rewrite H. }
  split; [eauto|].
  intros Hlen. rewrite E. f_equal. f_equal.
  rewrite firstn_app.
  replace (6 - List.length (extractGoogleFonts doc))%nat with 0%nat by lia.
  simpl. apply app_nil_r.
Qed.

End FontOrder.

(** ** The requests for style sheets *)

Lemma cssToFetch_length `{UrlApi} (doc : Dom.document) (baseUrl : string) :
  (List.length (cssToFetch doc baseUrl) <= 3)%nat.
Proof. unfold cssToFetch. apply firstn_le_length. Qed.

Lemma sheet_text_same (N N' : Network) (mk : nat -> channel)
  (urls : list string) (i : nat) (address : string) :
  same_sheets N N' mk urls ->
  nth_error urls i = Some address ->
  @sheet_text N (mk i) address = @sheet_text N' (mk i) address.
Proof.
  intros [Hget _] Hi. unfold sheet_text. now rewrite (Hget i address Hi).
Qed.

Lemma requests_nth_inv (mk : nat -> channel) (urls : list string) (i : nat)
  (ch : channel) (address : string) :
  nth_error (requests mk urls) i = Some (ch, address) ->
  ch = mk i /\ nth_error urls i = Some address.
Proof.
  intros H.
  destruct (nth_error urls i) as [a|] eqn:E.
  - rewrite (requests_nth mk urls i a E) in H. injection H as <- <-. auto.
  - apply nth_error_None in E. rewrite <- (requests_length mk) in E.
    apply nth_error_None in E. congruence.
Qed.

Lemma fetch_all_same (N N' : Network) {S : Type} (mk : nat -> channel)
  (urls : list string) (absorb : string -> S -> S) (acc : S) :
  same_sheets N N' mk urls ->
  @fetch_all N S mk urls absorb acc = @fetch_all N' S mk urls absorb acc.
Proof.
  intros Hsame.
  rewrite (@fetch_all_returns N), (@fetch_all_returns N').
  destruct Hsame as [Hget Hord]. rewrite Hord. f_equal.
  apply fold_left_ext. intros a i. unfold settle_step.
  destruct (nth_error (requests mk urls) i) as [[ch address]|] eqn:E;
    [|reflexivity].
  destruct (requests_nth_inv _ _ _ _ _ E) as [-> Hi].
  now rewrite (sheet_text_same N N' mk urls i address (conj Hget Hord) Hi).
Qed.

(** X16: the style sheets [extractFonts] and [extractColors] request are
    the first three linked style sheets of the page, so at most three each;
    and their results depend on the network through the answers to these
    requests, and the order in which they settle, only. *)
Theorem stylesheet_requests_are_bounded (U : UrlApi) (doc : Dom.document)
  (baseUrl : string) :
  cssToFetch doc baseUrl = linked_sheets doc baseUrl
  /\ (List.length (cssToFetch doc baseUrl) <= 3)%nat
  /\ (forall N N' : Network,
        same_sheets N N' FontSheet (linked_sheets doc baseUrl) ->
        @extractFonts U N doc baseUrl = @extractFonts U N' doc baseUrl)
  /\ (forall N N' : Network,
        same_sheets N N' ColorSheet (linked_sheets doc baseUrl) ->
        @extractColors U N doc baseUrl = @extractColors U N' doc baseUrl).
Proof.
  split; [apply cssToFetch_are_linked_sheets|].
  split; [apply cssToFetch_length|].
  split; intros N N' H; rewrite <- cssToFetch_are_linked_sheets in H.
  - unfold extractFonts, collectFonts. now rewrite (fetch_all_same N N').
  - unfold extractColors, accumulateColors. now rewrite (fetch_all_same N N').
Qed.

(** Two sites that differ in a style sheet linked with [rel] in capitals give
    different fonts: that style sheet is requested like any other. *)
Lemma capitals_sheet_is_requested :
  @extractFonts plain_url capitals_site capitals_page "https://example.com/"
  = Return [to_entry "Oswald"; to_entry "Karla"]
  /\ @extractFonts plain_url
       (served [("https://example.com/b.css", Return "p{font-family: Karla}")])
       capitals_page "https://example.com/"
     = Return [to_entry "Karla"].
Proof. split; vm_compute; reflexivity. Qed.

(** ** The category of a font *)

Lemma in_all_ascii (c : ascii) : In c all_ascii.
Proof.
  unfold all_ascii. rewrite <- (ascii_nat_embedding c).
  apply in_map, in_seq. pose proof (nat_ascii_bounded c). lia.
Qed.

Lemma fold_agrees_all :
  forallb (fun c => forallb (fold_agrees c) all_ascii) all_ascii = true.
Proof. vm_cast_no_check (@eq_refl bool true). Qed.

Lemma char_fold (c d : ascii) :
  keyword_char c = true ->
  Regex.char_eq Regex.flag_i c d = Ascii.eqb c (lower_ascii_char d).
Proof.
  intros Hc. pose proof fold_agrees_all as H.
  rewrite forallb_forall in H. specialize (H c (in_all_ascii c)).
  rewrite forallb_forall in H. specialize (H d (in_all_ascii d)).
  unfold fold_agrees in H. rewrite Hc in H. simpl in H.
  now apply Bool.eqb_prop.
Qed.

Lemma run_lit_cons (f : Regex.flags) (c : ascii) (w : string)
  (k : Regex.mstate -> option Regex.mstate) (st : Regex.mstate) :
  Regex.run f (Regex.Lit (String c w)) k st
  = Regex.run f (Regex.Chr c) (Regex.run f (Regex.Lit w) k) st.
Proof.
  destruct w as [|d w]; [|reflexivity].
  cbn [Regex.Lit]. rewrite !run_chr_at.
  destruct (Regex.m_rest st); reflexivity.
Qed.

(** A keyword matches where the lower-cased input starts with it. *)
Lemma run_keyword (w : string) :
  JS.all_chars keyword_char w = true ->
  forall (k : Regex.mstate -> option Regex.mstate) (st : Regex.mstate),
    Regex.run Regex.flag_i (Regex.Lit w) k st
    = if JS.startsWith w (lower_ascii (Regex.m_rest st))
      then k (skip_over w st) else None.
Proof.
  induction w as [|c w IH]; intros Hw k st; [reflexivity|].
  simpl in Hw. apply andb_true_iff in Hw. destruct Hw as [Hc Hw].
  rewrite run_lit_cons, run_chr_at.
  destruct (Regex.m_rest st) as [|d rest] eqn:E; [reflexivity|].
  cbn [lower_ascii JS.map_string JS.startsWith skip_over]. rewrite E.
  rewrite (char_fold c d Hc).
  destruct (Ascii.eqb c (lower_ascii_char d)); [|reflexivity].
  rewrite (IH Hw). reflexivity.
Qed.

Lemma skip_over_rest (w : string) :
  forall st,
    JS.startsWith w (lower_ascii (Regex.m_rest st)) = true ->
    Regex.m_rest (skip_over w st) = JS.drop (String.length w) (Regex.m_rest st).
Proof.
  induction w as [|c w IH]; intros st H; [reflexivity|].
  simpl. destruct (Regex.m_rest st) as [|d rest] eqn:E; [discriminate H|].
  simpl in H. apply andb_true_iff in H. destruct H as [_ H].
  rewrite IH; [reflexivity|exact H].
Qed.

(** A pattern whose success at a place depends on the rest of the input only
    is found where some suffix passes that test. *)
Lemma search_anywhere (f : Regex.flags) (r : Regex.regex) (h : string -> bool) :
  (forall pos prev rest,
     is_some (Regex.run f r Some
                {| Regex.m_pos := pos; Regex.m_prev := prev;
                   Regex.m_rest := rest; Regex.m_caps := [] |}) = h rest) ->
  forall rest pos prev,
    is_some (Regex.search f r pos prev rest) = anywhere h rest.
Proof.
  intros Hh. induction rest as [|c rest IH]; intros pos prev; simpl.
  - rewrite <- (Hh pos prev ""). destruct (Regex.run _ _ _ _); reflexivity.
  - rewrite <- (Hh pos prev (String c rest)).
    destruct (Regex.run _ _ _ _); [reflexivity|]. simpl. apply IH.
Qed.

Lemma test_anywhere (f : Regex.flags) (r : Regex.regex) (h : string -> bool)
  (s : string) :
  (forall pos prev rest,
     is_some (Regex.run f r Some
                {| Regex.m_pos := pos; Regex.m_prev := prev;
                   Regex.m_rest := rest; Regex.m_caps := [] |}) = h rest) ->
  Regex.test f r s = anywhere h s.
Proof.
  intros Hh. rewrite <- (search_anywhere f r h Hh s 0 None).
  unfold Regex.test, Regex.exec, Regex.exec_from. simpl.
  destruct (Regex.search f r 0 None s); reflexivity.
Qed.

Lemma anywhere_or (p q : string -> bool) (s : string) :
  anywhere (fun t => p t || q t) s = anywhere p s || anywhere q s.
Proof.
  induction s as [|c r IH]; simpl.
  - now rewrite !orb_false_r.
  - rewrite IH.
    destruct (p (String c r)), (q (String c r)), (anywhere p r), (anywhere q r);
      reflexivity.
Qed.

Lemma includes_lower (w s : string) :
  anywhere (fun t => JS.startsWith w (lower_ascii t)) s
  = JS.includes w (lower_ascii s).
Proof.
  induction s as [|c r IH]; simpl; [reflexivity|]. now rewrite IH.
Qed.

Lemma here_keywords (ws : list string) :
  ws <> [] ->
  Forall (fun w => JS.all_chars keyword_char w = true) ws ->
  forall pos prev rest,
    is_some (Regex.run Regex.flag_i (Regex.Alts (map Regex.Lit ws)) Some
               {| Regex.m_pos := pos; Regex.m_prev := prev;
                  Regex.m_rest := rest; Regex.m_caps := [] |})
    = existsb (fun w => JS.startsWith w (lower_ascii rest)) ws.
Proof.
  intros Hne Hall pos prev rest.
  induction Hall as [|w ws Hw Hws IH]; [congruence|].
  destruct ws as [|w' ws'].
  - simpl. rewrite (run_keyword w Hw). simpl.
    destruct (JS.startsWith w (lower_ascii rest)); reflexivity.
  - change (Regex.Alts (map Regex.Lit (w :: w' :: ws')))
      with (Regex.Alt (Regex.Lit w) (Regex.Alts (map Regex.Lit (w' :: ws')))).
    cbn [Regex.run]. rewrite (run_keyword w Hw).
    cbn [Regex.m_rest existsb].
    destruct (JS.startsWith w (lower_ascii rest)); [reflexivity|].
    simpl orb. apply IH. discriminate.
Qed.

(** A keyword list is found where the lower-cased input holds one of the
    keywords. *)
Lemma test_keywords (ws : list string) (s : string) :
  ws <> [] ->
  Forall (fun w => JS.all_chars keyword_char w = true) ws ->
  Regex.test Regex.flag_i (Regex.Alts (map Regex.Lit ws)) s
  = existsb (fun w => JS.includes w (lower_ascii s)) ws.
Proof.
  intros Hne Hall.
  rewrite (test_anywhere _ _ _ s (here_keywords ws Hne Hall)).
  clear Hne Hall.
  assert (E : forall l,
    anywhere (fun t => existsb (fun w => JS.startsWith w (lower_ascii t)) l) s
    = existsb (fun w => JS.includes w (lower_ascii s)) l).
  { induction l as [|x l IHl]; simpl.
    - induction s as [|c r IHs]; simpl; auto.
    - rewrite anywhere_or, includes_lower, IHl. reflexivity. }
  apply E.
Qed.

Lemma here_serif (pos : nat) (prev : option ascii) (rest : string) :
  is_some (Regex.run Regex.flag_i serif_re Some
             {| Regex.m_pos := pos; Regex.m_prev := prev;
                Regex.m_rest := rest; Regex.m_caps := [] |})
  = serif_not_less (lower_ascii rest).
Proof.
  unfold serif_re, serif_not_less.
  rewrite run_seq, (run_keyword "serif" eq_refl).
  cbn [Regex.m_rest].
  destruct (JS.startsWith "serif" (lower_ascii rest)) eqn:S; [|reflexivity].
  cbn [Regex.run]. rewrite (run_keyword "less" eq_refl).
  rewrite (skip_over_rest "serif") by exact S.
  cbn [Regex.m_rest String.length andb].
  assert (D : lower_ascii (JS.drop 5 rest) = JS.drop 5 (lower_ascii rest)).
  { clear S. do 5 (destruct rest as [|? rest]; [reflexivity|]). reflexivity. }
  rewrite D.
  destruct (JS.startsWith "less" (JS.drop 5 (lower_ascii rest))); reflexivity.
Qed.

Lemma anywhere_lower (p : string -> bool) (s : string) :
  anywhere (fun t => p (lower_ascii t)) s = anywhere p (lower_ascii s).
Proof. induction s as [|c r IH]; simpl; [reflexivity|now rewrite IH]. Qed.

Lemma lower_ascii_idempotent (s : string) :
  lower_ascii (lower_ascii s) = lower_ascii s.
Proof.
  unfold lower_ascii. induction s as [|c r IH]; simpl; [reflexivity|].
  rewrite IH. f_equal.
  destruct c as [[] [] [] [] [] [] [] []]; reflexivity.
Qed.

Lemma categorize_words (name : string) :
  categorize name = categorize_by_words name.
Proof.
  unfold categorize, categorize_by_words. cbv zeta.
  change mono_re with (Regex.Alts (map Regex.Lit mono_words)).
  change serif_names_re with (Regex.Alts (map Regex.Lit serif_words)).
  rewrite !test_keywords;
    try discriminate; try (repeat constructor).
  rewrite (test_anywhere _ _ _ name here_serif), anywhere_lower.
  reflexivity.
Qed.

(** X17: the category [extractFonts] gives a font is decided by the keywords
    its name holds, whatever the case of their letters: Monospace when it
    holds one of the eight monospace keywords; else Serif when it holds
    [serif] not followed by [less], or one of the six serif names; else
    Sans-Serif.  So the category does not change when the ASCII letters of
    the name are lower-cased, and a monospace keyword decides alone. *)
Theorem categorize_by_keywords :
  (forall name, categorize name = categorize_by_words name)
  /\ (forall name, categorize (lower_ascii name) = categorize name)
  /\ (forall name w,
        In w mono_words -> JS.includes w (lower_ascii name) = true ->
        categorize name = Monospace).
Proof.
  split; [exact categorize_words|]. split.
  - intros name. rewrite !categorize_words. unfold categorize_by_words.
    now rewrite lower_ascii_idempotent.
  - intros name w Hw Hin. rewrite categorize_words. unfold categorize_by_words.
    cbv zeta.
    replace (existsb (fun w0 => JS.includes w0 (lower_ascii name)) mono_words)
      with true; [reflexivity|].
    symmetry. apply existsb_exists. eauto.
Qed.

Lemma categorize_examples :
  map categorize ["JetBrains Mono"; "PT Serif"; "Serifless"; "Source Code Pro";
                  "Times New Roman"; "Open Sans"; "Sans-Serif"; "Roboto Mono Serif"]
  = [Monospace; Serif; SansSerif; Monospace; Serif; SansSerif; Serif; Monospace].
Proof. vm_compute; reflexivity. Qed.

(** ** Ties *)

Section Stable.

Variable A : Type.
Variable rank : A -> Z.

Lemma sort_insert_rank_up (n : Z) (x : A) (l : list A) :
  with_rank rank n (JS.sort_insert (fun a b => (rank a - rank b)%Z) x l)
  = with_rank rank n (x :: l).
Proof.
  unfold with_rank. induction l as [|y r IH]; simpl; [reflexivity|].
  destruct (Z.leb_spec (rank x - rank y) 0) as [Hle|Hgt]; simpl; [reflexivity|].
  rewrite IH. simpl.
  destruct (Z.eqb_spec (rank x) n) as [Hx|Hx]; [|reflexivity].
  destruct (Z.eqb_spec (rank y) n) as [Hy|Hy]; [lia|reflexivity].
Qed.

Lemma sort_insert_rank_down (n : Z) (x : A) (l : list A) :
  with_rank rank n (JS.sort_insert (fun a b => (rank b - rank a)%Z) x l)
  = with_rank rank n (x :: l).
Proof.
  unfold with_rank. induction l as [|y r IH]; simpl; [reflexivity|].
  destruct (Z.leb_spec (rank y - rank x) 0) as [Hle|Hgt]; simpl; [reflexivity|].
  rewrite IH. simpl.
  destruct (Z.eqb_spec (rank x) n) as [Hx|Hx]; [|reflexivity].
  destruct (Z.eqb_spec (rank y) n) as [Hy|Hy]; [lia|reflexivity].
Qed.

(** Sorting keeps the entries of one rank in their order. *)
Lemma sort_stable_up (n : Z) (l : list A) :
  with_rank rank n (JS.sort (fun a b => (rank a - rank b)%Z) l)
  = with_rank rank n l.
Proof.
  induction l as [|x r IH]; simpl; [reflexivity|].
  rewrite sort_insert_rank_up. unfold with_rank in *. simpl. now rewrite IH.
Qed.

Lemma sort_stable_down (n : Z) (l : list A) :
  with_rank rank n (JS.sort (fun a b => (rank b - rank a)%Z) l)
  = with_rank rank n l.
Proof.
  induction l as [|x r IH]; simpl; [reflexivity|].
  rewrite sort_insert_rank_down. unfold with_rank in *. simpl. now rewrite IH.
Qed.

End Stable.

Lemma find_with_rank {A : Type} (rank : A -> Z) (f : A -> bool) (l : list A)
  (x : A) :
  find f l = Some x -> find f (with_rank rank (rank x) l) = Some x.
Proof.
  unfold with_rank. induction l as [|a r IH]; simpl; [discriminate|].
  destruct (f a) eqn:E.
  - intros [= ->]. rewrite Z.eqb_refl. simpl. now rewrite E.
  - intros H. destruct (rank a =? rank x)%Z; simpl; [rewrite E|]; auto.
Qed.

Lemma filter_firstn_prefix {A : Type} (p : A -> bool) (n : nat) (l : list A) :
  exists rest, filter p l = (filter p (firstn n l) ++ rest)%list.
Proof.
  revert n. induction l as [|a r IH]; intros [|n]; simpl; eauto.
  destruct (IH n) as [rest E]. destruct (p a); simpl; [|eauto].
  exists rest. now rewrite E.
Qed.

Lemma with_rank_map {A B : Type} (f : A -> B) (rank : B -> Z) (n : Z)
  (l : list A) :
  with_rank rank n (map f l) = map f (with_rank (fun a => rank (f a)) n l).
Proof.
  unfold with_rank. induction l as [|a r IH]; simpl; [reflexivity|].
  destruct (rank (f a) =? n)%Z; simpl; now rewrite IH.
Qed.

(** X11: among the colours of one weight, [extractColors] keeps the order in
    which they entered the map: the colours of that weight in the result are
    the first of the colours of that weight in the map, in the same order. *)
Theorem rankColors_ties_in_order_of_appearance (colorMap : list (string * Z))
  (w : Z) :
  exists rest,
    with_rank snd w colorMap
    = (map entry_of (with_rank frequency w (rankColors colorMap)) ++ rest)%list.
Proof.
  destruct (filter_firstn_prefix (fun e : string * Z => (snd e =? w)%Z) 8
              (JS.sort (fun a b => (snd b - snd a)%Z) colorMap)) as [rest E].
  exists rest.
  rewrite <- (sort_stable_down _ snd w colorMap). unfold with_rank at 1.
  rewrite E. f_equal.
  change (filter (fun e : string * Z => (snd e =? w)%Z)
            (firstn 8 (JS.sort (fun a b => (snd b - snd a)%Z) colorMap)))
    with (with_rank snd w
            (firstn 8 (JS.sort (fun a b => (snd b - snd a)%Z) colorMap))).
  rewrite <- rankColors_entries, with_rank_map. reflexivity.
Qed.

Section LogoChoice.

Context {U : UrlApi}.

Ltac logo_cases H :=
  repeat match type of H with
    | In _ (_ ++ _)%list => apply in_app_or in H; destruct H as [H|H]
    | In _ (flat_map _ _) =>
        let el := fresh "el" in
        apply in_flat_map in H; destruct H as (el & _ & H)
    | In _ (match ?o with Some _ => _ | None => _ end) => destruct o
    | In _ (if ?b then _ else _) => destruct b
    | In _ [_] => destruct H as [<-|[]]
    | In _ [] => destruct H
    end.

Lemma inline_svg_has_no_address (doc : Dom.document) (baseUrl : string)
  (base : url) (c : candidate) :
  In c (signal_candidates doc baseUrl ++ [fallback_candidate base])%list ->
  c_source c = "inline-svg" -> c_url c = None.
Proof.
  unfold signal_candidates, og_candidates, twitter_candidates,
    touch_icon_candidates, img_candidates, svg_candidates, favicon_candidates.
  intros H. logo_cases H; simpl; intros E; try discriminate E; reflexivity.
Qed.

Lemma extractLogo_parsed (doc : Dom.document) (baseUrl : string) (base : url) :
  url_parse baseUrl None = Some base ->
  extractLogo doc baseUrl
  = Return (find (fun c => truthy_opt (c_url c))
              (JS.sort by_priority
                 (signal_candidates doc baseUrl ++ [fallback_candidate base]))).
Proof.
  intros Hb. unfold extractLogo, new_URL. rewrite Hb. reflexivity.
Qed.

(** X19: [extractLogo] throws exactly when the base address does not parse;
    otherwise it returns a candidate, never [null], whose address is a text
    that is not empty, so never the inline graphic; and among the candidates
    of its priority it is the first, in the order of the document, that has
    an address. *)
Theorem extractLogo_choice (doc : Dom.document) (baseUrl : string) :
  match url_parse baseUrl None with
  | None => extractLogo doc baseUrl = Throw invalid_url
  | Some base =>
      exists best address,
        extractLogo doc baseUrl = Return (Some best)
        /\ c_url best = Some address /\ address <> ""
        /\ c_source best <> "inline-svg"
        /\ find (fun c => truthy_opt (c_url c))
             (with_rank c_priority (c_priority best)
                (signal_candidates doc baseUrl ++ [fallback_candidate base])%list)
           = Some best
  end.
Proof.
  destruct (url_parse baseUrl None) as [base|] eqn:P.
  2:{ unfold extractLogo, new_URL. now rewrite P. }
  rewrite (extractLogo_parsed doc baseUrl base P).
  set (all := (signal_candidates doc baseUrl ++ [fallback_candidate base])%list).
  assert (Hf : In (fallback_candidate base) (JS.sort by_priority all)).
  { apply (Permutation_in _ (Permutation_sym (sort_perm _ _ _))).
    apply in_or_app. right. now left. }
  assert (Tf : truthy_opt (c_url (fallback_candidate base)) = true).
  { simpl. now apply truthy_append_r. }
  destruct (find_some_if_any (fun c => truthy_opt (c_url c)) _ _ Hf Tf)
    as [best Hbest].
  assert (Tb : truthy_opt (c_url best) = true).
  { now apply find_some in Hbest. }
  destruct (c_url best) as [address|] eqn:E; [|discriminate].
  exists best, address. rewrite Hbest. repeat split.
  - exact E.
  - intros ->. discriminate.
  - intros Hs. apply find_some in Hbest. destruct Hbest as [Hin _].
    apply (Permutation_in _ (sort_perm _ _ _)) in Hin.
    rewrite (inline_svg_has_no_address doc baseUrl base best Hin Hs) in E.
    discriminate.
  - rewrite <- (sort_stable_up _ c_priority (c_priority best) all).
    now apply find_with_rank.
Qed.

End LogoChoice.

Lemma handle_error_status (err : js_error) :
  In (status (handle_error err)) [403; 404; 408; 500]%Z.
Proof.
  unfold handle_error.
  destruct (status_is err 403 || status_is err 401); [simpl; tauto|].
  destruct (code_is err "ECONNREFUSED" || code_is err "ENOTFOUND");
    [simpl; tauto|].
  destruct (code_is err "ETIMEDOUT" || _); simpl; tauto.
Qed.

Section Answers.

Context {U : UrlApi} {N : Network} {M : Markup}.

(** X20: the route always answers: 200 with a record served from the cache,
    200 with a freshly assembled record, or one of the statuses 400, 403,
    404, 408 and 500 with a message.  It stores a record only in the second
    case: the fresh record, under the normalised address, which is also the
    [url] of the record. *)
Theorem analyze_answers (clk : clock) (c : cache) (rawUrl : option string) :
  (exists result,
     analyze clk c rawUrl
     = ({| status := 200; body := ResultBody result true |}, c))
  \/ (exists result target,
        analyze clk c rawUrl
        = ({| status := 200; body := ResultBody result false |},
           cache_set (at_store clk) target result c)
        /\ normalizeUrl (JS.opt_or rawUrl "") = Return target
        /\ r_url result = target)
  \/ (exists code message,
        analyze clk c rawUrl
        = ({| status := code; body := ErrorBody message |}, c)
        /\ In code error_statuses).
Proof.
  unfold analyze.
  destruct (negb (truthy_opt rawUrl)).
  { right; right. do 2 eexists. split; [reflexivity|]. simpl. tauto. }
  destruct (normalizeUrl (JS.opt_or rawUrl "")) as [target|e].
  2:{ right; right. do 2 eexists. split; [reflexivity|]. simpl. tauto. }
  destruct (cache_get (at_lookup clk) target c) as [cached|].
  { left. eauto. }
  destruct (assemble clk target) as [result|err] eqn:A.
  - right; left. exists result, target. repeat split.
    unfold assemble in A.
    destruct (fetchPage target) as [html|e]; [|discriminate]. simpl in A.
    destruct (extractFonts (cheerio_load html) target) as [fonts|e];
      [|discriminate]. simpl in A.
    destruct (extractColors (cheerio_load html) target) as [colors|e];
      [|discriminate]. simpl in A.
    destruct (extractMeta (cheerio_load html) target) as [meta|e];
      [|discriminate]. simpl in A.
    destruct (extractLogo (cheerio_load html) target) as [logo|e];
      [|discriminate]. simpl in A.
    now injection A as <-.
  - right; right. destruct (handle_error_body err) as [msg Hmsg].
    exists (status (handle_error err)), msg. split.
    + f_equal. destruct (handle_error err) as [st b]. simpl in *. now subst.
    + pose proof (handle_error_status err) as H. unfold error_statuses.
      simpl in *. tauto.
Qed.

(** X21: a record older than 300 seconds is not served: the page is
    fetched again, the answer is the fresh record (or the error of the fresh
    attempt), and the fresh record is the one a later request finds. *)
Theorem analyze_expired_record (clk : clock) (c : cache) (raw target : string)
  (stored : Z) (old : analysis_result) :
  JS.truthy raw = true ->
  normalizeUrl raw = Return target ->
  (stored + 300 * 1000 < at_lookup clk)%Z ->
  let answer := analyze clk (cache_set stored target old c) (Some raw) in
  fst answer
  = match assemble clk target with
    | Return result => {| status := 200; body := ResultBody result false |}
    | Throw err => handle_error err
    end
  /\ (forall result,
        assemble clk target = Return result ->
        cache_get (at_store clk) target (snd answer) = Some result).
Proof.
  intros T Hn Hold. cbv zeta. unfold analyze. simpl. rewrite T. simpl.
  unfold JS.or_else. rewrite T, Hn.
  assert (Hmiss : cache_get (at_lookup clk) target
                    (cache_set stored target old c) = None).
  { unfold cache_get, cache_set. rewrite map_get_set, String.eqb_refl.
    destruct (Z.ltb_spec (stored + 300 * 1000) (at_lookup clk)); [|lia].
    reflexivity. }
  rewrite Hmiss.
  destruct (assemble clk target) as [result|err]; simpl.
  - split; [reflexivity|]. intros r [= <-].
    unfold cache_get, cache_set. rewrite map_get_set, String.eqb_refl.
    destruct (Z.ltb_spec (at_store clk + 300 * 1000) (at_store clk)); [lia|].
    reflexivity.
  - split; [reflexivity|]. discriminate.
Qed.

(** X23: white space around the input does not matter to [normalizeUrl], and
    when it fails it throws its own error [Invalid URL], whatever the parser
    threw. *)
Theorem normalizeUrl_white_space_and_failure :
  (forall x, normalizeUrl (JS.trim x) = normalizeUrl x)
  /\ (forall x e, normalizeUrl x = Throw e -> e = invalid_url_error).
Proof.
  split.
  - intros x. unfold normalizeUrl. now rewrite trim_idempotent.
  - intros x e. unfold normalizeUrl, new_URL.
    destruct (url_parse _ None); simpl; [discriminate|now intros [= <-]].
Qed.

End Answers.

Section Tagline.

Context {U : UrlApi} {N : Network} {M : Markup}.

Lemma extractTagline_empty (doc : Dom.document) (description : string) :
  extractTagline doc description = "" ->
  JS.or_else (hd "" (JS.split "." description)) "" = "".
Proof.
  unfold extractTagline.
  destruct (hero_loop doc heroSelectors) as [t|] eqn:Hh.
  { intros ->. exfalso. revert Hh. generalize heroSelectors as sels.
    induction sels as [|sel r IH]; simpl; [discriminate|].
    destruct (JS.trim _) as [|c t]; simpl; [exact IH|].
    destruct (_ && _); [discriminate|exact IH]. }
  destruct (JS.truthy _ && _) eqn:Hog.
  { intros E. rewrite E in Hog. discriminate. }
  destruct (JS.truthy (JS.opt_or (meta_content (meta_name "twitter:description") doc) "") && _) eqn:Htw.
  { intros E. rewrite E in Htw. discriminate. }
  destruct (JS.truthy (JS.trim _) && _) eqn:Hh1.
  { intros E. rewrite E in Hh1. discriminate. }
  auto.
Qed.

(** X22: the tagline of a fresh record is what [extractTagline] returned on
    the page and its description: the route's own fallback, the description
    up to its first period, can never differ from it, since [extractTagline]
    ends with that very fallback.  Title, site name and time stamp are those
    of [extractMeta] and of the clock. *)
Theorem analyze_tagline (clk : clock) (c c' : cache) (rawUrl : option string)
  (result : analysis_result) :
  analyze clk c rawUrl
  = ({| status := 200; body := ResultBody result false |}, c') ->
  exists html meta,
    fetchPage (r_url result) = Return html
    /\ extractMeta (cheerio_load html) (r_url result) = Return meta
    /\ r_tagline result
       = extractTagline (cheerio_load html) (m_description meta)
    /\ r_title result = m_title meta
    /\ r_siteName result = m_siteName meta
    /\ r_scrapedAt result = iso_stamp clk.
Proof.
  intros H. destruct (analyze_fresh _ _ _ _ _ H) as (raw & target & _ & _ & A & _).
  unfold assemble in A.
  destruct (fetchPage target) as [html|e] eqn:F; [|discriminate]. simpl in A.
  destruct (extractFonts (cheerio_load html) target) as [fonts|e];
    [|discriminate]. simpl in A.
  destruct (extractColors (cheerio_load html) target) as [colors|e];
    [|discriminate]. simpl in A.
  destruct (extractMeta (cheerio_load html) target) as [meta|e] eqn:Em;
    [|discriminate]. simpl in A.
  destruct (extractLogo (cheerio_load html) target) as [logo|e];
    [|discriminate]. simpl in A.
  injection A as <-. simpl. exists html, meta. repeat split; auto.
  destruct (extractTagline (cheerio_load html) (m_description meta)) eqn:T;
    [|reflexivity].
  simpl. now apply extractTagline_empty with (cheerio_load html).
Qed.

End Tagline.

Lemma analyze_expired_record_witness :
  let answer :=
    @analyze plain_url bare_site (parsed_as bare_page) ten_past_noon
      (cache_set 1 "https://example.com/" stale_record []) (Some "example.com") in
  fst answer
  = match @assemble plain_url bare_site (parsed_as bare_page) ten_past_noon
            "https://example.com/" with
    | Return result => {| status := 200; body := ResultBody result false |}
    | Throw err => handle_error err
    end
  /\ (forall result,
        @assemble plain_url bare_site (parsed_as bare_page) ten_past_noon
          "https://example.com/" = Return result ->
        cache_get (at_store ten_past_noon) "https://example.com/" (snd answer)
        = Some result).
Proof.
  apply (@analyze_expired_record plain_url bare_site (parsed_as bare_page)
           ten_past_noon [] "example.com" "https://example.com/" 1 stale_record).
  - reflexivity.
  - vm_compute; reflexivity.
  - vm_compute; reflexivity.
Defined.

Lemma analyze_tagline_witness :
  exists result c' html meta,
    @analyze plain_url bare_site (parsed_as hero_page_with_og) noon []
      (Some "example.com")
    = ({| status := 200; body := ResultBody result false |}, c')
    /\ @fetchPage bare_site (r_url result) = Return html
    /\ @extractMeta plain_url (@cheerio_load (parsed_as hero_page_with_og) html)
         (r_url result) = Return meta
    /\ r_tagline result
       = extractTagline (@cheerio_load (parsed_as hero_page_with_og) html)
           (m_description meta)
    /\ r_title result = m_title meta
    /\ r_siteName result = m_siteName meta
    /\ r_scrapedAt result = iso_stamp noon.
Proof.
  destruct (@analyze plain_url bare_site (parsed_as hero_page_with_og) noon []
              (Some "example.com")) as [[st [msg|result cached]] c'] eqn:E;
    [vm_compute in E; discriminate|].
  assert (Hst : st = 200%Z /\ cached = false).
  { vm_compute in E. injection E as <- _ <- _. auto. }
  destruct Hst as [-> ->].
  destruct (@analyze_tagline plain_url bare_site (parsed_as hero_page_with_og)
              noon [] c' (Some "example.com") result E) as (html & meta & H).
  exists result, c', html, meta. split; [reflexivity|exact H].
Defined.

(** * The assets endpoint *)



Section AssetsAnswers.

Context {U : UrlApi} {F : Fetch} {J : Jsdom}.


End AssetsAnswers.

Lemma fetch_assets_examples :
  @fetch_assets plain_url fetched_site (jsdom_of titled_page) (Some "example.com")
  = {| a_status := 200;
       a_body := AssetsFound
                   {| a_url := "https://example.com"; a_title := Some "Acme";
                      a_favicon := Some "https://example.com/icon.png";
                      a_ogImage := None |} |}
  /\ @fetch_assets plain_url fetched_site (jsdom_of titled_page) (Some "")
     = {| a_status := 400; a_body := AssetsError "Missing URL parameter" |}
  /\ @fetch_assets plain_url fetched_site (jsdom_of titled_page)
       (Some "example.org")
     = {| a_status := 500;
          a_body := AssetsError "Failed to fetch or parse website" |}
  /\ @fetch_assets plain_url
       (fetching [("https://example.com",
                   Return {| f_status := 404; f_text := Return "" |})])
       (jsdom_of titled_page) (Some "example.com")
     = {| a_status := 500;
          a_body := AssetsError "Failed to fetch website: 404" |}.
Proof. repeat split; vm_compute; reflexivity. Qed.
